(** * Order Invalidator: batch partitioning, batch execution and the session loop

    A shallow embedding of [order-invalidator.js] (the batch invalidation
    orchestrator of the Yotpo tool set, and the date cleaner that follows it
    in the file) together with the properties its specification states
    about it, and further properties of the run, of the text field and of
    the date cleaner. *)

From Stdlib Require Import ZArith Lia Bool QArith Qround Qpower.
From Stdlib Require Import Floats.SpecFloat.
From stdpp Require Import base option list strings pretty.

Local Open Scope Z_scope.

(** ** Arrays *)

Module JsArray.

(** [Array.prototype.slice(start, end)] for integer arguments: a negative
    index counts from the end of the array, and both indices are clamped to
    the range [0 .. length]. *)
Definition relative_index (len k : Z) : Z :=
  if k <? 0 then Z.max (len + k) 0 else Z.min k len.

Definition slice {A} (array : list A) (start final : Z) : list A :=
  let len := Z.of_nat (length array) in
  let k := relative_index len start in
  let e := relative_index len final in
  take (Z.to_nat (e - k)) (drop (Z.to_nat k) array).

(** [chunks.push(x)] appends at the end. *)
Definition push {A} (chunks : list A) (x : A) : list A := chunks ++ [x].

End JsArray.

(** ** The partitioner *)

Module Partitioner.
Import JsArray.

(** The [for] loop of [chunkArray]: the loop variable [i] starts at 0 and is
    advanced by [size]; each round pushes [array.slice(i, i + size)].  The
    loop has no bound of its own, so the embedding counts rounds with
    [fuel]: [None] means that the loop is still running when the fuel is
    used up. *)
Fixpoint chunkArray_loop {A} (fuel : nat) (array : list A) (size i : Z)
    (chunks : list (list A)) : option (list (list A)) :=
  if i <? Z.of_nat (length array) then
    match fuel with
    | O => None
    | S fuel' =>
        chunkArray_loop fuel' array size (i + size)
          (push chunks (slice array i (i + size)))
    end
  else Some chunks.

Definition chunkArray {A} (fuel : nat) (array : list A) (size : Z)
    : option (list (list A)) :=
  chunkArray_loop fuel array size 0 [].

(** [ceil(n / B)] on integers. *)
Definition ceil_div (n B : Z) : Z := (n + B - 1) / B.

End Partitioner.

(** ** JavaScript values *)

Module Js.

(** The values [response.json()] can resolve to, and [undefined].  A JSON
    number is an IEEE 754 double. *)
#[local] Unset Elimination Schemes.
Inductive JsValue :=
| JUndefined
| JNull
| JBool (b : bool)
| JNum (x : spec_float)
| JStr (s : string)
| JArr (items : list JsValue)
| JObj (props : list (string * JsValue)).
#[local] Set Elimination Schemes.

(** ToBoolean, as [||] and [!] apply it. *)
Definition truthy (v : JsValue) : bool :=
  match v with
  | JUndefined | JNull => false
  | JBool b => b
  | JNum (S754_zero _) | JNum S754_nan => false
  | JNum _ => true
  | JStr s => negb (String.eqb s "")
  | JArr _ | JObj _ => true
  end.

(** The property names the program reads from response bodies.  None of
    them is a member of a built-in prototype, so reading one from a string,
    number, boolean or array gives [undefined]. *)
Inductive PropName :=
| p_error | p_status | p_message | p_error_description | p_access_token.

Definition prop_key (p : PropName) : string :=
  match p with
  | p_error => "error"
  | p_status => "status"
  | p_message => "message"
  | p_error_description => "error_description"
  | p_access_token => "access_token"
  end.

(** The own properties of an object are listed each key once; a key that is
    not there reads as [undefined]. *)
Fixpoint own_property (props : list (string * JsValue)) (key : string)
    : JsValue :=
  match props with
  | [] => JUndefined
  | (k, v) :: props' =>
      if String.eqb k key then v else own_property props' key
  end.

(** A piece of a text.  The decimal digits that the engine writes for a
    number are not spelled out: [Int] and [Num] stand for them. *)
Inductive Piece :=
| Lit (s : string)
| Int (n : Z)
| Num (x : spec_float)
| ToFixed (x : spec_float) (digits : nat)
| NullishRead (base : JsValue) (p : PropName).
    (* the engine's wording of "cannot read property p of null" *)

Definition Text := list Piece.

(** A thrown value; the program only ever reads its [message]. *)
Record JsError := { message : Text }.

(** How a statement ends.  [Hang] stands for a loop that never ends. *)
Inductive Completion (A : Type) :=
| Normal (a : A)
| Throw (e : JsError)
| Hang.
Arguments Normal {A} a.
Arguments Throw {A} e.
Arguments Hang {A}.

(** Whether an object has a property of its own with this key. *)
Fixpoint has_own (props : list (string * JsValue)) (key : string) : bool :=
  match props with
  | [] => false
  | (k, _) :: props' => String.eqb k key || has_own props' key
  end.

(** ToString, as a template literal applies it to a value that was parsed
    from JSON; [None] when the conversion throws.  An array is its elements
    joined by commas, [null] and [undefined] counting as nothing.  An object
    is ["[object Object]"], what [Object.prototype.toString] returns,
    unless it has a [toString] of its own: a value from JSON is never a
    function, so that the conversion finds no method to call there, gets the
    object itself back from [valueOf] (or finds no function there either),
    and throws a TypeError. *)
Fixpoint to_text (v : JsValue) : option Text :=
  match v with
  | JUndefined => Some [Lit "undefined"]
  | JNull => Some [Lit "null"]
  | JBool b => Some [Lit (if b then "true" else "false")]
  | JNum x => Some [Num x]
  | JStr s => Some [Lit s]
  | JArr items =>
      (fix join (items : list JsValue) : option Text :=
         match items with
         | [] => Some []
         | item :: items' =>
             match
               match item with
               | JUndefined | JNull => Some []
               | _ => to_text item
               end, join items'
             with
             | Some t, Some t' =>
                 Some (t ++ match items' with
                            | [] => []
                            | _ :: _ => Lit "," :: t'
                            end)
             | _, _ => None
             end
         end) items
  | JObj props =>
      if has_own props "toString" then None else Some [Lit "[object Object]"]
  end.

(** The TypeError of a conversion that fails, with the message V8 gives
    it. *)
Definition not_primitive : JsError :=
  {| message := [Lit "Cannot convert object to primitive value"] |}.

Definition ToString (v : JsValue) : Completion Text :=
  match to_text v with
  | Some t => Normal t
  | None => Throw not_primitive
  end.

(** [v.p]: a TypeError on [null] and [undefined]. *)
Definition get (v : JsValue) (p : PropName) : Completion JsValue :=
  match v with
  | JUndefined | JNull => Throw {| message := [NullishRead v p] |}
  | JObj props => Normal (own_property props (prop_key p))
  | _ => Normal JUndefined
  end.

(** [v?.p] *)
Definition get_optional (v : JsValue) (p : PropName) : Completion JsValue :=
  match v with
  | JUndefined | JNull => Normal JUndefined
  | _ => get v p
  end.

End Js.

(** ** Numbers *)

Module Number.

Definition prec : Z := 53.
Definition emax : Z := 1024.

Definition of_Z (z : Z) : spec_float := binary_normalize prec emax z 0 false.
Definition zero : spec_float := S754_zero false.

Definition sub := SFsub prec emax.
Definition mul := SFmul prec emax.
Definition div := SFdiv prec emax.
Definition ltb := SFltb.

Definition isFinite (x : spec_float) : bool :=
  match x with
  | S754_zero _ | S754_finite _ _ _ => true
  | S754_infinity _ | S754_nan => false
  end.

(** [Math.round]: the nearest integer, ties towards +∞; a negative
    argument that rounds to zero gives -0. *)
Definition Math_round (x : spec_float) : spec_float :=
  match x with
  | S754_finite s m e =>
      if 0 <=? e then x
      else
        let sm := cond_Zopp s (Zpos m) in
        binary_normalize prec emax
          ((2 * sm + 2 ^ (- e)) / 2 ^ (1 - e)) 0 s
  | _ => x
  end.

(** [Math.floor] *)
Definition Math_floor (x : spec_float) : spec_float :=
  match x with
  | S754_finite s m e =>
      if 0 <=? e then x
      else
        binary_normalize prec emax
          (cond_Zopp s (Zpos m) / 2 ^ (- e)) 0 false
  | _ => x
  end.

(** [n % d]: the exact remainder of the truncated division, with the sign
    of the dividend. *)
Definition rem (n d : spec_float) : spec_float :=
  match n, d with
  | S754_nan, _ | _, S754_nan => S754_nan
  | S754_infinity _, _ => S754_nan
  | _, S754_zero _ => S754_nan
  | _, S754_infinity _ => n
  | S754_zero _, _ => n
  | S754_finite sn mn en, S754_finite _ md ed =>
      let e0 := Z.min en ed in
      let N := cond_Zopp sn (Zpos mn) * 2 ^ (en - e0) in
      let D := Zpos md * 2 ^ (ed - e0) in
      binary_normalize prec emax (Z.rem N D) e0 sn
  end.

End Number.

(** ** The remote service *)

Module Http.
Import Js.

(** The body of a response: JSON text that parses to a value, or text on
    which [response.json()] rejects. *)
Inductive Body :=
| BodyJson (v : JsValue)
| BodyInvalid (reason : string).

Record Response := {
  status : Z;
  statusText : string;
  body : Body
}.

(** [response.ok] *)
Definition ok (r : Response) : bool :=
  (200 <=? status r) && (status r <=? 299).

(** What awaiting [fetch] gives: a response, or a rejection when the request
    never completed. *)
Inductive FetchOutcome :=
| Resolves (r : Response)
| Rejects (reason : string).

(** A call of [fetch]; [payload] is the value handed to [JSON.stringify]. *)
Record Request := {
  endpoint : string;
  method : string;
  payload : JsValue
}.

(** [await response.json()] *)
Definition json (r : Response) : Completion JsValue :=
  match body r with
  | BodyJson v => Normal v
  | BodyInvalid reason => Throw {| message := [Lit reason] |}
  end.

(** [await response.json().catch(() => ({}))] *)
Definition json_or_empty (r : Response) : JsValue :=
  match body r with
  | BodyJson v => v
  | BodyInvalid _ => JObj []
  end.

End Http.

(** ** The invalidation run *)

Module Invalidator.
Import Js Http Number JsArray Partitioner.

Definition BATCH_SIZE : Z := 5000.

(** Writes to the page, in the order they happen. *)
Inductive UiWrite :=
| invalidateBtn_textContent (s : string)
| invalidateBtn_disabled (b : bool)
| progressBar_width (t : Text)
| progressText_textContent (t : Text)
| etrText_textContent (t : Text)
| alert (s : string).

(** The state the run works on: the log area and the console, the requests
    sent so far, the page, the module-level flag [isProcessing], and the three
    counters of [invalidateOrdersInBatches].  The timestamp that [logToScreen]
    puts in front of a message, the class-list changes and the disabling of
    the input fields are left out. *)
Record State := {
  logOutput : list Text;
  console_error : list Text;
  requests : list Request;
  ui : list UiWrite;
  isProcessing : bool;
  totalSuccessCount : nat;
  totalFailCount : nat;
  processedIdCount : nat
}.

Definition initial : State :=
  {| logOutput := []; console_error := []; requests := []; ui := [];
     isProcessing := false;
     totalSuccessCount := 0; totalFailCount := 0; processedIdCount := 0 |}.

(** What the surroundings decide in one round of the batch loop.
    [isCancelled] is a module-level variable that the click handlers write
    while the loop is suspended in an [await]; the loop reads it once, at the
    top of each round, and the round's environment gives the value read. *)
Record Round := {
  isCancelled : bool;
  batchResponse : FetchOutcome;
  clock : Z            (* [Date.now()] in [updateProgressUI] *)
}.

Record Env := {
  tokenResponse : FetchOutcome;
  startTime : Z;       (* [Date.now()] at the start of step 2 *)
  round : nat → Round;
  endTime : Z          (* [Date.now()] after the loop *)
}.

(** Statements: state passing with exceptions. *)
Definition M (A : Type) : Type := State → State * Completion A.

Definition ret {A} (a : A) : M A := λ st, (st, Normal a).

Definition bind {A B} (m : M A) (k : A → M B) : M B :=
  λ st,
    match m st with
    | (st', Normal a) => k a st'
    | (st', Throw e) => (st', Throw e)
    | (st', Hang) => (st', Hang)
    end.

Notation "x <- m ;; k" := (bind m (λ x, k))
  (at level 100, m at next level, right associativity).
Notation "m ;; k" := (bind m (λ _, k))
  (at level 100, right associativity).

Definition throw {A} (e : JsError) : M A := λ st, (st, Throw e).

Definition lift {A} (c : Completion A) : M A := λ st, (st, c).

Definition modify (f : State → State) : M unit := λ st, (f st, Normal tt).

(** [try { m } catch (e) { handler e }] *)
Definition try_catch {A} (m : M A) (handler : JsError → M A) : M A :=
  λ st,
    match m st with
    | (st', Throw e) => handler e st'
    | r => r
    end.

(** [try { m } finally { final }] *)
Definition try_finally {A} (m : M A) (final : M unit) : M A :=
  λ st,
    match m st with
    | (st', Hang) => (st', Hang)
    | (st', c) =>
        match final st' with
        | (st'', Normal _) => (st'', c)
        | (st'', Throw e) => (st'', Throw e)
        | (st'', Hang) => (st'', Hang)
        end
    end.

Definition logToScreen (message : Text) (isError : bool) : M unit :=
  modify (λ st,
    {| logOutput := logOutput st ++ [message];
       console_error :=
         if isError then console_error st ++ [message] else console_error st;
       requests := requests st; ui := ui st; isProcessing := isProcessing st;
       totalSuccessCount := totalSuccessCount st;
       totalFailCount := totalFailCount st;
       processedIdCount := processedIdCount st |}).

Definition write_ui (w : UiWrite) : M unit :=
  modify (λ st,
    {| logOutput := logOutput st; console_error := console_error st;
       requests := requests st; ui := ui st ++ [w];
       isProcessing := isProcessing st;
       totalSuccessCount := totalSuccessCount st;
       totalFailCount := totalFailCount st;
       processedIdCount := processedIdCount st |}).

Definition set_isProcessing (b : bool) : M unit :=
  modify (λ st,
    {| logOutput := logOutput st; console_error := console_error st;
       requests := requests st; ui := ui st; isProcessing := b;
       totalSuccessCount := totalSuccessCount st;
       totalFailCount := totalFailCount st;
       processedIdCount := processedIdCount st |}).

Definition set_counters (success fail processed : nat) (st : State) : State :=
  {| logOutput := logOutput st; console_error := console_error st;
     requests := requests st; ui := ui st; isProcessing := isProcessing st;
     totalSuccessCount := success; totalFailCount := fail;
     processedIdCount := processed |}.

(** [totalSuccessCount += n], [totalFailCount += n], [processedIdCount += n] *)
Definition add_totalSuccessCount (n : nat) : M unit :=
  modify (λ st, set_counters (totalSuccessCount st + n) (totalFailCount st)
                  (processedIdCount st) st).

Definition add_totalFailCount (n : nat) : M unit :=
  modify (λ st, set_counters (totalSuccessCount st) (totalFailCount st + n)
                  (processedIdCount st) st).

Definition add_processedIdCount (n : nat) : M unit :=
  modify (λ st, set_counters (totalSuccessCount st) (totalFailCount st)
                  (processedIdCount st + n) st).

Definition with_request (req : Request) (st : State) : State :=
  {| logOutput := logOutput st; console_error := console_error st;
     requests := requests st ++ [req]; ui := ui st;
     isProcessing := isProcessing st;
     totalSuccessCount := totalSuccessCount st;
     totalFailCount := totalFailCount st;
     processedIdCount := processedIdCount st |}.

(** [await fetch(endpoint, {method, body})]: the request goes out, and the
    surroundings decide how it ends. *)
Definition fetch (req : Request) (outcome : FetchOutcome) : M Response :=
  λ st,
    (with_request req st,
     match outcome with
     | Resolves r => Normal r
     | Rejects reason => Throw {| message := [Lit reason] |}
     end).

Definition get_state : M State := λ st, (st, Normal st).

(** *** The progress estimator *)

(** Lines 276-277 of [updateProgressUI]: the time per item, and the time for
    the items that are left. *)
Definition etrMs (current total elapsedTime : spec_float) : spec_float :=
  let timePerItem := div elapsedTime current in
  mul (sub total current) timePerItem.

Definition formatTime (ms : spec_float) : Text :=
  if ltb ms zero || negb (isFinite ms) then [Lit "N/A"]
  else
    let seconds := Math_round (div ms (of_Z 1000)) in
    let minutes := Math_floor (div seconds (of_Z 60)) in
    let seconds := rem seconds (of_Z 60) in
    (if ltb zero minutes then [Num minutes; Lit "m "] else [])
    ++ [Num seconds; Lit "s"].

(** [now] is what [Date.now()] returns in the body. *)
Definition updateProgressUI (current total : nat) (startTime now : Z)
    : M unit :=
  let current := of_Z (Z.of_nat current) in
  let total := of_Z (Z.of_nat total) in
  let percentage := mul (div current total) (of_Z 100) in
  write_ui (progressBar_width [Num percentage; Lit "%"]) ;;
  write_ui (progressText_textContent
              [Num current; Lit "/"; Num total; Lit " (";
               Num (Math_round percentage); Lit "%)"]) ;;
  let elapsedTime := sub (of_Z now) (of_Z startTime) in
  write_ui (etrText_textContent
              (Lit "Est. time remaining: "
               :: formatTime (etrMs current total elapsedTime))).

(** *** Step 1: the credential *)

Definition generateUToken (appKey secretKey : string) (outcome : FetchOutcome)
    : M JsValue :=
  logToScreen [Lit "Step 1: Generating uToken..."] false ;;
  response <-
    fetch {| endpoint := "https://api.yotpo.com/oauth/token";
             method := "POST";
             payload := JObj [("grant_type", JStr "client_credentials");
                              ("client_id", JStr appKey);
                              ("client_secret", JStr secretKey)] |}
          outcome ;;
  data <- lift (json response) ;;
  (if negb (ok response) then
     error_description <- lift (get data p_error_description) ;;
     cause <-
       lift (ToString (if truthy error_description then error_description
                       else JStr (statusText response))) ;;
     throw {| message := Lit "Token generation failed: " :: cause |}
   else ret tt) ;;
  uToken <- lift (get data p_access_token) ;;
  if negb (truthy uToken) then
    throw {| message := [Lit "Token not found in authentication response."] |}
  else
    logToScreen [Lit "✅ Step 1: Success! uToken generated."] false ;;
    ret uToken.

(** *** Step 2: the batches *)

(** [batch.map(id => ({ order_id: id }))] *)
Definition ordersPayload (batch : list string) : list JsValue :=
  map (λ id, JObj [("order_id", JStr id)]) batch.

(** The [try]/[catch] statement in the body of the batch loop: one request
    for the batch, and the reading of its result.  The template literal of
    the failure line turns [errorMessage] into text before [logToScreen] is
    called; when that throws, the [catch] block takes over. *)
Definition executeBatch (uToken : JsValue) (appKey : string)
    (batchNumber : nat) (batch : list string) (outcome : FetchOutcome)
    : M unit :=
  try_catch
    (response <-
       fetch {| endpoint :=
                  "https://api.yotpo.com/apps/" +:+ appKey +:+ "/purchases";
                method := "DELETE";
                payload := JObj [("utoken", uToken);
                                 ("orders", JArr (ordersPayload batch))] |}
             outcome ;;
     if (status response =? 200) || (status response =? 204) then
       logToScreen [Lit "✅ SUCCESS: Batch "; Int (Z.of_nat batchNumber);
                    Lit " invalidated successfully."] false ;;
       add_totalSuccessCount (length batch)
     else
       let errorData := json_or_empty response in
       error <- lift (get errorData p_error) ;;
       errorMessage <-
         (if truthy error then ret error
          else
            status_ <- lift (get errorData p_status) ;;
            status_message <- lift (get_optional status_ p_message) ;;
            if truthy status_message then ret status_message
            else ret (JStr ("HTTP " +:+ pretty (status response)))) ;;
       text <- lift (ToString errorMessage) ;;
       logToScreen ([Lit "FAILED: Batch "; Int (Z.of_nat batchNumber);
                     Lit " - "] ++ text) true ;;
       add_totalFailCount (length batch))
    (λ networkError,
       logToScreen ([Lit "FAILED: Batch "; Int (Z.of_nat batchNumber);
                     Lit " - Network error: "] ++ message networkError) true ;;
       add_totalFailCount (length batch)).

(** The [for] loop over [orderIdChunks], from index [i] on; [rest] is what is
    left of the chunks from [i].  The pause of 500 ms at the end of a round
    changes nothing in the state. *)
Fixpoint batchLoop (uToken : JsValue) (appKey : string) (nChunks totalIds : nat)
    (env : Env) (i : nat) (rest : list (list string)) : M unit :=
  match rest with
  | [] => ret tt
  | batch :: rest' =>
      if isCancelled (round env i) then
        logToScreen [Lit "Process cancelled by user."] true
      else
        let batchNumber := (i + 1)%nat in
        logToScreen [Lit "Processing Batch "; Int (Z.of_nat batchNumber);
                     Lit "/"; Int (Z.of_nat nChunks); Lit "..."] false ;;
        executeBatch uToken appKey batchNumber batch
                     (batchResponse (round env i)) ;;
        add_processedIdCount (length batch) ;;
        st <- get_state ;;
        updateProgressUI (processedIdCount st) totalIds (startTime env)
                         (clock (round env i)) ;;
        batchLoop uToken appKey nChunks totalIds env (S i) rest'
  end.

(** [chunkArray] gets one round of fuel per identifier: enough for every
    positive size, and on a list that is not empty no fuel is enough for any
    other size, so that [Hang] is exactly the partitioning that never
    ends. *)
Definition invalidateOrdersInBatches (uToken : JsValue) (appKey : string)
    (allOrderIds : list string) (env : Env) : M unit :=
  logToScreen [Lit "Step 2: Starting invalidation for ";
               Int (Z.of_nat (length allOrderIds));
               Lit " orders in batches of "; Int BATCH_SIZE; Lit "..."] false ;;
  match chunkArray (length allOrderIds) allOrderIds BATCH_SIZE with
  | None => lift Hang
  | Some orderIdChunks =>
      modify (set_counters 0 0 0) ;;
      batchLoop uToken appKey (length orderIdChunks) (length allOrderIds)
                env 0 orderIdChunks ;;
      logToScreen [Lit "--- PROCESSING COMPLETE ---"] false ;;
      st <- get_state ;;
      logToScreen [Lit "Summary: "; Int (Z.of_nat (totalSuccessCount st));
                   Lit " succeeded, "; Int (Z.of_nat (totalFailCount st));
                   Lit " failed."] false ;;
      logToScreen [Lit "Total time: ";
                   ToFixed (div (sub (of_Z (endTime env))
                                     (of_Z (startTime env))) (of_Z 1000)) 2;
                   Lit " seconds."] false
  end.

(** *** The whole run *)

(** [isCancelled = false] is left to the environment of the rounds, and
    [logOutput.value = ''] empties the log area. *)
Definition setupUIForProcessing (totalOrders : nat) : M unit :=
  set_isProcessing true ;;
  write_ui (invalidateBtn_textContent "Cancel") ;;
  write_ui (progressBar_width [Lit "0%"]) ;;
  write_ui (progressText_textContent
              [Lit "0/"; Int (Z.of_nat totalOrders); Lit " (0%)"]) ;;
  write_ui (etrText_textContent [Lit "Est. time remaining: N/A"]) ;;
  modify (λ st,
    {| logOutput := []; console_error := console_error st;
       requests := requests st; ui := ui st; isProcessing := isProcessing st;
       totalSuccessCount := totalSuccessCount st;
       totalFailCount := totalFailCount st;
       processedIdCount := processedIdCount st |}) ;;
  logToScreen [Lit "Starting process for "; Int (Z.of_nat totalOrders);
               Lit " orders..."] false.

(** [appKey], [secretKey] and [allOrderIds] are the values the function
    computes from the input fields in its first three lines. *)
Definition startInvalidationProcess (appKey secretKey : string)
    (allOrderIds : list string) (env : Env) : M unit :=
  if (length allOrderIds =? 0)%nat then
    write_ui (alert "Please paste or import at least one Order ID.")
  else if String.eqb appKey "" || String.eqb secretKey "" then
    write_ui (alert "Please provide both an App Key and a Secret Key.")
  else
    setupUIForProcessing (length allOrderIds) ;;
    try_finally
      (try_catch
         (generatedUtoken <-
            generateUToken appKey secretKey (tokenResponse env) ;;
          invalidateOrdersInBatches generatedUtoken appKey allOrderIds env)
         (λ error,
            logToScreen (Lit "❌ CRITICAL ERROR: " :: message error) true ;;
            logToScreen
              [Lit "Process stopped. Please check credentials and try again."]
              false))
      (set_isProcessing false ;;
       write_ui (invalidateBtn_textContent "Finished") ;;
       write_ui (invalidateBtn_disabled true)).

End Invalidator.

(** ** The partitioner on the heap *)

(** [chunkArray] once more, now with the arrays as objects: the argument is a
    reference to an array, [chunks] and every slice are newly allocated
    arrays, and [chunks.push] changes [chunks] in place.  This is the view
    that shows what the function writes. *)
Module Heap.
Import JsArray.

Abbreviation loc := nat (only parsing).

(** An element of an array: a plain value, or a reference to an array. *)
Inductive Cell (A : Type) :=
| Elem (a : A)
| Ref (l : loc).
Arguments Elem {A} a.
Arguments Ref {A} l.

(** The arrays allocated so far, in the order of their allocation (a
    location is a position in this list), next to the rest of the program's
    state. *)
Record Store (A : Type) := {
  heap : list (list (Cell A));
  world : Invalidator.State
}.
Arguments heap {A} s.
Arguments world {A} s.

Definition alloc {A} (elems : list (Cell A)) (s : Store A) : Store A * loc :=
  ({| heap := heap s ++ [elems]; world := world s |}, length (heap s)).

(** [target.push(x)] *)
Definition array_push {A} (target : loc) (x : Cell A) (s : Store A) : Store A :=
  {| heap := alter (λ elems, push elems x) target (heap s);
     world := world s |}.

(** [None] when the fuel is used up (or when [array] is not the location of
    an array, which a reference never is). *)
Fixpoint chunkArray_loop {A} (fuel : nat) (array : loc) (size i : Z)
    (chunks : loc) (s : Store A) : option (Store A) :=
  match heap s !! array with
  | None => None
  | Some elems =>
      if i <? Z.of_nat (length elems) then
        match fuel with
        | O => None
        | S fuel' =>
            let '(s1, piece) := alloc (slice elems i (i + size)) s in
            chunkArray_loop fuel' array size (i + size) chunks
              (array_push chunks (Ref piece) s1)
        end
      else Some s
  end.

Definition chunkArray {A} (fuel : nat) (array : loc) (size : Z) (s : Store A)
    : option (Store A * loc) :=
  let '(s0, chunks) := alloc [] s in
  match chunkArray_loop fuel array size 0 chunks s0 with
  | Some s' => Some (s', chunks)
  | None => None
  end.

(** Reading an array of arrays back from the heap. *)
Fixpoint read_all {A} (h : list (list (Cell A))) (cells : list (Cell A))
    : option (list (list (Cell A))) :=
  match cells with
  | [] => Some []
  | Ref l :: cells' =>
      match h !! l, read_all h cells' with
      | Some elems, Some rest => Some (elems :: rest)
      | _, _ => None
      end
  | Elem _ :: _ => None
  end.

Definition contents {A} (s : Store A) (chunks : loc)
    : option (list (list (Cell A))) :=
  match heap s !! chunks with
  | Some cells => read_all (heap s) cells
  | None => None
  end.

End Heap.

(** ** Strings *)

(** The text of the input fields, as sequences of UTF-16 code units, with
    the string methods the program applies to it. *)
Module JsString.

Abbreviation str := (list N) (only parsing).

(** The code units that [trim] removes: WhiteSpace (tab, vertical tab, form
    feed, the byte order mark and the space separators) and LineTerminator
    (line feed, carriage return, line and paragraph separator). *)
Definition is_white_space (c : N) : bool :=
  existsb (N.eqb c)
    [9; 10; 11; 12; 13; 32; 160; 5760; 8232; 8233; 8239; 8287; 12288;
     65279]%N
  || ((8192 <=? c) && (c <=? 8202))%N.

Fixpoint trimStart (s : str) : str :=
  match s with
  | [] => []
  | c :: s' => if is_white_space c then trimStart s' else s
  end.

Definition trimEnd (s : str) : str := reverse (trimStart (reverse s)).

Definition trim (s : str) : str := trimEnd (trimStart s).

(** ['\n'] *)
Definition LF : N := 10.

(** [s.split(sep)] for a separator of one code unit: the pieces between the
    separators, of which there is always at least one. *)
Fixpoint split (sep : N) (s : str) : list str :=
  match s with
  | [] => [[]]
  | c :: s' =>
      if (c =? sep)%N then [] :: split sep s'
      else
        match split sep s' with
        | piece :: pieces => (c :: piece) :: pieces
        | [] => [[c]]
        end
  end.

(** [pieces.join(sep)] *)
Fixpoint join (sep : str) (pieces : list str) : str :=
  match pieces with
  | [] => []
  | [piece] => piece
  | piece :: pieces' => piece ++ sep ++ join sep pieces'
  end.

End JsString.

(** ** The identifiers: from the file and from the text field *)

Module Fields.
Import JsString.

(** [s !== ''] *)
Definition nonempty (s : str) : bool :=
  match s with [] => false | _ :: _ => true end.

(** The third line of [startInvalidationProcess]:
    [orderIdsInput.value.trim().split('\n').map(id => id.trim())
       .filter(id => id !== '')] *)
Definition allOrderIds (orderIdsInput_value : str) : list str :=
  filter (λ id, nonempty id) (trim <$> split LF (trim orderIdsInput_value)).

(** [id && id.trim() !== ''] on what [row[0]] gives; [None] is
    [undefined], the first cell of a row without cells. *)
Definition is_order_id (cell : option str) : bool :=
  match cell with
  | Some id => nonempty id && nonempty (trim id)
  | None => false
  end.

(** The first expression of the [complete] callback of [handleFile], on the
    rows that the CSV parser hands over (each an array of strings):
    [results.data.slice(1).map(row => row[0])
       .filter(id => id && id.trim() !== '')] *)
Definition parsedOrderIds (results_data : list (list str)) : list str :=
  omap (λ cell, cell)
    (filter (λ cell, is_order_id cell) (head <$> drop 1 results_data)).


(** The line the callback logs, and whether it is an error. *)
Definition import_log_line (results_data : list (list str))
    : Js.Text * bool :=
  let parsed := parsedOrderIds results_data in
  if (0 <? length parsed)%nat
  then ([Js.Lit "✅ Successfully imported ";
         Js.Int (Z.of_nat (length parsed)); Js.Lit " Order IDs."], false)
  else ([Js.Lit "Error: No valid Order IDs found in the CSV file."], true).

End Fields.

(** ** The date cleaner *)

(** The second script of the file: it rewrites the dates of a text, line by
    line, as [yyyy-mm-dd]. *)
Module DateCleaner.
Import JsString.

(** The code units of a string literal of the source (ASCII only). *)
Definition units (s : string) : str :=
  (λ a, Ascii.N_of_ascii a) <$> String.list_ascii_of_string s.

(** *** The regular expressions *)

(** The character classes that occur in the four expressions, on code units
    (the expressions carry no flag). *)
Inductive Class :=
  | Word          (* \w *)
  | Digit         (* \d *)
  | Space         (* \s *)
  | DashOrSpace   (* [-\s] *)
  | SlashOrDash   (* [/-] *)
  | Comma.        (* , *)

Definition is_digit (c : N) : bool := ((48 <=? c) && (c <=? 57))%N.
Definition is_upper (c : N) : bool := ((65 <=? c) && (c <=? 90))%N.
Definition is_lower (c : N) : bool := ((97 <=? c) && (c <=? 122))%N.

Definition in_class (k : Class) (c : N) : bool :=
  match k with
  | Word => is_upper c || is_lower c || is_digit c || (c =? 95)%N
  | Digit => is_digit c
  | Space => is_white_space c
  | DashOrSpace => (c =? 45)%N || is_white_space c
  | SlashOrDash => (c =? 47)%N || (c =? 45)%N
  | Comma => (c =? 44)%N
  end.

(** Each of the expressions is a sequence of atoms: a class with a greedy
    quantifier, inside a capturing group or not.  No group holds more than
    one atom. *)
Record Atom := {
  class : Class;
  at_least : nat;
  at_most : option nat;      (* [None]: no upper bound *)
  captured : bool
}.

(** [(k+)] or [k+] *)
Definition one_or_more (k : Class) (captured : bool) : Atom :=
  {| class := k; at_least := 1; at_most := None; captured := captured |}.
(** [(k{lo,hi})] *)
Definition between (k : Class) (lo hi : nat) (captured : bool) : Atom :=
  {| class := k; at_least := lo; at_most := Some hi; captured := captured |}.
(** [k], once *)
Definition once (k : Class) : Atom := between k 1 1 false.
(** [k?] *)
Definition optional (k : Class) : Atom := between k 0 1 false.

(** How many code units at the start of [s] a greedy quantifier takes at
    first: all that are in the class, up to the upper bound. *)
Fixpoint run (k : Class) (most : option nat) (s : str) : nat :=
  match most, s with
  | Some O, _ => 0
  | _, [] => 0
  | _, c :: s' =>
      if in_class k c then S (run k (Nat.pred <$> most) s') else 0
  end%nat.

(** Backtracking over the length that an atom takes: [n] code units first;
    when what follows ([continue]) does not match, one less, down to the
    lower bound of the atom. *)
Fixpoint backtrack {R} (least : nat) (continue : nat → option R) (n : nat)
    : option R :=
  if (n <? least)%nat then None
  else
    match continue n with
    | Some r => Some r
    | None =>
        match n with
        | O => None
        | S n' => backtrack least continue n'
        end
    end.

(** The match of [atoms] in [s] from index [i] on: an atom first takes its
    longest run.  The result is the index where the match ends, and the
    spans (index and length) of the groups. *)
Fixpoint matches (atoms : list Atom) (s : str) (i : nat)
    : option (nat * list (nat * nat)) :=
  match atoms with
  | [] => Some (i, [])
  | a :: rest =>
      backtrack (at_least a)
        (λ n,
           match matches rest s (i + n)%nat with
           | Some (e, groups) =>
               Some (e, if captured a then (i, n) :: groups else groups)
           | None => None
           end)
        (run (class a) (at_most a) (drop i s))
  end.

(** [s.substring(i, i + n)] *)
Definition span (s : str) (g : nat * nat) : str := take g.2 (drop g.1 s).

(** The search goes through the start indices in order and stops at the
    first where the expression matches. *)
Fixpoint exec_from (atoms : list Atom) (s : str) (starts : list nat)
    : option (list (nat * nat)) :=
  match starts with
  | [] => None
  | i :: later =>
      match matches atoms s i with
      | Some (e, groups) => Some ((i, e - i)%nat :: groups)
      | None => exec_from atoms s later
      end
  end.

(** [regex.exec(s)] for an expression without the global flag: [None] is
    [null]; otherwise the array holds the text matched and the text of each
    group. *)
Definition exec (atoms : list Atom) (s : str) : option (list str) :=
  match exec_from atoms s (seq 0 (S (length s))) with
  | Some groups => Some (span s <$> groups)
  | None => None
  end.

(** *** The functions of the script *)

(** An object with string values, as the list of its own properties. *)
Fixpoint property (o : list (str * str)) (key : str) : option str :=
  match o with
  | [] => None
  | (k, v) :: o' => if decide (k = key) then Some v else property o' key
  end.

Definition monthMap : list (str * str) :=
  [(units "jan", units "01"); (units "feb", units "02");
   (units "mar", units "03"); (units "apr", units "04");
   (units "may", units "05"); (units "jun", units "06");
   (units "jul", units "07"); (units "aug", units "08");
   (units "sep", units "09"); (units "oct", units "10");
   (units "nov", units "11"); (units "dec", units "12")].

(** [s.toLowerCase()] on the letters A to Z; other code units are left as
    they are.  (The engine also lowers letters outside ASCII.  The two that
    become an ASCII letter, U+0130 and U+212A, become an i and a k, which no
    key of [monthMap] holds, and the inherited properties of an object have
    longer names than three code units: the look-up below gives what the
    engine gives.) *)
Definition toLowerCase (s : str) : str :=
  (λ c, if is_upper c then (c + 32)%N else c) <$> s.

(** A value that is a string, [undefined] or [null] counts as true when it
    is a string that is not empty. *)
Definition truthy (v : option str) : bool :=
  match v with
  | Some (_ :: _) => true
  | _ => false
  end.

(** [getMonthNumber(monthName)]; [None] is [null] in the result and
    [undefined] in the argument. *)
Definition getMonthNumber (monthName : option str) : option str :=
  match monthName with
  | Some (c :: name) =>
      let shortMonth := toLowerCase (take 3 (c :: name)) in
      let number := property monthMap shortMonth in
      if truthy number then number else None
  | _ => None
  end.

(** [String(v)] *)
Definition String_ (v : option str) : str :=
  from_option (λ s, s) (units "undefined") v.

(** [s.padStart(targetLength, fill)] for a filler of one code unit *)
Definition padStart (targetLength : nat) (fill : N) (s : str) : str :=
  replicate (targetLength - length s) fill ++ s.

Record Pattern := {
  regex : list Atom;
  monthIndex : nat;
  dayIndex : nat;
  yearIndex : nat;
  isMonthName : bool
}.

Definition patterns : list Pattern :=
  [ (* /(\w+)\s+(\d{1,2}),?\s+(\d{4})/ *)
    {| regex := [one_or_more Word true; one_or_more Space false;
                 between Digit 1 2 true; optional Comma;
                 one_or_more Space false; between Digit 4 4 true];
       monthIndex := 1; dayIndex := 2; yearIndex := 3;
       isMonthName := true |};
    (* /(\d{1,2})[-\s](\w+)[-\s](\d{4})/ *)
    {| regex := [between Digit 1 2 true; once DashOrSpace;
                 one_or_more Word true; once DashOrSpace;
                 between Digit 4 4 true];
       monthIndex := 2; dayIndex := 1; yearIndex := 3;
       isMonthName := true |};
    (* /(\d{4})[/-](\d{1,2})[/-](\d{1,2})/ *)
    {| regex := [between Digit 4 4 true; once SlashOrDash;
                 between Digit 1 2 true; once SlashOrDash;
                 between Digit 1 2 true];
       monthIndex := 2; dayIndex := 3; yearIndex := 1;
       isMonthName := false |};
    (* /(\d{1,2})[/-](\d{1,2})[/-](\d{4})/ *)
    {| regex := [between Digit 1 2 true; once SlashOrDash;
                 between Digit 1 2 true; once SlashOrDash;
                 between Digit 4 4 true];
       monthIndex := 1; dayIndex := 2; yearIndex := 3;
       isMonthName := false |} ]%nat.

(** The loop of [formatSingleDate] over the patterns: the date of the first
    pattern that matches and gives a year, a month and a day. *)
Fixpoint formatSingleDate_loop (patterns : list Pattern)
    (trimmedString : str) : option str :=
  match patterns with
  | [] => None
  | pattern :: later =>
      match exec (regex pattern) trimmedString with
      | Some match_ =>
          let year := match_ !! yearIndex pattern in
          let day :=
            Some (padStart 2 48 (String_ (match_ !! dayIndex pattern))) in
          let month :=
            if isMonthName pattern
            then getMonthNumber (match_ !! monthIndex pattern)
            else Some (padStart 2 48 (String_ (match_ !! monthIndex pattern)))
          in
          if truthy year && truthy month && truthy day
          then Some (String_ year ++ [45%N] ++ String_ month
                       ++ [45%N] ++ String_ day)
          else formatSingleDate_loop later trimmedString
      | None => formatSingleDate_loop later trimmedString
      end
  end.

Definition formatSingleDate (dateString : str) : str :=
  let trimmedString := trim dateString in
  match trimmedString with
  | [] => []
  | _ :: _ =>
      match formatSingleDate_loop patterns trimmedString with
      | Some date => date
      | None => trimmedString ++ units " -> Invalid Format"
      end
  end.

(** [cleanDates]: what is written to [outputText.value], from
    [inputText.value]. *)
Definition cleanDates (inputText_value : str) : str :=
  join [LF] (formatSingleDate <$> split LF inputText_value).

End DateCleaner.

(** * Reading the run *)

(** What the properties below talk about: named views of what the code
    above does. *)

Section PartitionView.
Import JsArray Partitioner.
Context {A : Type}.
Implicit Types (array l c : list A) (chunks cs : list (list A)).

(** What the specification asks of a partition of [l] into batches of
    size [B]. *)
Definition is_partition (B : Z) l cs : Prop :=
  concat cs = l
  ∧ Z.of_nat (length cs) = ceil_div (Z.of_nat (length l)) B
  ∧ (∀ k c, cs !! k = Some c → (S k < length cs)%nat →
       Z.of_nat (length c) = B)
  ∧ (∀ c, last cs = Some c →
       Z.of_nat (length c) =
         if Z.of_nat (length l) mod B =? 0 then B
         else Z.of_nat (length l) mod B).

End PartitionView.

Section HeapView.
Import JsArray Heap.
Context {A : Type}.
Implicit Types (s : Store A) (elems : list (Cell A)) (ls : list loc)
  (cs : list (list (Cell A))).

(** The arrays at the locations [ls] are [cs], and none of them is the
    array [chunks] itself. *)
Definition holds s (chunks : loc) ls cs : Prop :=
  heap s !! chunks = Some (Ref <$> ls)
  ∧ Forall2 (λ l c, heap s !! l = Some c ∧ l ≠ chunks) ls cs.

End HeapView.

Section BatchView.
Import Js Http Number Invalidator.

(** The outcome of one batch, as the specification names it.  A failure is
    reported either with the text of a message taken from the response, or
    as a network error with the message of what was thrown. *)
Inductive Reason :=
| ApiMessage (text : Text)
| NetworkError (thrown : Text).

Inductive BatchOutcome :=
| Succeeded (count : nat)
| Failed (count : nat) (reason : Reason).

Definition count (o : BatchOutcome) : nat :=
  match o with Succeeded n | Failed n _ => n end.

(** [a || b] on values that are already there. *)
Definition or_else (a b : JsValue) : JsValue := if truthy a then a else b.

(** Reading a property of a value that is not [null] or [undefined]. *)
Definition field (v : JsValue) (p : PropName) : JsValue :=
  match v with
  | JObj props => own_property props (prop_key p)
  | _ => JUndefined
  end.

(** The message of a failed batch: the [error] field of the body, else the
    [message] field of its [status] field, else ["HTTP "] and the status
    code; an unreadable body counts as the empty object. *)
Definition fallback_message (r : Response) : JsValue :=
  let errorData := json_or_empty r in
  or_else (field errorData p_error)
    (or_else (field (field errorData p_status) p_message)
       (JStr ("HTTP " +:+ pretty (status r)))).

Definition nullish (v : JsValue) : bool :=
  match v with JUndefined | JNull => true | _ => false end.

Definition classify (batchSize : nat) (outcome : FetchOutcome) : BatchOutcome :=
  match outcome with
  | Rejects reason => Failed batchSize (NetworkError [Lit reason])
  | Resolves r =>
      if (status r =? 200) || (status r =? 204) then Succeeded batchSize
      else if nullish (json_or_empty r) then
        Failed batchSize
          (NetworkError [NullishRead (json_or_empty r) p_error])
      else
        match to_text (fallback_message r) with
        | Some text => Failed batchSize (ApiMessage text)
        | None => Failed batchSize (NetworkError (message not_primitive))
        end
  end.

(** The request that carries a batch. *)
Definition deleteRequest (uToken : JsValue) (appKey : string)
    (batch : list string) : Request :=
  {| endpoint := "https://api.yotpo.com/apps/" +:+ appKey +:+ "/purchases";
     method := "DELETE";
     payload := JObj [("utoken", uToken);
                      ("orders", JArr (ordersPayload batch))] |}.

(** The line an outcome leaves in the log. *)
Definition log_line (batchNumber : nat) (o : BatchOutcome) : Text :=
  match o with
  | Succeeded _ =>
      [Lit "✅ SUCCESS: Batch "; Int (Z.of_nat batchNumber);
       Lit " invalidated successfully."]
  | Failed _ (ApiMessage text) =>
      [Lit "FAILED: Batch "; Int (Z.of_nat batchNumber); Lit " - "] ++ text
  | Failed _ (NetworkError thrown) =>
      [Lit "FAILED: Batch "; Int (Z.of_nat batchNumber);
       Lit " - Network error: "] ++ thrown
  end.

Definition is_failure (o : BatchOutcome) : bool :=
  match o with Succeeded _ => false | Failed _ _ => true end.

(** What one batch with outcome [o] does to the state: its request is sent,
    one line is logged (on the console too when it failed), and the size of
    the batch goes to one of the two counters. *)
Definition record_outcome (req : Request) (batchNumber : nat)
    (o : BatchOutcome) (st : State) : State :=
  {| logOutput := logOutput st ++ [log_line batchNumber o];
     console_error :=
       if is_failure o then console_error st ++ [log_line batchNumber o]
       else console_error st;
     requests := requests st ++ [req];
     ui := ui st;
     isProcessing := isProcessing st;
     totalSuccessCount :=
       if is_failure o then totalSuccessCount st
       else (totalSuccessCount st + count o)%nat;
     totalFailCount :=
       if is_failure o then (totalFailCount st + count o)%nat
       else totalFailCount st;
     processedIdCount := processedIdCount st |}.

End BatchView.

Section LoopView.
Import Js Http Number Invalidator.
Context (uToken : JsValue) (appKey : string) (nChunks totalIds : nat)
  (env : Env).

Definition processing_line (batchNumber : nat) : Text :=
  [Lit "Processing Batch "; Int (Z.of_nat batchNumber);
   Lit "/"; Int (Z.of_nat nChunks); Lit "..."].

(** The outcome of the batch of round [i]. *)
Definition outcome_at (i : nat) (batch : list string) : BatchOutcome :=
  classify (length batch) (batchResponse (round env i)).

(** The state after a round that was not cancelled. *)
Definition after_round (i : nat) (batch : list string) (st : State) : State :=
  let st1 := (logToScreen (processing_line (i + 1)) false st).1 in
  let st2 := record_outcome (deleteRequest uToken appKey batch) (i + 1)
               (outcome_at i batch) st1 in
  let st3 := (add_processedIdCount (length batch) st2).1 in
  (updateProgressUI (processedIdCount st3) totalIds (startTime env)
     (clock (round env i)) st3).1.

(** The state after the rounds for the batches [ran], the first of them being
    round [i]. *)
Fixpoint after_rounds (i : nat) (ran : list (list string)) (st : State)
    : State :=
  match ran with
  | [] => st
  | batch :: ran' => after_rounds (S i) ran' (after_round i batch st)
  end.

(** How many rounds run, from round [i] on with [n] batches left: the rounds
    up to the first one that finds the flag set. *)
Fixpoint rounds_run (i n : nat) : nat :=
  match n with
  | O => O
  | S n' =>
      if isCancelled (round env i) then O else S (rounds_run (S i) n')
  end.

Definition succeeded_count (o : BatchOutcome) : nat :=
  if is_failure o then O else count o.

Definition failed_count (o : BatchOutcome) : nat :=
  if is_failure o then count o else O.

(** The outcomes of the batches [ran], the first of them in round [i]. *)
Fixpoint outcomes (i : nat) (ran : list (list string)) : list BatchOutcome :=
  match ran with
  | [] => []
  | batch :: ran' => outcome_at i batch :: outcomes (S i) ran'
  end.

(** [processedIdCount = totalSuccessCount + totalFailCount] *)
Definition counters_agree (st : State) : Prop :=
  processedIdCount st = (totalSuccessCount st + totalFailCount st)%nat.

End LoopView.

Section CredentialView.
Import Js Http Number Invalidator.

Definition tokenRequest (appKey secretKey : string) : Request :=
  {| endpoint := "https://api.yotpo.com/oauth/token";
     method := "POST";
     payload := JObj [("grant_type", JStr "client_credentials");
                      ("client_id", JStr appKey);
                      ("client_secret", JStr secretKey)] |}.

(** How the exchange ends, read off the answer: the error that is raised, or
    the token. *)
Definition token_result (outcome : FetchOutcome) : JsError + JsValue :=
  match outcome with
  | Rejects reason => inl {| message := [Lit reason] |}
  | Resolves r =>
      match body r with
      | BodyInvalid reason => inl {| message := [Lit reason] |}
      | BodyJson data =>
          if negb (ok r) then
            if nullish data then
              inl {| message := [NullishRead data p_error_description] |}
            else
              match to_text (or_else (field data p_error_description)
                               (JStr (statusText r))) with
              | Some cause =>
                  inl {| message := Lit "Token generation failed: " :: cause |}
              | None => inl not_primitive
              end
          else if nullish data then
            inl {| message := [NullishRead data p_access_token] |}
          else if truthy (field data p_access_token) then
            inr (field data p_access_token)
          else
            inl {| message :=
                     [Lit "Token not found in authentication response."] |}
      end
  end.

(** The state once the request for the token is out. *)
Definition token_requested (appKey secretKey : string) (st : State) : State :=
  with_request (tokenRequest appKey secretKey)
    (logToScreen [Lit "Step 1: Generating uToken..."] false st).1.

End CredentialView.

Section RunView.
Import Js Http Number Partitioner Invalidator.
Context (uToken : JsValue) (appKey : string) (env : Env).

(** The state in which the loop starts: the first line of step 2 is logged
    and the three counters are zero. *)
Definition loop_start (allOrderIds : list string) (st : State) : State :=
  set_counters 0 0 0
    (logToScreen
       [Lit "Step 2: Starting invalidation for ";
        Int (Z.of_nat (length allOrderIds));
        Lit " orders in batches of "; Int BATCH_SIZE; Lit "..."] false st).1.

(** The state in which the loop over [chunks] ends, started in [st]. *)
Definition loop_end (totalIds : nat) (chunks : list (list string))
    (st : State) : State :=
  let k := rounds_run env 0 (length chunks) in
  let st' := after_rounds uToken appKey (length chunks) totalIds env 0
               (take k chunks) st in
  if (k <? length chunks)%nat
  then (logToScreen [Lit "Process cancelled by user."] true st').1
  else st'.

Definition summary_line (st : State) : Text :=
  [Lit "Summary: "; Int (Z.of_nat (totalSuccessCount st));
   Lit " succeeded, "; Int (Z.of_nat (totalFailCount st)); Lit " failed."].

Definition total_time_line : Text :=
  [Lit "Total time: ";
   ToFixed (div (sub (of_Z (endTime env)) (of_Z (startTime env)))
              (of_Z 1000)) 2;
   Lit " seconds."].

(** The three closing lines are logged. *)
Definition summarised (st : State) : State :=
  (logToScreen total_time_line false
     (logToScreen (summary_line st) false
        (logToScreen [Lit "--- PROCESSING COMPLETE ---"] false st).1).1).1.

End RunView.

Section BatchSamples.
Import Js Http Number Invalidator.

Definition no_content : Response :=
  {| status := 204; statusText := "No Content";
     body := BodyInvalid "Unexpected end of JSON input" |}.

Definition rate_limited : Response :=
  {| status := 500; statusText := "Internal Server Error";
     body := BodyJson (JObj [("error", JStr "rate limited")]) |}.

Definition server_error_empty : Response :=
  {| status := 500; statusText := "Internal Server Error";
     body := BodyJson (JObj []) |}.

(** A failure whose [error] field has no text: the object has a [toString]
    of its own. *)
Definition no_text_error : Response :=
  {| status := 500; statusText := "Internal Server Error";
     body := BodyJson (JObj [("error", JObj [("toString", JNum (of_Z 0))])]) |}.

(** The message the specification describes: as [fallback_message], but with
    the status text of the response as the last resort. *)
Definition fallback_message_spec (r : Response) : JsValue :=
  let errorData := json_or_empty r in
  or_else (field errorData p_error)
    (or_else (field (field errorData p_status) p_message)
       (JStr (statusText r))).

End BatchSamples.

Section LoopSamples.
Import Js Http Number Invalidator.

Definition every_request_fails : Env :=
  {| tokenResponse :=
       Resolves {| status := 200; statusText := "OK";
                   body := BodyJson (JObj [("access_token", JStr "tok")]) |};
     startTime := 1000;
     round := λ i, {| isCancelled := false;
                      batchResponse :=
                        match i with
                        | O => Rejects "Failed to fetch"
                        | 1%nat =>
                            Resolves {| status := 502;
                                        statusText := "Bad Gateway";
                                        body := BodyInvalid "Unexpected token" |}
                        | _ => Resolves {| status := 500;
                                           statusText := "";
                                           body := BodyJson JNull |}
                        end;
                      clock := 1000 + 600 * Z.of_nat (S i) |};
     endTime := 4000 |}.

Definition cancelled_after_first : Env :=
  {| tokenResponse := Resolves no_content;
     startTime := 1000;
     round := λ i, {| isCancelled := (1 <=? i)%nat;
                      batchResponse := Resolves no_content;
                      clock := 1600 |};
     endTime := 2200 |}.

End LoopSamples.

Section DiagnosticSamples.
Import Js Http Number Invalidator.

Definition every_batch_rate_limited : Env :=
  {| tokenResponse :=
       Resolves {| status := 200; statusText := "OK";
                   body := BodyJson (JObj [("access_token", JStr "tok")]) |};
     startTime := 1000;
     round := λ i, {| isCancelled := false;
                      batchResponse := Resolves rate_limited;
                      clock := 1600 |};
     endTime := 2200 |}.

End DiagnosticSamples.

Section CredentialSamples.
Import Js Http Number Invalidator.

(** The ways the exchange can fail: the request does not complete, the
    status is not a success status, or the answer holds no token (its body
    cannot be parsed, or the [access_token] of the parsed body is missing or
    empty). *)
Definition exchange_fails (outcome : FetchOutcome) : Prop :=
  match outcome with
  | Rejects _ => True
  | Resolves r =>
      ok r = false
      ∨ match body r with
        | BodyJson data => truthy (field data p_access_token) = false
        | BodyInvalid _ => True
        end
  end.

Definition ok_without_token : Response :=
  {| status := 200; statusText := "OK";
     body := BodyJson
               (JObj [("error_description", JStr "client is suspended")]) |}.

Definition unauthorized : Response :=
  {| status := 401; statusText := "Unauthorized";
     body := BodyJson
               (JObj [("error_description", JStr "invalid client secret")]) |}.

End CredentialSamples.

Section ProgressView.
Import Js Http Number Invalidator.

Definition is_zero (x : spec_float) : bool :=
  match x with S754_zero _ => true | _ => false end.

(** The number that a double stands for (zero for an infinity and for what
    is not a number). *)
Definition value (x : spec_float) : Q :=
  match x with
  | S754_finite s m e => (inject_Z (cond_Zopp s (Zpos m)) * Qpower 2 e)%Q
  | _ => 0%Q
  end.

(** The nearest integer, a half going upwards. *)
Definition nearest (x : Q) : Z := Qfloor (x + (1 # 2))%Q.

(** A whole number of seconds, as minutes (when there are any) and
    seconds. *)
Definition shown (n : Z) : Text :=
  (if 0 <? n / 60 then [Num (of_Z (n / 60)); Lit "m "] else [])
  ++ [Num (of_Z (n mod 60)); Lit "s"].

(** The double [S754_finite false m e] stands for the integer [n]. *)
Definition stands_for (m : positive) (e n : Z) : Prop :=
  -52 ≤ e ∧ Zpos m * 2 ^ (e + 52) = n * 2 ^ 52.

End ProgressView.

Section WholeRunView.
Import Js Http Number Partitioner Invalidator.

(** The [finally] block of [startInvalidationProcess]. *)
Definition finished (st : State) : State :=
  (write_ui (invalidateBtn_disabled true)
     (write_ui (invalidateBtn_textContent "Finished")
        (set_isProcessing false st).1).1).1.

(** The [catch] block of [startInvalidationProcess], for the error [e]. *)
Definition stopped (e : JsError) (st : State) : State :=
  (logToScreen
     [Lit "Process stopped. Please check credentials and try again."] false
     (logToScreen (Lit "❌ CRITICAL ERROR: " :: message e) true st).1).1.

(** The last line of [generateUToken]'s log. *)
Definition token_obtained (st : State) : State :=
  (logToScreen [Lit "✅ Step 1: Success! uToken generated."] false st).1.

(** The state in which a run that was started ends: what step 1 and, with a
    token, step 2 leave, and then the [finally] block. *)
Definition run_end (appKey secretKey : string) (allOrderIds : list string)
    (orderIdChunks : list (list string)) (env : Env) (st : State) : State :=
  let st1 :=
    token_requested appKey secretKey
      (setupUIForProcessing (length allOrderIds) st).1 in
  finished
    match token_result (tokenResponse env) with
    | inl e => stopped e st1
    | inr uToken =>
        summarised env
          (loop_end uToken appKey env (length allOrderIds) orderIdChunks
             (loop_start allOrderIds (token_obtained st1)))
    end.

(** Reading the identifiers back from the body of a request: the
    [order_id]s of its [orders], in order. *)
Definition order_id_of (item : JsValue) : option string :=
  match item with
  | JObj props =>
      match own_property props "order_id" with
      | JStr id => Some id
      | _ => None
      end
  | _ => None
  end.

Definition orders_of (req : Request) : list string :=
  match payload req with
  | JObj props =>
      match own_property props "orders" with
      | JArr items => omap order_id_of items
      | _ => []
      end
  | _ => []
  end.

(** All identifiers that went out in a list of requests. *)
Definition sent_ids (reqs : list Request) : list string :=
  concat (orders_of <$> reqs).

(** The start is refused: a field is empty. *)
Definition start_refused (appKey secretKey : string)
    (allOrderIds : list string) : bool :=
  (length allOrderIds =? 0)%nat || String.eqb appKey ""
  || String.eqb secretKey "".

(** The state [st] with other requests on record. *)
Definition with_requests (reqs : list Request) (st : State) : State :=
  {| logOutput := logOutput st; console_error := console_error st;
     requests := reqs; ui := ui st; isProcessing := isProcessing st;
     totalSuccessCount := totalSuccessCount st;
     totalFailCount := totalFailCount st;
     processedIdCount := processedIdCount st |}.

(** A step of the run that treats the requests on record as a record only:
    whatever they are, it does the same to everything else. *)
Definition blind_to_requests (step : State → State) : Prop :=
  ∀ reqs st, ∃ reqs', step (with_requests reqs st)
                      = with_requests reqs' (step st).

End WholeRunView.

Section StringView.
Import JsString.

(** A string has ink when one of its code units is not white space. *)
Definition has_ink (s : str) : bool :=
  existsb (λ c, negb (is_white_space c)) s.

(** ['\r'].  A text field hands back every line break of its text as a
    newline, so that a text with a carriage return in it is not read back
    as it was written. *)
Definition CR : N := 13.

(** White space neither at the start nor at the end. *)
Definition trimmed (s : str) : Prop :=
  (∀ c, head s = Some c → is_white_space c = false)
  ∧ (∀ c, last s = Some c → is_white_space c = false).

End StringView.

(** ** Reading the dates *)

Section DateView.
Import JsString DateCleaner.

(** Two code units that the expressions cannot tell apart. *)
Definition same_classes (c c' : N) : Prop :=
  ∀ k, in_class k c = in_class k c'.

Definition digits (s : str) : Prop := Forall (λ c, is_digit c = true) s.

(** [yyyy-mm-dd]: ten code units, all digits but the two dashes. *)
Definition iso_date (s : str) : bool :=
  match s with
  | [y1; y2; y3; y4; dash; m1; m2; dash'; d1; d2] =>
      forallb is_digit [y1; y2; y3; y4; m1; m2; d1; d2]
      && (dash =? 45)%N && (dash' =? 45)%N
  | _ => false
  end.

(** A span of [s] is text that an atom can take. *)
Definition fits (a : Atom) (s : str) (g : nat * nat) : Prop :=
  (at_least a ≤ g.2)%nat
  ∧ (∀ m, at_most a = Some m → g.2 ≤ m)%nat
  ∧ (g.1 + g.2 ≤ length s)%nat
  ∧ Forall (λ c, in_class (class a) c = true) (span s g).

(** The spans of the groups, one for each atom that is captured. *)
Fixpoint groups_fit (atoms : list Atom) (s : str) (groups : list (nat * nat))
    : Prop :=
  match atoms with
  | [] => groups = []
  | a :: rest =>
      if captured a
      then match groups with
           | g :: groups' => fits a s g ∧ groups_fit rest s groups'
           | [] => False
           end
      else groups_fit rest s groups
  end.




End DateView.

(** * Properties *)

(** ** The partitioner *)

Section PartitionerFacts.
Import JsArray Partitioner.
Context {A : Type}.
Implicit Types (array l c : list A) (chunks cs : list (list A)).

Lemma slice_window array (i size : Z) :
  0 ≤ i → 0 < size →
  slice array i (i + size)
  = take (Z.to_nat size) (drop (Z.to_nat i) array).
Proof.
  intros Hi Hs. unfold slice, relative_index.
  destruct (Z.ltb_spec i 0) as [|_]; [lia|].
  destruct (Z.ltb_spec (i + size) 0) as [|_]; [lia|].
  set (len := Z.of_nat (length array)).
  destruct (Z.le_gt_cases len i) as [Hge|Hlt].
  - rewrite !drop_ge by (subst len; lia). by rewrite !take_nil.
  - rewrite (Z.min_l i len) by lia.
    destruct (Z.le_gt_cases (i + size) len) as [Hin|Hout].
    + rewrite Z.min_l by lia. f_equal. lia.
    + rewrite Z.min_r by lia.
      rewrite !take_ge; [done | |]; rewrite length_drop; subst len; lia.
Qed.

Lemma ceil_div_nonpos (B : Z) : 0 < B → ceil_div 0 B = 0.
Proof. intros HB. unfold ceil_div. apply Z.div_small. lia. Qed.

Lemma ceil_div_step (n B : Z) :
  0 < B → B < n → ceil_div n B = 1 + ceil_div (n - B) B.
Proof.
  intros HB Hn. unfold ceil_div.
  replace (n + B - 1) with ((n - B + B - 1) + 1 * B) by lia.
  rewrite Z.div_add by lia. lia.
Qed.

Lemma ceil_div_one (n B : Z) : 0 < n → n ≤ B → ceil_div n B = 1.
Proof.
  intros Hn HB. unfold ceil_div.
  replace (n + B - 1) with ((n - 1) + 1 * B) by lia.
  rewrite Z.div_add by lia. rewrite Z.div_small by lia. lia.
Qed.

Lemma ceil_div_pos (n B : Z) : 0 < B → 0 < n → 0 < ceil_div n B.
Proof.
  intros HB Hn. unfold ceil_div.
  apply Z.div_str_pos. lia.
Qed.

Lemma is_partition_nil (B : Z) : 0 < B → is_partition (A:=A) B [] [].
Proof.
  intros HB. repeat split; simpl.
  - by rewrite ceil_div_nonpos.
  - intros k c Hk. by rewrite lookup_nil in Hk.
  - intros c Hc. discriminate.
Qed.

(** One round of the loop: the first batch is [take B l], the others
    partition what is left. *)
Lemma is_partition_cons (B : Z) l cs :
  0 < B → l ≠ [] →
  is_partition B (drop (Z.to_nat B) l) cs →
  is_partition B l (take (Z.to_nat B) l :: cs).
Proof.
  intros HB Hl (Hcat & Hlen & Hfull & Hlast).
  assert (0 < Z.of_nat (length l)) as Hpos.
  { destruct l; [done | simpl; lia]. }
  rewrite length_drop in Hlen, Hlast.
  destruct (Z.le_gt_cases (Z.of_nat (length l)) B) as [Hsmall|Hbig].
  - (* the remainder fits in one batch *)
    assert (cs = []) as ->.
    { replace (Z.of_nat (length l - Z.to_nat B)) with 0 in Hlen by lia.
      rewrite ceil_div_nonpos in Hlen by done.
      destruct cs; [done | simpl in Hlen; lia]. }
    rewrite take_ge by lia.
    repeat split; simpl.
    + by rewrite app_nil_r.
    + by rewrite ceil_div_one.
    + intros k c _ ?. lia.
    + intros c [= <-].
      destruct (Z.eq_dec (Z.of_nat (length l)) B) as [->|Hne].
      * rewrite Z_mod_same_full. done.
      * rewrite Z.mod_small by lia.
        destruct (Z.eqb_spec (Z.of_nat (length l)) 0); lia.
  - (* a full batch, and more to come *)
    replace (Z.of_nat (length l - Z.to_nat B))
      with (Z.of_nat (length l) - B) in Hlen, Hlast by lia.
    assert (cs ≠ []) as Hcs.
    { intros ->. simpl in Hlen.
      pose proof (ceil_div_pos (Z.of_nat (length l) - B) B). lia. }
    repeat split.
    + simpl. rewrite Hcat. apply take_drop.
    + simpl length. rewrite (ceil_div_step _ B) by lia. lia.
    + intros [|k] c Hk Hlt; simpl in Hk.
      * injection Hk as <-. rewrite length_take. lia.
      * apply (Hfull k); [done | simpl in Hlt; lia].
    + intros c Hc. destruct cs as [|c' cs']; [done|].
      rewrite last_cons_cons in Hc. rewrite (Hlast c Hc).
      replace (Z.of_nat (length l) - B)
        with (Z.of_nat (length l) + (-1) * B) by lia.
      by rewrite Z.mod_add by lia.
Qed.

(** The loop invariant: with enough fuel for what is left of the array, the
    loop returns what it was given followed by a partition of the rest. *)
Lemma chunkArray_loop_partition (fuel : nat) array (size i : Z) chunks :
  0 < size → 0 ≤ i →
  Z.of_nat (length array) - i ≤ Z.of_nat fuel →
  ∃ rest,
    chunkArray_loop fuel array size i chunks = Some (chunks ++ rest)
    ∧ is_partition size (drop (Z.to_nat i) array) rest.
Proof.
  intros Hs. revert i chunks.
  induction fuel as [|fuel IH]; intros i chunks Hi Hfuel.
  - exists []. simpl.
    destruct (Z.ltb_spec i (Z.of_nat (length array))); [lia|].
    rewrite app_nil_r, drop_ge by lia. eauto using is_partition_nil.
  - simpl. destruct (Z.ltb_spec i (Z.of_nat (length array))) as [Hlt|Hge].
    + destruct (IH (i + size) (push chunks (slice array i (i + size))))
        as (rest & Hrun & Hpart); [lia | lia |].
      exists (slice array i (i + size) :: rest). split.
      * rewrite Hrun. unfold push. by rewrite <-app_assoc.
      * rewrite slice_window by lia.
        apply is_partition_cons; [done | |].
        -- intros Hnil. apply (f_equal length) in Hnil.
           rewrite length_drop in Hnil. simpl in Hnil. lia.
        -- rewrite drop_drop.
           by replace (Z.to_nat i + Z.to_nat size)%nat
             with (Z.to_nat (i + size)) by lia.
    + exists []. rewrite app_nil_r, drop_ge by lia.
      eauto using is_partition_nil.
Qed.

(** With a positive size, one round of fuel per element is enough. *)
Lemma chunkArray_returns (fuel : nat) array (size : Z) :
  0 < size → (length array ≤ fuel)%nat →
  ∃ chunks,
    chunkArray fuel array size = Some chunks ∧ is_partition size array chunks.
Proof.
  intros Hs Hfuel.
  destruct (chunkArray_loop_partition fuel array size 0 [] Hs) as
    (chunks & Hrun & Hpart); [lia | lia |].
  exists chunks. by split.
Qed.

End PartitionerFacts.

Section PartitionerNonPositive.
Import JsArray Partitioner.
Context {A : Type}.

(** With a size that is not positive the loop variable never moves forward,
    so on an array that is not empty the loop never ends. *)
Lemma chunkArray_loop_nonpositive (fuel : nat) (array : list A) (size i : Z)
    (chunks : list (list A)) :
  size ≤ 0 → i ≤ 0 → array ≠ [] →
  chunkArray_loop fuel array size i chunks = None.
Proof.
  intros Hs Hi Hne. revert i chunks Hi.
  assert (0 < Z.of_nat (length array)) as Hlen.
  { destruct array; [done | simpl; lia]. }
  induction fuel as [|fuel IH]; intros i chunks Hi; simpl;
    destruct (Z.ltb_spec i (Z.of_nat (length array))); try lia; [done|].
  apply IH. lia.
Qed.

End PartitionerNonPositive.

(** ** The partitioner on the heap *)

Section HeapFacts.
Import JsArray Heap.
Context {A : Type}.
Implicit Types (s : Store A) (elems : list (Cell A)) (ls : list loc)
  (cs : list (list (Cell A))).

Lemma holds_contents s chunks ls cs :
  holds s chunks ls cs → contents s chunks = Some cs.
Proof.
  intros [Hchunks Hall]. unfold contents. rewrite Hchunks. clear Hchunks.
  induction Hall as [|l c ls cs [Hl _] _ IH]; [done|].
  rewrite fmap_cons. cbn [read_all]. by rewrite Hl, IH.
Qed.

(** One round on the heap: a new array for the slice, and its reference
    pushed on [chunks]. *)
Lemma holds_push s array chunks elems ls cs (piece_elems : list (Cell A)) :
  heap s !! array = Some elems → array ≠ chunks →
  holds s chunks ls cs →
  let s' := array_push chunks (Ref (length (heap s)))
              (alloc piece_elems s).1 in
  heap s' !! array = Some elems
  ∧ holds s' chunks (ls ++ [length (heap s)]) (push cs piece_elems)
  ∧ length (heap s') = S (length (heap s))
  ∧ world s' = world s
  ∧ (∀ l, l ≠ chunks → (l < length (heap s))%nat →
       heap s' !! l = heap s !! l).
Proof.
  intros Harr Hne [Hchunks Hall]. unfold holds. simpl.
  assert (chunks < length (heap s))%nat as Hlt
    by (eapply lookup_lt_Some; eauto).
  assert (∀ l, l ≠ chunks → (l < length (heap s))%nat →
            alter (λ elems0, push elems0 (Ref (length (heap s)))) chunks
              (heap s ++ [piece_elems]) !! l = heap s !! l) as Hframe.
  { intros l Hl Hin. rewrite list_lookup_alter_ne by lia.
    by rewrite lookup_app_l. }
  split; [|split; [split|split; [|split]]].
  - rewrite Hframe; [done..|]. eapply lookup_lt_Some; eauto.
  - rewrite list_lookup_alter_eq, lookup_app_l, Hchunks by done. simpl.
    unfold push. by rewrite fmap_app.
  - unfold push. apply Forall2_app.
    + eapply Forall2_impl; [exact Hall|]. intros l c [Hl Hlc]. split; [|done].
      rewrite Hframe; [done..|]. eapply lookup_lt_Some; eauto.
    + constructor; [|constructor]. split; [|lia].
      rewrite list_lookup_alter_ne by lia.
      rewrite lookup_app_r by lia. by rewrite Nat.sub_diag.
  - rewrite length_alter, length_app. simpl. lia.
  - done.
  - done.
Qed.

(** The loop on the heap does what the loop on lists does: it ends exactly
    when that one ends, [chunks] then holds references to arrays with the
    same elements, and no other array that was there before has changed. *)
Lemma heap_loop_refines (fuel : nat) s array chunks elems (size i : Z) ls cs :
  heap s !! array = Some elems → array ≠ chunks →
  holds s chunks ls cs →
  match Partitioner.chunkArray_loop fuel elems size i cs with
  | None => chunkArray_loop fuel array size i chunks s = None
  | Some cs' =>
      ∃ s' ls',
        chunkArray_loop fuel array size i chunks s = Some s'
        ∧ holds s' chunks ls' cs'
        ∧ world s' = world s
        ∧ (∀ l, l ≠ chunks → (l < length (heap s))%nat →
             heap s' !! l = heap s !! l)
  end.
Proof.
  revert s i ls cs.
  induction fuel as [|fuel IH]; intros s i ls cs Harr Hne Hholds; simpl;
    rewrite Harr; destruct (i <? Z.of_nat (length elems)); try done.
  - exists s, ls. eauto.
  - destruct (holds_push s array chunks elems ls cs
                (slice elems i (i + size)) Harr Hne Hholds)
      as (Harr' & Hholds' & Hlen' & Hworld' & Hframe').
    specialize (IH _ (i + size) _ _ Harr' Hne Hholds').
    simpl in *.
    destruct (Partitioner.chunkArray_loop fuel elems size (i + size) _)
      as [cs'|]; [|done].
    destruct IH as (s' & ls' & Hrun & Hholds'' & Hworld'' & Hframe'').
    exists s', ls'. split; [done|]. split; [done|]. split; [done|].
    intros l Hl Hin. rewrite Hframe''; [by apply Hframe' | done |].
    rewrite Hlen'. lia.
  - exists s, ls. eauto.
Qed.

Lemma heap_chunkArray_refines (fuel : nat) s array elems (size : Z) :
  heap s !! array = Some elems →
  match Partitioner.chunkArray fuel elems size with
  | None => chunkArray fuel array size s = None
  | Some cs =>
      ∃ s' chunks,
        chunkArray fuel array size s = Some (s', chunks)
        ∧ contents s' chunks = Some cs
        ∧ world s' = world s
        ∧ (length (heap s) ≤ chunks)%nat
        ∧ (∀ l, (l < length (heap s))%nat → heap s' !! l = heap s !! l)
  end.
Proof.
  intros Harr. unfold chunkArray, Partitioner.chunkArray. simpl.
  assert (array < length (heap s))%nat as Hlt
    by (eapply lookup_lt_Some; eauto).
  pose proof (heap_loop_refines fuel
                {| heap := heap s ++ [[]]; world := world s |}
                array (length (heap s)) elems size 0 [] []) as H.
  simpl in H.
  destruct (Partitioner.chunkArray_loop fuel elems size 0 []) as [cs|].
  - destruct H as (s' & ls' & Hrun & Hholds & Hworld & Hframe).
    + by rewrite lookup_app_l.
    + lia.
    + split; [|constructor]. simpl.
      rewrite lookup_app_r by lia. by rewrite Nat.sub_diag.
    + exists s', (length (heap s)). rewrite Hrun.
      repeat split; eauto using holds_contents.
      intros l Hl. rewrite Hframe; [|lia|rewrite length_app; simpl; lia].
      by rewrite lookup_app_l.
  - rewrite H; [done| |lia|].
    + by rewrite lookup_app_l.
    + split; [|constructor]. simpl.
      rewrite lookup_app_r by lia. by rewrite Nat.sub_diag.
Qed.

(** Reading back depends only on the arrays that are read. *)
Lemma read_all_frame (h1 h2 : list (list (Cell A))) (cells : list (Cell A))
    cs :
  (∀ l, (l < length h1)%nat → h2 !! l = h1 !! l) →
  read_all h1 cells = Some cs → read_all h2 cells = Some cs.
Proof.
  intros Hframe. revert cs.
  induction cells as [|[a|l] cells IH]; intros cs; cbn [read_all];
    [done..|].
  destruct (h1 !! l) as [elems|] eqn:Hl; [|done].
  destruct (read_all h1 cells) as [rest|]; [|done].
  intros [= <-]. rewrite Hframe, Hl by (by eapply lookup_lt_Some).
  by rewrite (IH rest).
Qed.

Lemma contents_frame s1 s2 (chunks : loc) cs :
  (∀ l, (l < length (heap s1))%nat → heap s2 !! l = heap s1 !! l) →
  contents s1 chunks = Some cs → contents s2 chunks = Some cs.
Proof.
  intros Hframe. unfold contents.
  destruct (heap s1 !! chunks) as [cells|] eqn:Hc; [|done].
  rewrite Hframe, Hc by (by eapply lookup_lt_Some).
  by apply read_all_frame.
Qed.

End HeapFacts.

(** ** One batch *)

Section BatchFacts.
Import Js Http Number Invalidator.

Lemma get_field (v : JsValue) (p : PropName) :
  nullish v = false → get v p = Normal (field v p).
Proof. by destruct v. Qed.

Lemma get_optional_field (v : JsValue) (p : PropName) :
  get_optional v p = Normal (field v p).
Proof. by destruct v. Qed.

(** The [try]/[catch] statement always completes normally, and does to the
    state what [classify] says. *)
Lemma executeBatch_outcome (uToken : JsValue) (appKey : string)
    (batchNumber : nat) (batch : list string) (outcome : FetchOutcome)
    (st : State) :
  executeBatch uToken appKey batchNumber batch outcome st
  = (record_outcome (deleteRequest uToken appKey batch) batchNumber
       (classify (length batch) outcome) st,
     Normal tt).
Proof.
  unfold executeBatch, try_catch, bind, fetch, classify.
  destruct outcome as [r|reason]; [|done].
  destruct ((status r =? 200) || (status r =? 204)); [done|].
  unfold fallback_message.
  destruct (nullish (json_or_empty r)) eqn:Hnull.
  { by destruct (json_or_empty r). }
  rewrite !(get_field _ _ Hnull).
  unfold or_else, ret, lift, ToString. cbv beta iota.
  destruct (truthy (field (json_or_empty r) p_error)).
  - by destruct (to_text _).
  - rewrite ?(get_field _ _ Hnull). cbv beta iota.
    rewrite get_optional_field. cbv beta iota.
    destruct (truthy (field (field (json_or_empty r) p_status) p_message));
      by destruct (to_text _).
Qed.

Lemma classify_count (batchSize : nat) (outcome : FetchOutcome) :
  count (classify batchSize outcome) = batchSize.
Proof.
  unfold classify. destruct outcome as [r|reason]; [|done].
  destruct ((status r =? 200) || (status r =? 204)); [done|].
  destruct (nullish (json_or_empty r)); [done|]. by destruct (to_text _).
Qed.

End BatchFacts.

(** ** The batch loop *)

Section LoopFacts.
Import Js Http Number Invalidator.
Context (uToken : JsValue) (appKey : string) (nChunks totalIds : nat)
  (env : Env).

Lemma updateProgressUI_normal (current total : nat) (start now : Z)
    (st : State) :
  (updateProgressUI current total start now st).2 = Normal tt.
Proof. reflexivity. Qed.

Lemma batchLoop_running (i : nat) (batch : list string)
    (rest : list (list string)) (st : State) :
  isCancelled (round env i) = false →
  batchLoop uToken appKey nChunks totalIds env i (batch :: rest) st
  = batchLoop uToken appKey nChunks totalIds env (S i) rest
      (after_round uToken appKey nChunks totalIds env i batch st).
Proof.
  intros Hrun. cbn [batchLoop]. rewrite Hrun.
  unfold bind at 1. cbn [logToScreen modify].
  unfold bind at 1. rewrite executeBatch_outcome.
  unfold bind at 1. cbn [add_processedIdCount modify].
  unfold bind at 1. cbn [get_state].
  unfold bind at 1.
  match goal with
  | |- context [updateProgressUI ?c ?t ?s ?n ?st0] =>
      destruct (updateProgressUI c t s n st0) as [st' r] eqn:Hui;
      pose proof (updateProgressUI_normal c t s n st0) as Hn;
      rewrite Hui in Hn; simpl in Hn; subst r
  end.
  unfold after_round, outcome_at, processing_line.
  cbn [logToScreen add_processedIdCount modify fst].
  by rewrite Hui.
Qed.

Lemma batchLoop_cancelled (i : nat) (batch : list string)
    (rest : list (list string)) (st : State) :
  isCancelled (round env i) = true →
  batchLoop uToken appKey nChunks totalIds env i (batch :: rest) st
  = logToScreen [Lit "Process cancelled by user."] true st.
Proof. intros Hc. cbn [batchLoop]. by rewrite Hc. Qed.

(** The loop passes through the states [after_rounds] gives, for as long as
    the flag is not set. *)
Lemma batchLoop_prefix (i : nat) (ran rest : list (list string)) (st : State) :
  (∀ j, (j < length ran)%nat → isCancelled (round env (i + j)) = false) →
  batchLoop uToken appKey nChunks totalIds env i (ran ++ rest) st
  = batchLoop uToken appKey nChunks totalIds env (i + length ran) rest
      (after_rounds uToken appKey nChunks totalIds env i ran st).
Proof.
  revert i st. induction ran as [|batch ran IH]; intros i st Hrun.
  - simpl. by rewrite Nat.add_0_r.
  - simpl app. rewrite batchLoop_running.
    + rewrite IH.
      * simpl. by replace (i + S (length ran))%nat
          with (S (i + length ran)) by lia.
      * intros j Hj. replace (S i + j)%nat with (i + S j)%nat by lia.
        apply Hrun. simpl. lia.
    + specialize (Hrun O). rewrite Nat.add_0_r in Hrun.
      apply Hrun. simpl. lia.
Qed.

Lemma rounds_run_le (i n : nat) : (rounds_run env i n ≤ n)%nat.
Proof.
  revert i. induction n as [|n IH]; intros i; simpl; [lia|].
  destruct (isCancelled (round env i)); [lia|]. specialize (IH (S i)). lia.
Qed.

Lemma rounds_run_before (i n j : nat) :
  (j < rounds_run env i n)%nat → isCancelled (round env (i + j)) = false.
Proof.
  revert i j. induction n as [|n IH]; intros i j; simpl; [lia|].
  destruct (isCancelled (round env i)) eqn:Hc; [lia|].
  destruct j as [|j]; [by rewrite Nat.add_0_r|].
  intros Hj. replace (i + S j)%nat with (S i + j)%nat by lia.
  apply IH. lia.
Qed.

Lemma rounds_run_stop (i n : nat) :
  (rounds_run env i n < n)%nat →
  isCancelled (round env (i + rounds_run env i n)) = true.
Proof.
  revert i. induction n as [|n IH]; intros i; simpl; [lia|].
  destruct (isCancelled (round env i)) eqn:Hc.
  - by rewrite Nat.add_0_r.
  - intros Hlt. replace (i + S (rounds_run env (S i) n))%nat
      with (S i + rounds_run env (S i) n)%nat by lia.
    apply IH. lia.
Qed.

(** The number of rounds is fixed by where the flag is first found set. *)
Lemma rounds_run_first (n k : nat) :
  (k ≤ n)%nat →
  (∀ j, (j < k)%nat → isCancelled (round env j) = false) →
  ((k < n)%nat → isCancelled (round env k) = true) →
  rounds_run env 0 n = k.
Proof.
  intros Hk Hbefore Hat.
  pose proof (rounds_run_le 0 n) as Hle.
  destruct (Nat.lt_trichotomy (rounds_run env 0 n) k) as [Hlt|[Heq|Hgt]];
    [|done|].
  - pose proof (rounds_run_stop 0 n ltac:(lia)) as Hstop. simpl in Hstop.
    rewrite Hbefore in Hstop by done. done.
  - pose proof (rounds_run_before 0 n k Hgt) as Hrun. simpl in Hrun.
    rewrite Hat in Hrun by lia. done.
Qed.

(** The whole loop: the rounds before the first set flag run, one after the
    other; if batches are left then, the cancellation is logged. *)
Lemma batchLoop_run (i : nat) (chunks : list (list string)) (st : State) :
  let k := rounds_run env i (length chunks) in
  let st' := after_rounds uToken appKey nChunks totalIds env i (take k chunks) st in
  batchLoop uToken appKey nChunks totalIds env i chunks st
  = if (k <? length chunks)%nat
    then logToScreen [Lit "Process cancelled by user."] true st'
    else (st', Normal tt).
Proof.
  intros k st'. subst st'.
  pose proof (rounds_run_le i (length chunks)) as Hle. fold k in Hle.
  rewrite <-(take_drop k chunks) at 1.
  rewrite batchLoop_prefix.
  - rewrite length_take, Nat.min_l by done.
    destruct (Nat.ltb_spec k (length chunks)) as [Hlt|Hge].
    + destruct (drop k chunks) as [|batch rest] eqn:Hdrop.
      { apply (f_equal length) in Hdrop. rewrite length_drop in Hdrop.
        simpl in Hdrop. lia. }
      apply batchLoop_cancelled. by apply rounds_run_stop.
    + by rewrite drop_ge by done.
  - intros j Hj. rewrite length_take in Hj.
    apply (rounds_run_before i (length chunks)). fold k. lia.
Qed.

(** *** The counters over the rounds *)

Lemma after_round_requests i batch st :
  requests (after_round uToken appKey nChunks totalIds env i batch st)
  = requests st ++ [deleteRequest uToken appKey batch].
Proof. reflexivity. Qed.

Lemma after_round_success i batch st :
  totalSuccessCount (after_round uToken appKey nChunks totalIds env i batch st)
  = (totalSuccessCount st + succeeded_count (outcome_at env i batch))%nat.
Proof.
  unfold after_round, succeeded_count. cbn.
  destruct (is_failure (outcome_at env i batch)); lia.
Qed.

Lemma after_round_fail i batch st :
  totalFailCount (after_round uToken appKey nChunks totalIds env i batch st)
  = (totalFailCount st + failed_count (outcome_at env i batch))%nat.
Proof.
  unfold after_round, failed_count. cbn.
  destruct (is_failure (outcome_at env i batch)); lia.
Qed.

Lemma after_round_processed i batch st :
  processedIdCount (after_round uToken appKey nChunks totalIds env i batch st)
  = (processedIdCount st + length batch)%nat.
Proof. reflexivity. Qed.

Lemma after_round_log i batch st :
  logOutput (after_round uToken appKey nChunks totalIds env i batch st)
  = logOutput st
    ++ [processing_line nChunks (i + 1); log_line (i + 1) (outcome_at env i batch)].
Proof. cbn. by rewrite <-app_assoc. Qed.

Lemma outcome_at_count i batch : count (outcome_at env i batch) = length batch.
Proof. apply classify_count. Qed.

(** A batch puts its whole size on exactly one of the two counters. *)
Lemma outcome_at_one_counter i batch :
  (succeeded_count (outcome_at env i batch) = length batch
   ∧ failed_count (outcome_at env i batch) = O)
  ∨ (succeeded_count (outcome_at env i batch) = O
     ∧ failed_count (outcome_at env i batch) = length batch).
Proof.
  unfold succeeded_count, failed_count. rewrite outcome_at_count.
  destruct (is_failure (outcome_at env i batch)); auto.
Qed.

Lemma after_rounds_requests i ran st :
  requests (after_rounds uToken appKey nChunks totalIds env i ran st)
  = requests st ++ (deleteRequest uToken appKey <$> ran).
Proof.
  revert i st. induction ran as [|batch ran IH]; intros i st; simpl.
  - by rewrite app_nil_r.
  - rewrite IH, after_round_requests. by rewrite <-app_assoc.
Qed.

Lemma after_rounds_success i ran st :
  totalSuccessCount (after_rounds uToken appKey nChunks totalIds env i ran st)
  = (totalSuccessCount st + sum_list (succeeded_count <$> outcomes env i ran))%nat.
Proof.
  revert i st. induction ran as [|batch ran IH]; intros i st; simpl; [lia|].
  rewrite IH, after_round_success. symmetry. apply Nat.add_assoc.
Qed.

Lemma after_rounds_fail i ran st :
  totalFailCount (after_rounds uToken appKey nChunks totalIds env i ran st)
  = (totalFailCount st + sum_list (failed_count <$> outcomes env i ran))%nat.
Proof.
  revert i st. induction ran as [|batch ran IH]; intros i st; simpl; [lia|].
  rewrite IH, after_round_fail. symmetry. apply Nat.add_assoc.
Qed.

Lemma after_rounds_processed i ran st :
  processedIdCount (after_rounds uToken appKey nChunks totalIds env i ran st)
  = (processedIdCount st + sum_list (length <$> ran))%nat.
Proof.
  revert i st. induction ran as [|batch ran IH]; intros i st; simpl; [lia|].
  rewrite IH, after_round_processed. symmetry. apply Nat.add_assoc.
Qed.

Lemma after_round_counters_agree i batch st :
  counters_agree st → counters_agree (after_round uToken appKey nChunks totalIds env i batch st).
Proof.
  unfold counters_agree.
  rewrite after_round_processed, after_round_success, after_round_fail.
  destruct (outcome_at_one_counter i batch) as [[-> ->]|[-> ->]]; lia.
Qed.

Lemma after_rounds_counters_agree i ran st :
  counters_agree st → counters_agree (after_rounds uToken appKey nChunks totalIds env i ran st).
Proof.
  revert i st. induction ran as [|batch ran IH]; intros i st Hst; simpl;
    [done|].
  by apply IH, after_round_counters_agree.
Qed.

Lemma after_rounds_snoc i ran batch st :
  after_rounds uToken appKey nChunks totalIds env i (ran ++ [batch]) st
  = after_round uToken appKey nChunks totalIds env (i + length ran) batch (after_rounds uToken appKey nChunks totalIds env i ran st).
Proof.
  revert i st. induction ran as [|b ran IH]; intros i st; simpl.
  - by rewrite Nat.add_0_r.
  - rewrite IH. by replace (S i + length ran)%nat
      with (i + S (length ran))%nat by lia.
Qed.

End LoopFacts.

(** ** The credential *)

Section CredentialFacts.
Import Js Http Number Invalidator.

Lemma generateUToken_result (appKey secretKey : string)
    (outcome : FetchOutcome) (st : State) :
  generateUToken appKey secretKey outcome st
  = match token_result outcome with
    | inl e => (token_requested appKey secretKey st, Throw e)
    | inr uToken =>
        ((logToScreen [Lit "✅ Step 1: Success! uToken generated."] false
            (token_requested appKey secretKey st)).1,
         Normal uToken)
    end.
Proof.
  unfold generateUToken, token_result, token_requested, bind.
  cbn [logToScreen modify fetch fst].
  destruct outcome as [r|reason]; [|done].
  unfold lift at 1. unfold json.
  destruct (body r) as [data|reason]; [|done].
  destruct (ok r); cbn [negb].
  - unfold ret at 1. unfold lift at 1.
    destruct data; try done; cbn [get nullish field];
      match goal with
      | |- context [truthy ?v] => by destruct (truthy v)
      end.
  - unfold lift at 1.
    destruct (nullish data) eqn:Hnull; [by destruct data|].
    rewrite (get_field _ _ Hnull). cbv beta iota.
    unfold or_else, lift, ToString. by destruct (to_text _).
Qed.

End CredentialFacts.

(** ** Step 2 as a whole *)

Section RunFacts.
Import Js Http Number Partitioner Invalidator.
Context (uToken : JsValue) (appKey : string) (env : Env).

Lemma summarised_log (st : State) :
  logOutput (summarised env st)
  = logOutput st
    ++ [[Lit "--- PROCESSING COMPLETE ---"]; summary_line st;
        total_time_line env].
Proof.
  cbn [summarised logToScreen modify fst logOutput].
  by rewrite <-!app_assoc.
Qed.

Lemma summarised_counters (st : State) :
  totalSuccessCount (summarised env st) = totalSuccessCount st
  ∧ totalFailCount (summarised env st) = totalFailCount st
  ∧ processedIdCount (summarised env st) = processedIdCount st
  ∧ requests (summarised env st) = requests st.
Proof. done. Qed.

Lemma BATCH_SIZE_partition (allOrderIds : list string) :
  ∃ orderIdChunks,
    chunkArray (length allOrderIds) allOrderIds BATCH_SIZE = Some orderIdChunks
    ∧ concat orderIdChunks = allOrderIds.
Proof.
  destruct (chunkArray_returns (length allOrderIds) allOrderIds BATCH_SIZE)
    as (chunks & Hrun & Hcat & _); [done | lia |].
  exists chunks. by split.
Qed.

Lemma invalidateOrdersInBatches_run (allOrderIds : list string)
    (orderIdChunks : list (list string)) (st : State) :
  chunkArray (length allOrderIds) allOrderIds BATCH_SIZE = Some orderIdChunks →
  invalidateOrdersInBatches uToken appKey allOrderIds env st
  = (summarised env
       (loop_end uToken appKey env (length allOrderIds) orderIdChunks
          (loop_start allOrderIds st)),
     Normal tt).
Proof.
  intros Hchunks. unfold invalidateOrdersInBatches. rewrite Hchunks.
  unfold bind at 1. cbn [logToScreen modify].
  unfold bind at 1. cbn [modify].
  unfold bind at 1. rewrite batchLoop_run. cbv zeta.
  unfold loop_end, loop_start.
  by destruct (_ <? _)%nat.
Qed.

Lemma loop_end_counters_agree (totalIds : nat) (chunks : list (list string))
    (st : State) :
  counters_agree st →
  counters_agree (loop_end uToken appKey env totalIds chunks st).
Proof.
  intros Hst. unfold loop_end.
  pose proof (after_rounds_counters_agree uToken appKey (length chunks)
                totalIds env 0
                (take (rounds_run env 0 (length chunks)) chunks) st Hst) as H.
  by destruct (_ <? _)%nat.
Qed.

End RunFacts.

(** ** The arithmetic of the progress estimator *)

Section FloatFacts.
Import Js Number Invalidator.


(** *** Digits and shifts *)

Lemma digits2_pos_bounds (p : positive) :
  2 ^ (Zpos (digits2_pos p) - 1) ≤ Zpos p < 2 ^ Zpos (digits2_pos p).
Proof.
  induction p as [p IH|p IH|]; cbn [digits2_pos]; [| |done].
  - rewrite Pos2Z.inj_succ, (Pos2Z.inj_xI p).
    replace (Z.succ (Zpos (digits2_pos p)) - 1)
      with (Z.succ (Zpos (digits2_pos p) - 1)) by lia.
    rewrite !Z.pow_succ_r by lia.
    generalize dependent (2 ^ (Zpos (digits2_pos p) - 1)).
    generalize dependent (2 ^ Zpos (digits2_pos p)). lia.
  - rewrite Pos2Z.inj_succ, (Pos2Z.inj_xO p).
    replace (Z.succ (Zpos (digits2_pos p)) - 1)
      with (Z.succ (Zpos (digits2_pos p) - 1)) by lia.
    rewrite !Z.pow_succ_r by lia.
    generalize dependent (2 ^ (Zpos (digits2_pos p) - 1)).
    generalize dependent (2 ^ Zpos (digits2_pos p)). lia.
Qed.

Lemma digits2_pos_unique (p : positive) (d : Z) :
  2 ^ (d - 1) ≤ Zpos p < 2 ^ d → Zpos (digits2_pos p) = d.
Proof.
  intros [Hlo Hhi]. pose proof (digits2_pos_bounds p) as [Hlo' Hhi'].
  assert (0 < d) as Hd.
  { destruct (Z.ltb_spec 0 d); [done|].
    rewrite (Z.pow_neg_r 2 (d - 1)) in Hlo by lia.
    destruct (Z.eqb_spec d 0) as [->|]; [cbn in Hhi; lia|].
    rewrite (Z.pow_neg_r 2 d) in Hhi by lia. lia. }
  destruct (Z.lt_trichotomy (Zpos (digits2_pos p)) d) as [Hlt|[Heq|Hgt]];
    [|done|].
  - assert (2 ^ Zpos (digits2_pos p) ≤ 2 ^ (d - 1))
      by (apply Z.pow_le_mono_r; lia). lia.
  - assert (2 ^ d ≤ 2 ^ (Zpos (digits2_pos p) - 1))
      by (apply Z.pow_le_mono_r; lia). lia.
Qed.

Lemma iter_xO (p n : positive) : Zpos (Pos.iter xO p n) = Zpos p * 2 ^ Zpos n.
Proof.
  induction n as [|n IH] using Pos.peano_ind.
  - cbn. lia.
  - rewrite Pos.iter_succ, Pos2Z.inj_xO, IH, Pos2Z.inj_succ,
      Z.pow_succ_r by lia. lia.
Qed.

Lemma shr_1_m (mrs : shr_record) :
  0 ≤ shr_m mrs → shr_m (shr_1 mrs) = shr_m mrs / 2.
Proof.
  destruct mrs as [[|[p|p|]|p] r s]; cbn [shr_m shr_1]; intros Hm;
    try lia; try done.
  - rewrite (Pos2Z.inj_xI p). apply Z.div_unique with 1; lia.
  - rewrite (Pos2Z.inj_xO p). apply Z.div_unique with 0; lia.
Qed.

Lemma pow2_xI (n : positive) :
  2 ^ Zpos n~1 = 2 * (2 ^ Zpos n * 2 ^ Zpos n).
Proof.
  rewrite (Pos2Z.inj_xI n).
  replace (2 * Zpos n + 1) with (Zpos n + Zpos n + 1) by lia.
  rewrite !Z.pow_add_r by lia. change (2 ^ 1) with 2. lia.
Qed.

Lemma pow2_xO (n : positive) : 2 ^ Zpos n~0 = 2 ^ Zpos n * 2 ^ Zpos n.
Proof.
  rewrite (Pos2Z.inj_xO n).
  replace (2 * Zpos n) with (Zpos n + Zpos n) by lia.
  by rewrite !Z.pow_add_r by lia.
Qed.

Lemma iter_shr_1_m (n : positive) (mrs : shr_record) :
  0 ≤ shr_m mrs →
  shr_m (SpecFloat.iter_pos shr_1 n mrs) = shr_m mrs / 2 ^ Zpos n.
Proof.
  revert mrs.
  induction n as [n IH|n IH|]; intros mrs Hm; cbn [SpecFloat.iter_pos].
  - assert (0 ≤ shr_m (shr_1 mrs)) as H1
      by (rewrite shr_1_m by done; apply Z.div_pos; lia).
    assert (0 ≤ shr_m (SpecFloat.iter_pos shr_1 n (shr_1 mrs))) as H2
      by (rewrite IH by done; apply Z.div_pos; lia).
    rewrite !IH, shr_1_m by done.
    rewrite !Z.div_div by lia. by rewrite pow2_xI, Z.mul_assoc.
  - assert (0 ≤ shr_m (SpecFloat.iter_pos shr_1 n mrs)) as H2
      by (rewrite IH by done; apply Z.div_pos; lia).
    rewrite !IH by done. rewrite Z.div_div by lia. by rewrite pow2_xO.
  - rewrite shr_1_m by done. done.
Qed.

(** *** Doubles that are exact *)

Lemma fexp_normal (x : Z) : -1021 ≤ x → fexp prec emax x = x - 53.
Proof. unfold fexp, SpecFloat.emin, prec, emax. lia. Qed.

(** A mantissa of 53 digits is left as it is. *)
Lemma binary_round_aux_exact (s : bool) (m : positive) (e : Z) :
  Zpos (digits2_pos m) = 53 → -1074 ≤ e ≤ 971 →
  binary_round_aux prec emax s (Zpos m) e loc_Exact = S754_finite s m e.
Proof.
  intros Hd He. unfold binary_round_aux, shr_fexp. cbn [Zdigits2].
  rewrite Hd, fexp_normal by lia.
  replace (53 + e - 53 - e) with 0 by lia.
  cbn [shr shr_record_of_loc shr_m loc_of_shr_record round_nearest_even
       Zdigits2].
  rewrite Hd, fexp_normal by lia.
  replace (53 + e - 53 - e) with 0 by lia.
  cbn [shr shr_record_of_loc shr_m].
  unfold emax, prec. destruct (Z.leb_spec e (1024 - 53)); [done|lia].
Qed.

(** The double of a positive integer below [2 ^ 53]: the integer itself,
    its mantissa filled up to 53 digits. *)
Lemma of_Z_pos (n : positive) :
  Zpos n < 2 ^ 53 →
  ∃ m e, of_Z (Zpos n) = S754_finite false m e
         ∧ -52 ≤ e ≤ 0
         ∧ Zpos m = Zpos n * 2 ^ (- e)
         ∧ Zpos (digits2_pos m) = 53.
Proof.
  intros Hn. pose proof (digits2_pos_bounds n) as [Hlo Hhi].
  assert (Zpos (digits2_pos n) ≤ 53) as Hd.
  { destruct (Z.leb_spec (Zpos (digits2_pos n)) 53); [done|].
    assert (2 ^ 53 ≤ 2 ^ (Zpos (digits2_pos n) - 1))
      by (apply Z.pow_le_mono_r; lia). lia. }
  unfold of_Z, binary_normalize, binary_round.
  rewrite Z.add_0_r, fexp_normal by lia. unfold shl_align.
  destruct (Zpos (digits2_pos n) - 53 - 0) as [|k|k] eqn:Hk; [|lia|].
  - exists n, 0. rewrite binary_round_aux_exact by lia.
    split; [done|]. split; [lia|]. split; [cbn; lia|lia].
  - assert (Zpos (digits2_pos (Pos.iter xO n k)) = 53) as Hfull.
    { apply digits2_pos_unique. rewrite iter_xO.
      replace 53 with (Zpos (digits2_pos n) + Zpos k) at 2 by lia.
      replace (53 - 1) with (Zpos (digits2_pos n) - 1 + Zpos k) by lia.
      rewrite !Z.pow_add_r by lia.
      assert (0 < 2 ^ Zpos k) by (apply Z.pow_pos_nonneg; lia). nia. }
    exists (Pos.iter xO n k), (Zpos (digits2_pos n) - 53).
    rewrite binary_round_aux_exact by lia.
    split; [done|]. split; [lia|]. split; [|done].
    rewrite iter_xO. f_equal. f_equal. lia.
Qed.

(** *** Rounding *)


Lemma shr_record_of_loc_m (m : Z) (l : location) :
  shr_m (shr_record_of_loc m l) = m.
Proof. by destruct l as [|[]]. Qed.

Lemma round_nearest_even_near (m : Z) (l : location) :
  m ≤ round_nearest_even m l ≤ m + 1.
Proof. destruct l as [|[]]; cbn; try destruct (Z.even m); lia. Qed.

Lemma digits_53 (p : positive) :
  2 ^ 52 ≤ Zpos p < 2 ^ 53 → Zpos (digits2_pos p) = 53.
Proof. intros Hp. by apply digits2_pos_unique. Qed.

Lemma digits_54 (p : positive) :
  2 ^ 53 ≤ Zpos p < 2 ^ 54 → Zpos (digits2_pos p) = 54.
Proof. intros Hp. by apply digits2_pos_unique. Qed.

(** The last step of a rounding: a mantissa of 53 digits is kept, and
    [2 ^ 53] is halved. *)
Lemma round_finish (s : bool) (mb e : Z) :
  2 ^ 52 ≤ mb ≤ 2 ^ 53 → -1074 ≤ e ≤ 960 →
  ∃ m n,
    (let '(mrs, e') := shr_fexp prec emax mb e loc_Exact in
     match shr_m mrs with
     | Z0 => S754_zero s
     | Zpos m => if e' <=? emax - prec then S754_finite s m e'
                 else S754_infinity s
     | Zneg _ => S754_nan
     end) = S754_finite s m (e + n)
    ∧ 0 ≤ n ≤ 1 ∧ Zpos m * 2 ^ n = mb.
Proof.
  intros Hmb He. destruct (Z.eq_dec mb (2 ^ 53)) as [->|Hne].
  - exists (2 ^ 52)%positive, 1. unfold shr_fexp.
    change (Zdigits2 (2 ^ 53)) with 54. rewrite fexp_normal by lia.
    replace (54 + e - 53 - e) with 1 by lia.
    cbn [shr shr_record_of_loc SpecFloat.iter_pos].
    change (shr_m (shr_1 {| shr_m := 2 ^ 53; shr_r := false;
                             shr_s := false |}))
      with (Zpos (2 ^ 52)).
    unfold emax, prec. destruct (Z.leb_spec (e + 1) (1024 - 53)); [|lia].
    split; [done|]. split; [lia|done].
  - destruct mb as [|p|p]; try lia. exists p, 0. unfold shr_fexp.
    cbn [Zdigits2]. rewrite digits_53, fexp_normal by lia.
    replace (53 + e - 53 - e) with 0 by lia.
    cbn [shr shr_record_of_loc shr_m].
    unfold emax, prec. destruct (Z.leb_spec e (1024 - 53)); [|lia].
    rewrite Z.add_0_r. split; [done|]. split; [lia|]. cbn. lia.
Qed.

(** Rounding a quotient of 53 or 54 digits: the result is within two units
    of the last place of what went in, and not below it once its last
    digit is cut off. *)
Lemma binary_round_aux_near (s : bool) (q e : Z) (l : location) :
  2 ^ 52 ≤ q < 2 ^ 54 → -1074 ≤ e ≤ 900 →
  ∃ m n,
    binary_round_aux prec emax s q e l = S754_finite s m (e + n)
    ∧ 0 ≤ n ≤ 2
    ∧ q / 2 * 2 ≤ Zpos m * 2 ^ n ≤ q + 2.
Proof.
  intros Hq He. destruct q as [|p|p]; try lia.
  unfold binary_round_aux. unfold shr_fexp at 1. cbn [Zdigits2].
  destruct (Z.ltb_spec (Zpos p) (2 ^ 53)) as [Hsmall|Hbig].
  - rewrite digits_53, fexp_normal by lia.
    replace (53 + e - 53 - e) with 0 by lia. cbn [shr].
    rewrite shr_record_of_loc_m.
    set (mb := round_nearest_even _ _).
    pose proof (round_nearest_even_near (Zpos p)
                  (loc_of_shr_record (shr_record_of_loc (Zpos p) l)))
      as Hmb. fold mb in Hmb.
    destruct (round_finish s mb e) as (m & n & -> & Hn & Hm); [lia|lia|].
    exists m, n. split; [done|]. split; [lia|].
    rewrite Hm. pose proof (Z.mul_div_le (Zpos p) 2). lia.
  - rewrite digits_54, fexp_normal by lia.
    replace (54 + e - 53 - e) with 1 by lia.
    cbn [shr SpecFloat.iter_pos].
    set (mrs := shr_1 _).
    assert (shr_m mrs = Zpos p / 2) as Hshift.
    { subst mrs. rewrite shr_1_m; rewrite shr_record_of_loc_m; [done|lia]. }
    set (mb := round_nearest_even _ _).
    pose proof (round_nearest_even_near (shr_m mrs) (loc_of_shr_record mrs))
      as Hmb. fold mb in Hmb. rewrite Hshift in Hmb.
    assert (2 ^ 52 ≤ Zpos p / 2 < 2 ^ 53) as Hhalf.
    { split; [apply Z.div_le_lower_bound; lia
             |apply Z.div_lt_upper_bound; lia]. }
    destruct (round_finish s mb (e + 1)) as (m & n & -> & Hn & Hm);
      [lia|lia|].
    exists m, (1 + n). rewrite Z.add_assoc. split; [done|]. split; [lia|].
    rewrite Z.pow_add_r by lia. change (2 ^ 1) with 2.
    pose proof (Z.mul_div_le (Zpos p) 2).
    pose proof (Z.mul_succ_div_gt (Zpos p) 2). lia.
Qed.

(** *** Minutes and seconds *)


Lemma stands_for_integer (m : positive) (e : Z) :
  0 ≤ e → stands_for m e (Zpos m * 2 ^ e).
Proof.
  intros He. split; [lia|]. rewrite Z.pow_add_r by lia. lia.
Qed.

Lemma of_Z_stands_for (n : positive) :
  Zpos n < 2 ^ 53 →
  ∃ m e, of_Z (Zpos n) = S754_finite false m e ∧ stands_for m e (Zpos n).
Proof.
  intros Hn. destruct (of_Z_pos n Hn) as (m & e & Hof & He & Hm & _).
  exists m, e. split; [done|]. split; [lia|]. rewrite Hm.
  rewrite <-Z.mul_assoc, <-Z.pow_add_r by lia. f_equal. f_equal. lia.
Qed.

Lemma of_Z_60 : of_Z 60 = S754_finite false 8444249301319680 (-47).
Proof. reflexivity. Qed.

(** The digits of a double that stands for [n] end where those of [n]
    end. *)
Lemma stands_for_digits (m : positive) (e n : Z) :
  stands_for m e n → 0 < n →
  2 ^ (Zpos (digits2_pos m) + e - 1) ≤ n < 2 ^ (Zpos (digits2_pos m) + e)
  ∧ 0 < Zpos (digits2_pos m) + e.
Proof.
  intros [He Hm] Hn. pose proof (digits2_pos_bounds m) as [Hlo Hhi].
  set (D := Zpos (digits2_pos m)) in *.
  assert (0 < 2 ^ (e + 52)) as Hpos by (apply Z.pow_pos_nonneg; lia).
  assert (2 ^ (D - 1) * 2 ^ (e + 52) ≤ n * 2 ^ 52 < 2 ^ D * 2 ^ (e + 52))
    as Hn' by nia.
  rewrite <-!Z.pow_add_r in Hn' by lia.
  assert (0 < D + e) as Hd.
  { destruct (Z.ltb_spec 0 (D + e)); [done|].
    assert (2 ^ (D + (e + 52)) ≤ 2 ^ 52) by (apply Z.pow_le_mono_r; lia).
    lia. }
  split; [|done].
  replace (D - 1 + (e + 52)) with (D + e - 1 + 52) in Hn' by lia.
  replace (D + (e + 52)) with (D + e + 52) in Hn' by lia.
  rewrite !Z.pow_add_r in Hn' by lia. lia.
Qed.

Lemma stands_for_small (m : positive) (e n : Z) :
  stands_for m e n → 0 < n < 2 ^ 52 →
  0 < Zpos (digits2_pos m) + e ≤ 52.
Proof.
  intros Hst Hn. destruct (stands_for_digits m e n Hst) as [Hdig Hd]; [lia|].
  split; [done|].
  destruct (Z.leb_spec (Zpos (digits2_pos m) + e) 52); [done|].
  assert (2 ^ 52 ≤ 2 ^ (Zpos (digits2_pos m) + e - 1))
    by (apply Z.pow_le_mono_r; lia). lia.
Qed.

(** The quotient by 60 of a double that stands for an integer below
    [2 ^ 52], cut off at the point, is the quotient of the integers. *)
Lemma div_60_floor (m : positive) (e n : Z) :
  stands_for m e n → 0 < n < 2 ^ 52 →
  Math_floor (div (S754_finite false m e) (of_Z 60)) = of_Z (n / 60).
Proof.
  intros Hst Hn. pose proof Hst as [He Hm].
  destruct (stands_for_digits m e n Hst) as [Hdig _]; [lia|].
  pose proof (stands_for_small m e n Hst Hn) as Hd.
  set (D := Zpos (digits2_pos m)) in *.
  rewrite of_Z_60. unfold div, SFdiv, SFdiv_core_binary.
  cbn [xorb Zdigits2]. fold D.
  change (Zpos (digits2_pos 8444249301319680)) with 53.
  rewrite fexp_normal by lia. rewrite Z.min_l by lia.
  replace (e - -47 - (D + e - (53 + -47) - 53)) with (106 - D) by lia.
  replace (D + e - (53 + -47) - 53) with (D + e - 59) by lia.
  assert (Z.shiftl (Zpos m) (106 - D) = n * 2 ^ (59 - (D + e)) * 2 ^ 47)
    as Hshift.
  { rewrite Z.shiftl_mul_pow2 by lia.
    rewrite <-Z.mul_assoc, <-Z.pow_add_r by lia.
    apply (Z.mul_cancel_r _ _ (2 ^ (e + 52)));
      [apply Z.pow_nonzero; lia|].
    rewrite <-!Z.mul_assoc, <-!Z.pow_add_r by lia.
    replace (106 - D + (e + 52)) with ((e + 52) + (106 - D)) by lia.
    rewrite Z.pow_add_r, Z.mul_assoc, Hm by lia.
    rewrite <-Z.mul_assoc, <-Z.pow_add_r by lia. f_equal. f_equal. lia. }
  destruct (106 - D) as [|k|k] eqn:Hk; try lia. rewrite Hshift.
  set (P := 2 ^ (59 - (D + e))) in *.
  assert (128 ≤ P) as HP.
  { subst P. change 128 with (2 ^ 7). apply Z.pow_le_mono_r; lia. }
  assert (2 ^ 58 ≤ n * P < 2 ^ 59) as HnP.
  { assert (2 ^ 58 = 2 ^ (D + e - 1) * P) as ->.
    { subst P. rewrite <-Z.pow_add_r by lia. f_equal. lia. }
    assert (2 ^ 59 = 2 ^ (D + e) * P) as ->.
    { subst P. rewrite <-Z.pow_add_r by lia. f_equal. lia. }
    split; [apply Z.mul_le_mono_nonneg_r; lia
           |apply Z.mul_lt_mono_pos_r; lia]. }
  pose proof (Z.div_eucl_eq (n * P * 2 ^ 47) 8444249301319680 ltac:(lia))
    as Heucl.
  pose proof (Z.mod_pos_bound (n * P * 2 ^ 47) 8444249301319680 ltac:(lia))
    as Hbound.
  unfold Z.modulo in Hbound.
  destruct (Z.div_eucl (n * P * 2 ^ 47) 8444249301319680) as [q r].
  assert (q = n * P / 60) as ->.
  { apply Z.div_unique with (r / 2 ^ 47).
    - left. split; [apply Z.div_pos; lia|].
      apply Z.div_lt_upper_bound; lia.
    - assert (r = 2 ^ 47 * (r / 2 ^ 47)) as Hr.
      { apply Z.div_exact; [lia|].
        replace r with (n * P * 2 ^ 47 - 8444249301319680 * q) by lia.
        change 8444249301319680 with (60 * 2 ^ 47).
        replace (n * P * 2 ^ 47 - 60 * 2 ^ 47 * q)
          with ((n * P - 60 * q) * 2 ^ 47) by lia.
        apply Z.mod_mul. lia. }
      change 8444249301319680 with (60 * 2 ^ 47) in Heucl. lia. }
  assert (2 ^ 52 ≤ n * P / 60 < 2 ^ 54) as Hq.
  { split; [apply Z.div_le_lower_bound; lia
           |apply Z.div_lt_upper_bound; lia]. }
  destruct (binary_round_aux_near false (n * P / 60) (D + e - 59)
              (new_location 8444249301319680 r) Hq)
    as (m' & k' & -> & Hk' & Hnear); [lia|].
  unfold Math_floor. destruct (Z.leb_spec 0 (D + e - 59 + k')); [lia|].
  cbn [cond_Zopp]. unfold of_Z. f_equal.
  set (W := 2 ^ (- (D + e - 59 + k'))).
  assert (P = W * 2 ^ k') as HPW.
  { subst P W. rewrite <-Z.pow_add_r by lia. f_equal. lia. }
  assert (0 < W) by (apply Z.pow_pos_nonneg; lia).
  assert (0 < 2 ^ k') by (apply Z.pow_pos_nonneg; lia).
  pose proof (Z.mul_div_le n 60 ltac:(lia)) as Hk60.
  pose proof (Z.mul_succ_div_gt n 60 ltac:(lia)) as Hk60'.
  set (c := n / 60) in *.
  assert (c * P ≤ n * P / 60) as Hlow.
  { apply Z.div_le_lower_bound; [lia|]. nia. }
  assert (c * P ≤ n * P / 60 / 2 * 2) as Hlow'.
  { assert (P = 2 * (P / 2)) as HP2.
    { apply Z.div_exact; [lia|]. subst P.
      replace (59 - (D + e)) with (1 + (58 - (D + e))) by lia.
      rewrite Z.pow_add_r by lia. change (2 ^ 1) with 2.
      rewrite Z.mul_comm. apply Z.mod_mul. lia. }
    assert (c * (P / 2) ≤ n * P / 60 / 2)
      by (apply Z.div_le_lower_bound; lia).
    lia. }
  assert (60 * (n * P / 60) ≤ n * P) as Hup by (apply Z.mul_div_le; lia).
  assert (n * P ≤ (60 * c + 59) * P) as Hup' by nia.
  symmetry. apply Z.div_unique with (Zpos m' - W * c).
  - left. split; [nia|]. nia.
  - lia.
Qed.

Lemma normalize_small (t k : Z) :
  0 ≤ t < 60 → 47 ≤ k ≤ 52 →
  binary_normalize prec emax (t * 2 ^ k) (- k) false = of_Z t.
Proof.
  intros Ht Hk.
  replace t with (Z.of_nat (Z.to_nat t)) by lia.
  replace k with (47 + Z.of_nat (Z.to_nat (k - 47))) by lia.
  assert (Z.to_nat t < 60)%nat as Hi by lia.
  assert (Z.to_nat (k - 47) < 6)%nat as Hj by lia.
  generalize dependent (Z.to_nat t). generalize dependent (Z.to_nat (k - 47)).
  clear. intros j Hj i Hi.
  do 6 (destruct j as [|j];
        [do 60 (destruct i as [|i]; [vm_compute; reflexivity|]);
         exfalso; lia|]).
  exfalso. lia.
Qed.

(** The remainder by 60 of a double that stands for an integer is the
    remainder of the integer. *)
Lemma rem_60 (m : positive) (e n : Z) :
  stands_for m e n → 0 < n < 2 ^ 52 →
  rem (S754_finite false m e) (of_Z 60) = of_Z (n mod 60).
Proof.
  intros [He Hm] Hn. rewrite of_Z_60. unfold rem. cbn [cond_Zopp].
  set (k := - Z.min e (-47)).
  assert (47 ≤ k ≤ 52) as Hk by lia.
  replace (Z.min e (-47)) with (- k) by lia.
  assert (Zpos m * 2 ^ (e - - k) = n * 2 ^ k) as ->.
  { apply (Z.mul_cancel_r _ _ (2 ^ (52 - k)));
      [apply Z.pow_nonzero; lia|].
    rewrite <-!Z.mul_assoc, <-!Z.pow_add_r by lia.
    replace (e - - k + (52 - k)) with (e + 52) by lia.
    replace (k + (52 - k)) with 52 by lia. done. }
  assert (8444249301319680 * 2 ^ (-47 - - k) = 60 * 2 ^ k) as ->.
  { change 8444249301319680 with (60 * 2 ^ 47).
    rewrite <-Z.mul_assoc, <-Z.pow_add_r by lia. f_equal. f_equal. lia. }
  assert (0 < 2 ^ k) by (apply Z.pow_pos_nonneg; lia).
  rewrite Z.rem_mod_nonneg by lia.
  rewrite Z.mul_mod_distr_r by lia.
  apply normalize_small; [|done]. apply Z.mod_pos_bound. lia.
Qed.

Lemma ltb_zero_of_Z (c : Z) :
  0 ≤ c < 2 ^ 53 → ltb zero (of_Z c) = (0 <? c).
Proof.
  intros Hc. destruct c as [|c|c]; [done| |lia].
  destruct (of_Z_pos c) as (m & e & -> & _); [lia|]. done.
Qed.

(** *** The nearest second *)


Lemma nearest_integer (z : Z) : nearest (inject_Z z) = z.
Proof.
  unfold nearest, Qplus, inject_Z. cbn [Qnum Qden Qfloor].
  rewrite Z.mul_1_l. change (Zpos (1 * 2)) with 2.
  symmetry. apply Z.div_unique with 1; lia.
Qed.

Lemma nearest_fraction (a : Z) (b : positive) :
  nearest (a # b) = (2 * a + Zpos b) / (2 * Zpos b).
Proof.
  unfold nearest, Qplus. cbn [Qnum Qden Qfloor].
  rewrite Pos2Z.inj_mul. f_equal; lia.
Qed.

Lemma nearest_comp (x y : Q) : (x == y)%Q → nearest x = nearest y.
Proof. intros Hxy. unfold nearest. apply Qfloor_comp. by rewrite Hxy. Qed.

Lemma value_integer (m : positive) (e : Z) :
  0 ≤ e → (value (S754_finite false m e) == inject_Z (Zpos m * 2 ^ e))%Q.
Proof.
  intros He. cbn [value cond_Zopp].
  rewrite inject_Z_mult, (Zpower_Qpower 2 e He). reflexivity.
Qed.

Lemma value_fraction (m : positive) (e : Z) :
  e < 0 →
  (value (S754_finite false m e) == Zpos m # Z.to_pos (2 ^ (- e)))%Q.
Proof.
  intros He. cbn [value cond_Zopp].
  assert (0 < 2 ^ (- e)) as Hpos by (apply Z.pow_pos_nonneg; lia).
  rewrite (Qmake_Qdiv (Zpos m)), Z2Pos.id by done.
  rewrite (Zpower_Qpower 2 (- e)) by lia.
  rewrite Qpower_opp. unfold Qdiv. rewrite Qinv_involutive. reflexivity.
Qed.

(** [Math.round] of a double that is not negative: the double of the
    nearest integer, or the double itself when it is an integer already. *)
Lemma Math_round_nearest (m : positive) (e : Z) :
  let x := S754_finite false m e in
  if 0 <=? e then Math_round x = x ∧ nearest (value x) = Zpos m * 2 ^ e
  else Math_round x = of_Z (nearest (value x)).
Proof.
  intros x. subst x. destruct (Z.leb_spec 0 e) as [He|He].
  - unfold Math_round. destruct (Z.leb_spec 0 e); [|lia]. split; [done|].
    rewrite (nearest_comp _ _ (value_integer m e He)).
    apply nearest_integer.
  - unfold Math_round. destruct (Z.leb_spec 0 e); [lia|].
    cbn [cond_Zopp]. unfold of_Z. f_equal.
    rewrite (nearest_comp _ _ (value_fraction m e He)), nearest_fraction.
    assert (0 < 2 ^ (- e)) as Hpos by (apply Z.pow_pos_nonneg; lia).
    rewrite Z2Pos.id by done. f_equal.
    replace (1 - e) with (1 + - e) by lia.
    rewrite Z.pow_add_r by lia. done.
Qed.


Lemma binary_round_aux_sign (s : bool) (m e : Z) (l : location) :
  match binary_round_aux prec emax s m e l with
  | S754_zero s' | S754_infinity s' | S754_finite s' _ _ => s' = s
  | S754_nan => True
  end.
Proof.
  unfold binary_round_aux.
  destruct (shr_fexp prec emax m e l) as [mrs' e'].
  destruct (shr_fexp prec emax _ e' loc_Exact) as [mrs'' e''].
  destruct (shr_m mrs''); [done| |done].
  by destruct (e'' <=? emax - prec).
Qed.

Lemma of_Z_1000 : of_Z 1000 = S754_finite false 8796093022208000 (-43).
Proof. reflexivity. Qed.

(** What [formatTime] makes of a whole number of seconds below
    [2 ^ 52]. *)
Lemma minutes_and_seconds (x : spec_float) (n : Z) :
  x = of_Z n ∨ (∃ m e, x = S754_finite false m e ∧ stands_for m e n) →
  0 ≤ n < 2 ^ 52 →
  (if ltb zero (Math_floor (div x (of_Z 60)))
   then [Num (Math_floor (div x (of_Z 60))); Lit "m "] else [])
  ++ [Num (rem x (of_Z 60)); Lit "s"]
  = shown n.
Proof.
  intros Hx Hn. destruct (Z.eq_dec n 0) as [->|Hpos].
  - destruct Hx as [->|(m & e & -> & He & Hm)]; [done|]. cbn in Hm. lia.
  - assert (∃ m e, x = S754_finite false m e ∧ stands_for m e n)
      as (m & e & -> & Hst).
    { destruct Hx as [->|Hx]; [|done].
      destruct n as [|n|n]; try lia. apply of_Z_stands_for. lia. }
    rewrite (div_60_floor m e n), (rem_60 m e n) by (done || lia).
    rewrite ltb_zero_of_Z; [done|].
    split; [apply Z.div_pos; lia|]. apply Z.div_lt_upper_bound; lia.
Qed.

Lemma formatTime_shown (ms : spec_float) :
  isFinite ms = true → ltb zero ms = true →
  isFinite (div ms (of_Z 1000)) = true →
  nearest (value (div ms (of_Z 1000))) < 2 ^ 52 →
  formatTime ms = shown (nearest (value (div ms (of_Z 1000)))).
Proof.
  intros Hfin Hpos Hq Hsmall. unfold formatTime. rewrite Hfin.
  destruct ms as [s|s| |s mx ex]; try done. destruct s; [done|].
  cbn [ltb SFltb SFcompare orb negb].
  assert (match div (S754_finite false mx ex) (of_Z 1000) with
          | S754_zero s' | S754_infinity s' | S754_finite s' _ _ => s' = false
          | S754_nan => True
          end) as Hsign.
  { rewrite of_Z_1000. unfold div, SFdiv. cbn [xorb].
    destruct (SFdiv_core_binary _ _ _ _ _ _) as [[mz ez] lz].
    apply binary_round_aux_sign. }
  destruct (div (S754_finite false mx ex) (of_Z 1000))
    as [s|s| |s m e] eqn:Hdiv; try done; subst s.
  - done.
  - pose proof (Math_round_nearest m e) as Hround. cbv zeta in Hround.
    destruct (Z.leb_spec 0 e) as [He|He].
    + destruct Hround as [-> Hnear]. rewrite Hnear in *.
      apply minutes_and_seconds; [|lia].
      right. exists m, e. split; [done|]. by apply stands_for_integer.
    + rewrite Hround. apply minutes_and_seconds; [by left|].
      split; [|done].
      rewrite (nearest_comp _ _ (value_fraction m e He)), nearest_fraction.
      apply Z.div_pos; lia.
Qed.

Lemma div_1000_sign (mx : positive) (ex : Z) :
  (0 <= value (div (S754_finite false mx ex) (of_Z 1000)))%Q.
Proof.
  pose proof (binary_round_aux_sign false) as Hsign.
  rewrite of_Z_1000. unfold div, SFdiv. cbn [xorb].
  destruct (SFdiv_core_binary _ _ _ _ _ _) as [[mz ez] lz].
  specialize (Hsign mz ez lz).
  destruct (binary_round_aux prec emax false mz ez lz) as [| | |s m e];
    try done. subst s. cbn [value cond_Zopp].
  apply Qmult_le_0_compat; [done|]. apply Qpower_pos. done.
Qed.

(** The nearest integer is within a half of the number. *)
Lemma nearest_bounds (x : Q) :
  (0 <= x)%Q →
  0 ≤ nearest x
  ∧ (2 * inject_Z (nearest x) - 1 <= 2 * x)%Q
  ∧ (2 * x < 2 * inject_Z (nearest x) + 1)%Q.
Proof.
  intros Hx. unfold nearest.
  pose proof (Qfloor_le (x + (1 # 2))) as Hle.
  pose proof (Qlt_floor (x + (1 # 2))) as Hlt.
  assert (0 ≤ Qfloor (x + (1 # 2))) as Hpos.
  { change 0 with (Qfloor 0). apply Qfloor_resp_le.
    apply Qle_trans with x; [done|].
    rewrite <-(Qplus_0_r x) at 1. by apply Qplus_le_r. }
  split; [done|]. rewrite inject_Z_plus in Hlt.
  set (n := inject_Z (Qfloor (x + (1 # 2)))) in *.
  split.
  - apply Qle_trans with (2 * (x + (1 # 2)) - 1)%Q.
    + apply Qplus_le_l. apply Qmult_le_l; done.
    + apply Qle_lteq. right. ring.
  - apply Qlt_le_trans with (2 * (n + inject_Z 1) - 1)%Q.
    + apply Qle_lt_trans with (2 * (x + (1 # 2)) - 1)%Q.
      * apply Qle_lteq. right. ring.
      * apply Qplus_lt_l. apply Qmult_lt_l; done.
    + apply Qle_lteq. right. ring.
Qed.

End FloatFacts.

(** ** Claims about the partitioner *)

Section PartitionerClaims.
Import JsArray Partitioner.

Lemma ceil_div_least (n B : Z) :
  0 < B → n ≤ ceil_div n B * B ∧ (ceil_div n B - 1) * B < n.
Proof.
  intros HB. unfold ceil_div.
  pose proof (Z.div_mod (n + B - 1) B ltac:(lia)) as Hdm.
  pose proof (Z.mod_pos_bound (n + B - 1) B HB). lia.
Qed.

(** C1.  For a list of length [n] and a chunk size [B > 0], [chunkArray]
    returns [ceil(n/B)] batches; their lengths sum to [n]; put one after the
    other they give the list back; every batch but the last has exactly [B]
    elements, and the last has [n mod B], or [B] when that is zero. *)
Theorem chunkArray_partitions {A} (array : list A) (size : Z) (fuel : nat) :
  0 < size → (length array ≤ fuel)%nat →
  let n := Z.of_nat (length array) in
  ∃ chunks,
    chunkArray fuel array size = Some chunks
    ∧ Z.of_nat (length chunks) = ceil_div n size
    ∧ (n ≤ Z.of_nat (length chunks) * size
       ∧ (Z.of_nat (length chunks) - 1) * size < n)
    ∧ sum_list (length <$> chunks) = length array
    ∧ concat chunks = array
    ∧ (∀ k c, chunks !! k = Some c → (S k < length chunks)%nat →
         Z.of_nat (length c) = size)
    ∧ (∀ c, last chunks = Some c →
         Z.of_nat (length c) = if n mod size =? 0 then size else n mod size).
Proof.
  intros Hs Hfuel n.
  destruct (chunkArray_returns fuel array size Hs Hfuel) as
    (chunks & Hrun & Hcat & Hlen & Hfull & Hlast).
  exists chunks. split; [done|]. split; [done|].
  split; [rewrite Hlen; by apply ceil_div_least|].
  split; [by rewrite <-length_concat, Hcat|]. done.
Qed.

Lemma chunkArray_partitions_witness :
  0 < 5 ∧ (length (seq 1 12) ≤ 12)%nat
  ∧ ∃ chunks,
      chunkArray 12 (seq 1 12) 5 = Some chunks
      ∧ Z.of_nat (length chunks) = ceil_div 12 5
      ∧ concat chunks = seq 1 12.
Proof.
  split; [lia|]. split; [simpl; lia|].
  destruct (chunkArray_partitions (seq 1 12) 5 12) as
    (chunks & Hrun & Hlen & _ & _ & Hcat & _); [lia | simpl; lia |].
  exists chunks. split; [exact Hrun|]. split; [exact Hlen | exact Hcat].
Defined.

(** C7, as the specification has it, fails: [chunkArray] takes a size of
    zero or below as it comes, and on a list that is not empty its loop then
    never ends; nothing is rejected. *)
Lemma chunkArray_nonpositive_size_not_rejected :
  (∀ fuel, chunkArray fuel ["A-1001"] 0 = None)
  ∧ (∀ fuel, chunkArray fuel ["A-1001"; "A-1002"] (-1) = None).
Proof.
  split; intros fuel; by apply chunkArray_loop_nonpositive.
Qed.

(** C7, amended.  The chunk size of a run is the constant [BATCH_SIZE],
    which is 5000: the partitioner is never called with a size of zero or
    below, the partitioning of every list of identifiers ends, and step 2
    never hangs in it. *)
Theorem BATCH_SIZE_positive (uToken : Js.JsValue) (appKey : string)
    (allOrderIds : list string) (env : Invalidator.Env)
    (st : Invalidator.State) :
  Invalidator.BATCH_SIZE = 5000
  ∧ 0 < Invalidator.BATCH_SIZE
  ∧ (∃ orderIdChunks,
       chunkArray (length allOrderIds) allOrderIds Invalidator.BATCH_SIZE
       = Some orderIdChunks)
  ∧ (Invalidator.invalidateOrdersInBatches uToken appKey allOrderIds env st).2
    = Js.Normal tt.
Proof.
  split; [done|]. split; [done|].
  destruct (BATCH_SIZE_partition allOrderIds) as (chunks & Hrun & _).
  split; [by exists chunks|].
  by rewrite (invalidateOrdersInBatches_run _ _ _ _ chunks).
Qed.

(** C9.  [chunkArray] is deterministic and has no effect but its result:
    called on an array of the heap, with a positive size, it returns a new
    array of new arrays holding the batches; called again on the same array
    it returns the same batches; no array that was on the heap before the
    call is changed, the argument among them, and the rest of the program's
    state (log, console, requests, page) stays as it was. *)
Theorem chunkArray_deterministic_effect_free {A} (s : Heap.Store A)
    (array : nat) (elems : list (Heap.Cell A)) (size : Z) (fuel : nat) :
  Heap.heap s !! array = Some elems →
  0 < size → (length elems ≤ fuel)%nat →
  ∃ batches s1 chunks1 s2 chunks2,
    chunkArray fuel elems size = Some batches
    ∧ Heap.chunkArray fuel array size s = Some (s1, chunks1)
    ∧ Heap.chunkArray fuel array size s1 = Some (s2, chunks2)
    ∧ Heap.contents s1 chunks1 = Some batches
    ∧ Heap.contents s2 chunks2 = Some batches
    ∧ Heap.contents s2 chunks1 = Some batches
    ∧ (∀ l, (l < length (Heap.heap s))%nat →
         Heap.heap s1 !! l = Heap.heap s !! l
         ∧ Heap.heap s2 !! l = Heap.heap s !! l)
    ∧ Heap.world s1 = Heap.world s
    ∧ Heap.world s2 = Heap.world s.
Proof.
  intros Harr Hs Hfuel.
  destruct (chunkArray_returns fuel elems size Hs Hfuel)
    as (batches & Hpure & _).
  pose proof (heap_chunkArray_refines fuel s array elems size Harr) as H1.
  rewrite Hpure in H1.
  destruct H1 as (s1 & chunks1 & Hrun1 & Hc1 & Hw1 & Hnew1 & Hframe1).
  assert (array < length (Heap.heap s))%nat as Hlt
    by (eapply lookup_lt_Some; eauto).
  assert (Heap.heap s1 !! array = Some elems) as Harr1
    by (by rewrite Hframe1).
  pose proof (heap_chunkArray_refines fuel s1 array elems size Harr1) as H2.
  rewrite Hpure in H2.
  destruct H2 as (s2 & chunks2 & Hrun2 & Hc2 & Hw2 & Hnew2 & Hframe2).
  exists batches, s1, chunks1, s2, chunks2.
  repeat (split; [done|]).
  split; [by apply (contents_frame s1 s2)|].
  split; [|split; congruence].
  intros l Hl. split; [by apply Hframe1|].
  rewrite <-Hframe1 by done. apply Hframe2.
  eapply lookup_lt_is_Some. rewrite Hframe1 by done.
  by apply lookup_lt_is_Some.
Qed.

Lemma chunkArray_deterministic_effect_free_witness :
  let s := {| Heap.heap := [[Heap.Elem "A-1"; Heap.Elem "A-2";
                              Heap.Elem "A-3"]];
              Heap.world := Invalidator.initial |} in
  ∃ batches s1 chunks1 s2 chunks2,
    chunkArray 3 [Heap.Elem "A-1"; Heap.Elem "A-2"; Heap.Elem "A-3"] 2
    = Some batches
    ∧ Heap.chunkArray 3 0 2 s = Some (s1, chunks1)
    ∧ Heap.chunkArray 3 0 2 s1 = Some (s2, chunks2)
    ∧ Heap.contents s1 chunks1 = Some batches
    ∧ Heap.contents s2 chunks2 = Some batches
    ∧ Heap.heap s2 !! 0%nat = Heap.heap s !! 0%nat.
Proof.
  intros s.
  destruct (chunkArray_deterministic_effect_free s 0
              [Heap.Elem "A-1"; Heap.Elem "A-2"; Heap.Elem "A-3"] 2 3)
    as (batches & s1 & chunks1 & s2 & chunks2 & Hpure & Hrun1 & Hrun2
        & Hc1 & Hc2 & _ & Hframe & _);
    [reflexivity | lia | simpl; lia |].
  exists batches, s1, chunks1, s2, chunks2.
  repeat (split; [assumption|]).
  apply (Hframe 0%nat). simpl. lia.
Defined.

End PartitionerClaims.

(** ** Claims about the batches and the loop *)

Section BatchClaims.
Import Js Http Number Invalidator.

(** C3, as the specification has it, fails in its last step: a failure
    response with neither field is reported as ["HTTP 500"], not with the
    status text of the response. *)
Lemma executeBatch_message_not_status_text :
  executeBatch (JStr "tok") "app" 1 ["A-1001"] (Resolves server_error_empty)
    initial
  = (record_outcome (deleteRequest (JStr "tok") "app" ["A-1001"]) 1
       (Failed 1 (ApiMessage [Lit "HTTP 500"])) initial,
     Normal tt)
  ∧ fallback_message_spec server_error_empty = JStr "Internal Server Error"
  ∧ logOutput
      (executeBatch (JStr "tok") "app" 1 ["A-1001"]
         (Resolves server_error_empty) initial).1
    = [[Lit "FAILED: Batch "; Int 1; Lit " - "; Lit "HTTP 500"]].
Proof. by vm_compute. Qed.

(** C3, amended.  For a batch of size [s]: status 200 or 204 gives
    [Succeeded s].  Any other status, with a body that is not the JSON value
    [null], gives [Failed s]; the message is taken from the [error] field of
    the body, else from the [message] field of its [status] field, else it
    is ["HTTP "] followed by the status code.  The failure is reported with
    the text of that message; a message that has no text (an object with a
    [toString] of its own, or an array that holds one) makes the conversion
    throw, and the failure is reported as a network error with the message
    of what was thrown.  (So 204 counts the whole batch as succeeded, and
    500 with [{"error":"rate limited"}] counts it as failed with the message
    ["rate limited"].) *)
Theorem executeBatch_classifies (uToken : JsValue) (appKey : string)
    (batchNumber : nat) (batch : list string) (response : Response)
    (st : State) :
  let result :=
    executeBatch uToken appKey batchNumber batch (Resolves response) st in
  let recorded o :=
    (record_outcome (deleteRequest uToken appKey batch) batchNumber o st,
     Normal tt) in
  let errorMessage :=
    or_else (field (json_or_empty response) p_error)
      (or_else (field (field (json_or_empty response) p_status) p_message)
         (JStr ("HTTP " +:+ pretty (status response)))) in
  (status response = 200 ∨ status response = 204 →
   result = recorded (Succeeded (length batch)))
  ∧ (status response ≠ 200 → status response ≠ 204 →
     nullish (json_or_empty response) = false →
     (∀ text, to_text errorMessage = Some text →
        result = recorded (Failed (length batch) (ApiMessage text)))
     ∧ (to_text errorMessage = None →
        result
        = recorded
            (Failed (length batch)
               (NetworkError
                  [Lit "Cannot convert object to primitive value"])))
     ∧ (∀ s, errorMessage = JStr s →
        result = recorded (Failed (length batch) (ApiMessage [Lit s])))).
Proof.
  intros result recorded errorMessage. subst result recorded. cbv beta.
  rewrite executeBatch_outcome. unfold classify. split.
  - intros [->| ->]; [reflexivity|]. by rewrite orb_true_r.
  - intros H200 H204 Hbody.
    destruct (Z.eqb_spec (status response) 200); [done|].
    destruct (Z.eqb_spec (status response) 204); [done|].
    rewrite Hbody. cbn [orb].
    change (fallback_message response) with errorMessage.
    split; [|split].
    + by intros text ->.
    + by intros ->.
    + by intros s ->.
Qed.

Lemma executeBatch_classifies_witness :
  executeBatch (JStr "tok") "app" 2 ["A-1001"; "A-1002"]
    (Resolves no_content) initial
  = (record_outcome (deleteRequest (JStr "tok") "app" ["A-1001"; "A-1002"]) 2
       (Succeeded 2) initial, Normal tt)
  ∧ executeBatch (JStr "tok") "app" 2 ["A-1001"; "A-1002"]
      (Resolves rate_limited) initial
    = (record_outcome (deleteRequest (JStr "tok") "app" ["A-1001"; "A-1002"])
         2 (Failed 2 (ApiMessage [Lit "rate limited"])) initial, Normal tt)
  ∧ executeBatch (JStr "tok") "app" 2 ["A-1001"; "A-1002"]
      (Resolves no_text_error) initial
    = (record_outcome (deleteRequest (JStr "tok") "app" ["A-1001"; "A-1002"])
         2 (Failed 2
              (NetworkError [Lit "Cannot convert object to primitive value"]))
         initial, Normal tt).
Proof.
  split; [|split].
  - apply (executeBatch_classifies (JStr "tok") "app" 2 ["A-1001"; "A-1002"]
             no_content initial).
    right. reflexivity.
  - destruct (executeBatch_classifies (JStr "tok") "app" 2
                ["A-1001"; "A-1002"] rate_limited initial) as [_ Hfailed].
    destruct Hfailed as (_ & _ & Hstring);
      [simpl; lia | simpl; lia | reflexivity |].
    apply Hstring. reflexivity.
  - destruct (executeBatch_classifies (JStr "tok") "app" 2
                ["A-1001"; "A-1002"] no_text_error initial) as [_ Hfailed].
    destruct Hfailed as (_ & Hthrown & _);
      [simpl; lia | simpl; lia | reflexivity |].
    apply Hthrown. reflexivity.
Defined.

End BatchClaims.

Section LoopClaims.
Import Js Http Number Invalidator.

(** C4.  Whatever the request of a batch ends in — a rejection of [fetch],
    any status, a body that cannot be parsed, the body [null] — the
    [try]/[catch] statement completes normally with an outcome for the whole
    batch, and the loop goes on with the next batch; so when no round finds
    the flag set, every batch is sent. *)
Theorem batch_failures_do_not_stop_the_loop (uToken : JsValue)
    (appKey : string) (nChunks totalIds : nat) (env : Env) :
  (∀ batchNumber batch outcome st,
     ∃ o, executeBatch uToken appKey batchNumber batch outcome st
          = (record_outcome (deleteRequest uToken appKey batch) batchNumber
               o st, Normal tt)
          ∧ count o = length batch)
  ∧ (∀ i batch rest st,
       isCancelled (round env i) = false →
       batchLoop uToken appKey nChunks totalIds env i (batch :: rest) st
       = batchLoop uToken appKey nChunks totalIds env (S i) rest
           (after_round uToken appKey nChunks totalIds env i batch st))
  ∧ (∀ chunks st,
       (∀ i, isCancelled (round env i) = false) →
       ∃ st',
         batchLoop uToken appKey nChunks totalIds env 0 chunks st
         = (st', Normal tt)
         ∧ requests st'
           = requests st ++ (deleteRequest uToken appKey <$> chunks)).
Proof.
  split; [|split].
  - intros batchNumber batch outcome st.
    exists (classify (length batch) outcome).
    split; [apply executeBatch_outcome | apply classify_count].
  - intros i batch rest st. apply batchLoop_running.
  - intros chunks st Hrun.
    pose proof (batchLoop_prefix uToken appKey nChunks totalIds env 0
                  chunks [] st (λ j _, Hrun (0 + j)%nat)) as Hloop.
    rewrite app_nil_r in Hloop. rewrite Hloop. cbn [batchLoop].
    eexists. split; [reflexivity|]. apply after_rounds_requests.
Qed.

Lemma batch_failures_do_not_stop_the_loop_witness :
  ∃ st',
    batchLoop (JStr "tok") "app" 3 5 every_request_fails 0
      [["A-1"; "A-2"]; ["A-3"; "A-4"]; ["A-5"]] initial
    = (st', Normal tt)
    ∧ requests st'
      = requests initial
        ++ (deleteRequest (JStr "tok") "app"
              <$> [["A-1"; "A-2"]; ["A-3"; "A-4"]; ["A-5"]]).
Proof.
  apply (batch_failures_do_not_stop_the_loop (JStr "tok") "app" 3 5
           every_request_fails).
  intros i. reflexivity.
Defined.

(** C2.  If the loop finds the cancellation flag unset at the top of the
    first [k] rounds and set at the top of the next one (it was set at some
    point after the request of batch [k] went out), then exactly the first
    [k] batches are sent, in order; the later ones never are; batch [k]
    itself is completed and counted; and the three counters hold what the
    first [k] batches put there. *)
Theorem cancellation_between_batches (uToken : JsValue) (appKey : string)
    (nChunks totalIds : nat) (env : Env) (chunks : list (list string))
    (k : nat) (st : State) :
  (k ≤ length chunks)%nat →
  (∀ j, (j < k)%nat → isCancelled (round env j) = false) →
  ((k < length chunks)%nat → isCancelled (round env k) = true) →
  ∃ st',
    batchLoop uToken appKey nChunks totalIds env 0 chunks st
    = (st', Normal tt)
    ∧ requests st'
      = requests st ++ (deleteRequest uToken appKey <$> take k chunks)
    ∧ length (requests st') = (length (requests st) + k)%nat
    ∧ totalSuccessCount st'
      = (totalSuccessCount st
         + sum_list (succeeded_count <$> outcomes env 0 (take k chunks)))%nat
    ∧ totalFailCount st'
      = (totalFailCount st
         + sum_list (failed_count <$> outcomes env 0 (take k chunks)))%nat
    ∧ processedIdCount st'
      = (processedIdCount st + sum_list (length <$> take k chunks))%nat.
Proof.
  intros Hk Hbefore Hat.
  pose proof (batchLoop_run uToken appKey nChunks totalIds env 0 chunks st)
    as Hloop.
  cbv zeta in Hloop.
  rewrite (rounds_run_first env (length chunks) k Hk Hbefore Hat) in Hloop.
  set (st1 := after_rounds uToken appKey nChunks totalIds env 0
                (take k chunks) st) in *.
  assert (∃ st', batchLoop uToken appKey nChunks totalIds env 0 chunks st
                 = (st', Normal tt)
                 ∧ requests st' = requests st1
                 ∧ totalSuccessCount st' = totalSuccessCount st1
                 ∧ totalFailCount st' = totalFailCount st1
                 ∧ processedIdCount st' = processedIdCount st1)
    as (st' & Hrun & Hreq & Hsucc & Hfail & Hproc).
  { rewrite Hloop. destruct (k <? length chunks)%nat; eexists; done. }
  exists st'. split; [done|].
  rewrite Hreq, Hsucc, Hfail, Hproc. subst st1.
  rewrite after_rounds_requests, after_rounds_success, after_rounds_fail,
    after_rounds_processed.
  repeat split.
  rewrite length_app, length_fmap, length_take. lia.
Qed.

Lemma cancellation_between_batches_witness :
  ∃ st',
    batchLoop (JStr "tok") "app" 3 5 cancelled_after_first 0
      [["A-1"; "A-2"]; ["A-3"; "A-4"]; ["A-5"]] initial
    = (st', Normal tt)
    ∧ requests st' = [deleteRequest (JStr "tok") "app" ["A-1"; "A-2"]]
    ∧ totalSuccessCount st' = 2%nat
    ∧ totalFailCount st' = 0%nat
    ∧ processedIdCount st' = 2%nat.
Proof.
  destruct (cancellation_between_batches (JStr "tok") "app" 3 5
              cancelled_after_first
              [["A-1"; "A-2"]; ["A-3"; "A-4"]; ["A-5"]] 1 initial)
    as (st' & Hrun & Hreq & _ & Hsucc & Hfail & Hproc).
  - simpl. lia.
  - intros j Hj. assert (j = 0%nat) as -> by lia. reflexivity.
  - intros _. reflexivity.
  - exists st'. split; [exact Hrun|]. split; [exact Hreq|].
    split; [exact Hsucc|]. split; [exact Hfail | exact Hproc].
Defined.

End LoopClaims.

Section DiagnosticClaims.
Import Js Http Number Invalidator.

(** C8, as the specification has it, fails: two runs whose batches fail and
    hold different identifiers leave the same log, the same console output,
    the same page and the same counters.  The failed identifiers are in the
    requests and nowhere else: there is no record of them, and no set of
    them. *)
Lemma failed_identifiers_not_recorded :
  let run ids :=
    (startInvalidationProcess "app" "secret" ids every_batch_rate_limited
       initial).1 in
  logOutput (run ["A-1001"; "A-1002"]) = logOutput (run ["B-2001"; "B-2002"])
  ∧ console_error (run ["A-1001"; "A-1002"])
    = console_error (run ["B-2001"; "B-2002"])
  ∧ ui (run ["A-1001"; "A-1002"]) = ui (run ["B-2001"; "B-2002"])
  ∧ totalFailCount (run ["A-1001"; "A-1002"]) = 2%nat
  ∧ totalFailCount (run ["B-2001"; "B-2002"]) = 2%nat
  ∧ console_error (run ["A-1001"; "A-1002"])
    = [[Lit "FAILED: Batch "; Int 1; Lit " - "; Lit "rate limited"]].
Proof. by vm_compute. Qed.

(** C8, amended.  For a failed batch the [try]/[catch] statement writes one
    line, to the log and to the console, that names the number of the batch
    and the reason; it adds the size of the batch to [totalFailCount]; it
    completes normally, so that the loop goes on.  What it writes does not
    depend on the identifiers of the batch, only on their number. *)
Theorem failed_batch_logged_once (uToken : JsValue) (appKey : string)
    (batchNumber : nat) (batch batch' : list string) (outcome : FetchOutcome)
    (st : State) :
  is_failure (classify (length batch) outcome) = true →
  length batch' = length batch →
  let run ids := executeBatch uToken appKey batchNumber ids outcome st in
  let line := log_line batchNumber (classify (length batch) outcome) in
  (run batch).2 = Normal tt
  ∧ logOutput (run batch).1 = logOutput st ++ [line]
  ∧ console_error (run batch).1 = console_error st ++ [line]
  ∧ totalFailCount (run batch).1 = (totalFailCount st + length batch)%nat
  ∧ totalSuccessCount (run batch).1 = totalSuccessCount st
  ∧ processedIdCount (run batch).1 = processedIdCount st
  ∧ ui (run batch).1 = ui st
  ∧ logOutput (run batch').1 = logOutput (run batch).1
  ∧ console_error (run batch').1 = console_error (run batch).1
  ∧ totalFailCount (run batch').1 = totalFailCount (run batch).1.
Proof.
  intros Hfail Hlen run line. subst run line. cbv beta.
  rewrite !executeBatch_outcome. rewrite Hlen. cbn [fst snd].
  unfold record_outcome. cbn [logOutput console_error totalFailCount
    totalSuccessCount processedIdCount ui].
  rewrite Hfail, classify_count. done.
Qed.

Lemma failed_batch_logged_once_witness :
  let run ids :=
    executeBatch (JStr "tok") "app" 1 ids (Resolves rate_limited) initial in
  (run ["A-1001"; "A-1002"]).2 = Normal tt
  ∧ logOutput (run ["A-1001"; "A-1002"]).1
    = [[Lit "FAILED: Batch "; Int 1; Lit " - "; Lit "rate limited"]]
  ∧ totalFailCount (run ["A-1001"; "A-1002"]).1 = 2%nat
  ∧ logOutput (run ["B-2001"; "B-2002"]).1
    = logOutput (run ["A-1001"; "A-1002"]).1.
Proof.
  intros run.
  destruct (failed_batch_logged_once (JStr "tok") "app" 1
              ["A-1001"; "A-1002"] ["B-2001"; "B-2002"]
              (Resolves rate_limited) initial)
    as (Hnormal & Hlog & _ & Hfail & _ & _ & _ & Hlog' & _);
    [reflexivity | reflexivity |].
  split; [exact Hnormal|]. split; [exact Hlog|].
  split; [exact Hfail | exact Hlog'].
Defined.

End DiagnosticClaims.

Section CounterClaims.
Import Js Http Number Partitioner Invalidator.

(** C10.  In step 2 the loop starts with the three counters at zero.  At the
    top of every round it reaches, and when it ends,
    [processedIdCount = totalSuccessCount + totalFailCount]; every round adds
    the size of its batch to [processedIdCount] and to exactly one of the
    other two; and the summary line logged at the end, after a completed loop
    as after a cancelled one, shows the two totals as they then are. *)
Theorem counters_agree_and_summary (uToken : JsValue) (appKey : string)
    (allOrderIds : list string) (env : Env) (st : State) :
  ∃ chunks k,
    chunkArray (length allOrderIds) allOrderIds BATCH_SIZE = Some chunks
    ∧ k = rounds_run env 0 (length chunks)
    ∧ (k ≤ length chunks)%nat
    ∧ let st0 := loop_start allOrderIds st in
      let loop_from i rest :=
        batchLoop uToken appKey (length chunks) (length allOrderIds) env
          i rest in
      let state_after j :=
        after_rounds uToken appKey (length chunks) (length allOrderIds) env 0
          (take j chunks) st0 in
      let final :=
        (invalidateOrdersInBatches uToken appKey allOrderIds env st).1 in
      (totalSuccessCount st0 = 0 ∧ totalFailCount st0 = 0
       ∧ processedIdCount st0 = 0)%nat
      ∧ (∀ j, (j ≤ k)%nat →
           loop_from 0%nat chunks st0
           = loop_from j (drop j chunks) (state_after j)
           ∧ processedIdCount (state_after j)
             = (totalSuccessCount (state_after j)
                + totalFailCount (state_after j))%nat)
      ∧ (∀ j batch, (j < k)%nat → chunks !! j = Some batch →
           processedIdCount (state_after (S j))
           = (processedIdCount (state_after j) + length batch)%nat
           ∧ ((totalSuccessCount (state_after (S j))
               = (totalSuccessCount (state_after j) + length batch)%nat
               ∧ totalFailCount (state_after (S j))
                 = totalFailCount (state_after j))
              ∨ (totalSuccessCount (state_after (S j))
                 = totalSuccessCount (state_after j)
                 ∧ totalFailCount (state_after (S j))
                   = (totalFailCount (state_after j) + length batch)%nat)))
      ∧ (invalidateOrdersInBatches uToken appKey allOrderIds env st).2
        = Normal tt
      ∧ totalSuccessCount final = totalSuccessCount (state_after k)
      ∧ totalFailCount final = totalFailCount (state_after k)
      ∧ processedIdCount final = processedIdCount (state_after k)
      ∧ processedIdCount final
        = (totalSuccessCount final + totalFailCount final)%nat
      ∧ processedIdCount final = sum_list (length <$> take k chunks)
      ∧ ∃ earlier,
          logOutput final
          = earlier
            ++ [[Lit "--- PROCESSING COMPLETE ---"];
                [Lit "Summary: "; Int (Z.of_nat (totalSuccessCount final));
                 Lit " succeeded, "; Int (Z.of_nat (totalFailCount final));
                 Lit " failed."];
                total_time_line env].
Proof.
  destruct (BATCH_SIZE_partition allOrderIds) as (chunks & Hchunks & _).
  exists chunks, (rounds_run env 0 (length chunks)).
  split; [done|]. split; [done|]. split; [apply rounds_run_le|].
  intros st0 loop_from state_after final.
  set (k := rounds_run env 0 (length chunks)).
  assert (counters_agree st0) as Hst0 by done.
  assert (∀ j, counters_agree (state_after j)) as Hagree.
  { intros j. by apply after_rounds_counters_agree. }
  assert (final = summarised env
                    (loop_end uToken appKey env (length allOrderIds) chunks
                       st0)) as Hfinal.
  { unfold final. by rewrite (invalidateOrdersInBatches_run _ _ _ _ chunks). }
  clearbody final.
  assert (totalSuccessCount final = totalSuccessCount (state_after k)
          ∧ totalFailCount final = totalFailCount (state_after k)
          ∧ processedIdCount final = processedIdCount (state_after k))
    as (Hsucc & Hfail & Hproc).
  { rewrite Hfinal. unfold loop_end. fold k.
    by destruct (k <? length chunks)%nat. }
  split; [done|]. split; [|split].
  - intros j Hj. split; [|apply Hagree].
    subst loop_from state_after. cbv beta.
    rewrite <-(take_drop j chunks) at 2.
    rewrite batchLoop_prefix.
    + rewrite length_take, Nat.min_l; [done|].
      pose proof (rounds_run_le env 0 (length chunks)). lia.
    + intros i Hi. rewrite length_take in Hi.
      apply (rounds_run_before env 0 (length chunks)). fold k. lia.
  - intros j batch Hj Hbatch.
    assert (state_after (S j)
            = after_round uToken appKey (length chunks) (length allOrderIds)
                env j batch (state_after j)) as ->.
    { subst state_after. cbv beta. rewrite (take_S_r _ _ _ Hbatch).
      rewrite after_rounds_snoc. rewrite length_take, Nat.min_l; [done|].
      apply lookup_lt_Some in Hbatch. lia. }
    rewrite after_round_processed, after_round_success, after_round_fail.
    split; [done|].
    destruct (outcome_at_one_counter env j batch) as [[-> ->]|[-> ->]];
      [left | right]; split; lia.
  - split.
    { by rewrite (invalidateOrdersInBatches_run _ _ _ _ chunks). }
    split; [done|]. split; [done|]. split; [done|].
    split; [rewrite Hsucc, Hfail, Hproc; apply Hagree|].
    split.
    { rewrite Hproc. subst state_after. cbv beta.
      by rewrite after_rounds_processed. }
    exists (logOutput (loop_end uToken appKey env (length allOrderIds) chunks
                         st0)).
    rewrite Hfinal, summarised_log. reflexivity.
Qed.

End CounterClaims.

(** ** Claims about the credential *)

Section CredentialClaims.
Import Js Http Number Invalidator.

Lemma exchange_fails_raises (outcome : FetchOutcome) :
  exchange_fails outcome → ∃ e, token_result outcome = inl e.
Proof.
  unfold exchange_fails, token_result.
  destruct outcome as [r|reason]; [|by eauto].
  destruct (body r) as [data|reason]; [|by eauto].
  destruct (ok r); cbn [negb].
  - intros [?|Hnone]; [done|]. rewrite Hnone.
    destruct (nullish data); eauto.
  - intros _. destruct (nullish data); [by eauto|].
    destruct (to_text _); eauto.
Qed.

(** C5, as the specification has it, fails in its last part: an answer with
    a success status, no token and an [error_description] raises the fixed
    message, not the description. *)
Lemma token_not_found_hides_description :
  (generateUToken "app" "secret" (Resolves ok_without_token) initial).2
  = Throw {| message := [Lit "Token not found in authentication response."] |}
  ∧ field (JObj [("error_description", JStr "client is suspended")])
      p_error_description
    = JStr "client is suspended"
  ∧ logOutput
      (startInvalidationProcess "app" "secret" ["A-1001"]
         {| tokenResponse := Resolves ok_without_token; startTime := 0;
            round := λ _, {| isCancelled := false;
                             batchResponse := Resolves no_content;
                             clock := 0 |};
            endTime := 0 |} initial).1
    = [[Lit "Starting process for "; Int 1; Lit " orders..."];
       [Lit "Step 1: Generating uToken..."];
       [Lit "❌ CRITICAL ERROR: ";
        Lit "Token not found in authentication response."];
       [Lit "Process stopped. Please check credentials and try again."]].
Proof. by vm_compute. Qed.

Lemma setupUIForProcessing_normal (totalOrders : nat) (st : State) :
  (setupUIForProcessing totalOrders st).2 = Normal tt
  ∧ requests (setupUIForProcessing totalOrders st).1 = requests st
  ∧ logOutput (setupUIForProcessing totalOrders st).1
    = [[Lit "Starting process for "; Int (Z.of_nat totalOrders);
        Lit " orders..."]]
  ∧ totalSuccessCount (setupUIForProcessing totalOrders st).1
    = totalSuccessCount st
  ∧ totalFailCount (setupUIForProcessing totalOrders st).1
    = totalFailCount st
  ∧ processedIdCount (setupUIForProcessing totalOrders st).1
    = processedIdCount st.
Proof. done. Qed.

(** The run when the exchange raises [e]: the error is caught and logged,
    and the [finally] block runs. *)
Lemma startInvalidationProcess_aborted (appKey secretKey : string)
    (allOrderIds : list string) (env : Env) (st : State) (e : JsError) :
  allOrderIds ≠ [] → appKey ≠ "" → secretKey ≠ "" →
  token_result (tokenResponse env) = inl e →
  let st1 := (setupUIForProcessing (length allOrderIds) st).1 in
  startInvalidationProcess appKey secretKey allOrderIds env st
  = ((write_ui (invalidateBtn_disabled true)
        (write_ui (invalidateBtn_textContent "Finished")
           (set_isProcessing false
              (logToScreen
                 [Lit "Process stopped. Please check credentials and try again."]
                 false
                 (logToScreen (Lit "❌ CRITICAL ERROR: " :: message e) true
                    (token_requested appKey secretKey st1)).1).1).1).1).1,
     Normal tt).
Proof.
  intros Hids HappKey Hsecret Hfail st1. subst st1.
  unfold startInvalidationProcess.
  destruct (Nat.eqb_spec (length allOrderIds) 0) as [Hz|_].
  { by apply nil_length_inv in Hz. }
  apply String.eqb_neq in HappKey, Hsecret. rewrite HappKey, Hsecret.
  cbn [orb]. unfold bind at 1.
  pose proof (setupUIForProcessing_normal (length allOrderIds) st)
    as (Hc & _).
  destruct (setupUIForProcessing (length allOrderIds) st) as [st1 c].
  cbn [fst snd] in *. subst c.
  unfold try_finally, try_catch. unfold bind at 1.
  rewrite generateUToken_result, Hfail. reflexivity.
Qed.

(** C5, amended.  When the exchange fails — the request does not complete,
    the status is not a success status, or the answer holds no token — an
    error is raised, no batch is sent (the only request of the run is the
    one for the token), the counters stay as they were, the error is logged,
    and the run ends with [isProcessing] reset.  When the status is not a
    success status and the parsed body has an [error_description] that
    counts as true, the message of the error is the text of that
    description; a description that has no text (an object with a
    [toString] of its own, or an array that holds one) makes the conversion
    throw, and the error is the TypeError of the conversion. *)
Theorem credential_failure_stops_the_run (appKey secretKey : string)
    (allOrderIds : list string) (env : Env) (st : State) :
  allOrderIds ≠ [] → appKey ≠ "" → secretKey ≠ "" →
  exchange_fails (tokenResponse env) →
  let st1 := (setupUIForProcessing (length allOrderIds) st).1 in
  let final := startInvalidationProcess appKey secretKey allOrderIds env st in
  ∃ e,
    (generateUToken appKey secretKey (tokenResponse env) st1).2 = Throw e
    ∧ final.2 = Normal tt
    ∧ requests final.1 = requests st ++ [tokenRequest appKey secretKey]
    ∧ totalSuccessCount final.1 = totalSuccessCount st
    ∧ totalFailCount final.1 = totalFailCount st
    ∧ processedIdCount final.1 = processedIdCount st
    ∧ isProcessing final.1 = false
    ∧ logOutput final.1
      = [[Lit "Starting process for "; Int (Z.of_nat (length allOrderIds));
          Lit " orders..."];
         [Lit "Step 1: Generating uToken..."];
         Lit "❌ CRITICAL ERROR: " :: message e;
         [Lit "Process stopped. Please check credentials and try again."]]
    ∧ (∀ r data,
         tokenResponse env = Resolves r → ok r = false →
         body r = BodyJson data → nullish data = false →
         truthy (field data p_error_description) = true →
         match to_text (field data p_error_description) with
         | Some cause => message e = Lit "Token generation failed: " :: cause
         | None =>
             message e = [Lit "Cannot convert object to primitive value"]
         end).
Proof.
  intros Hids HappKey Hsecret Hfails st1 final.
  destruct (exchange_fails_raises _ Hfails) as [e He].
  exists e. subst final.
  rewrite (startInvalidationProcess_aborted appKey secretKey allOrderIds env
             st e Hids HappKey Hsecret He).
  rewrite generateUToken_result, He. cbn [fst snd].
  repeat (split; [done|]).
  intros r data Hr Hok Hbody Hnull Hdesc.
  rewrite Hr in He. unfold token_result in He.
  rewrite Hbody, Hok, Hnull in He. cbn [negb] in He.
  unfold or_else in He. rewrite Hdesc in He.
  destruct (to_text (field data p_error_description));
    by injection He as <-.
Qed.

Lemma credential_failure_stops_the_run_witness :
  let final :=
    startInvalidationProcess "app" "secret" ["A-1001"; "A-1002"]
      {| tokenResponse := Resolves unauthorized; startTime := 0;
         round := λ _, {| isCancelled := false;
                          batchResponse := Resolves no_content;
                          clock := 0 |};
         endTime := 0 |} initial in
  ∃ e,
    final.2 = Normal tt
    ∧ requests final.1 = [tokenRequest "app" "secret"]
    ∧ message e
      = [Lit "Token generation failed: "; Lit "invalid client secret"].
Proof.
  intros final.
  destruct (credential_failure_stops_the_run "app" "secret"
              ["A-1001"; "A-1002"]
              {| tokenResponse := Resolves unauthorized; startTime := 0;
                 round := λ _, {| isCancelled := false;
                                  batchResponse := Resolves no_content;
                                  clock := 0 |};
                 endTime := 0 |} initial)
    as (e & _ & Hnormal & Hreq & _ & _ & _ & _ & _ & Hcause);
    [discriminate | discriminate | discriminate | left; reflexivity |].
  exists e. split; [exact Hnormal|]. split; [exact Hreq|].
  apply (Hcause unauthorized
           (JObj [("error_description", JStr "invalid client secret")]));
    reflexivity.
Defined.

End CredentialClaims.

(** ** Claims about the progress estimator *)

Section ProgressClaims.
Import Js Http Number Invalidator.

(** With nothing processed the division is by zero, and what comes out is
    an infinity or not a number. *)
Lemma etrMs_nothing_processed (current total elapsedTime : spec_float) :
  is_zero current = true →
  isFinite (etrMs current total elapsedTime) = false.
Proof.
  destruct current as [sc| | |]; try discriminate. intros _.
  destruct elapsedTime as [se|se| |se me ee], total as [st|st| |st mt et];
    try reflexivity;
    destruct sc; try destruct st; try destruct se; reflexivity.
Qed.

Lemma formatTime_unavailable (ms : spec_float) :
  ltb ms zero || negb (isFinite ms) = true → formatTime ms = [Lit "N/A"].
Proof. intros H. unfold formatTime. by rewrite H. Qed.

(** C6, as the specification has it, fails: a value below zero is reported
    as unavailable although something was processed and the value is
    finite; and a value that is reported is reported in whole seconds (1400
    ms as one second). *)
Lemma eta_negative_is_unavailable :
  is_zero (of_Z 1) = false
  ∧ etrMs (of_Z 1) (of_Z 2) (of_Z (-5)) = of_Z (-5)
  ∧ isFinite (etrMs (of_Z 1) (of_Z 2) (of_Z (-5))) = true
  ∧ formatTime (etrMs (of_Z 1) (of_Z 2) (of_Z (-5))) = [Lit "N/A"]
  ∧ etrMs (of_Z 1) (of_Z 2) (of_Z 1400) = of_Z 1400
  ∧ formatTime (etrMs (of_Z 1) (of_Z 2) (of_Z 1400))
    = [Num (of_Z 1); Lit "s"].
Proof. by vm_compute. Qed.

(** C6, amended.  The value is [(total - current) * (elapsed / current)] in
    double arithmetic.  It is reported as unavailable when [current] is
    zero, when the value is not finite, and when it is below zero.  A value
    of zero is reported as zero seconds.  For a value above zero, what is
    reported is read off its quotient by 1000, a double: with [n] the
    integer nearest to that double (a half going upwards), and [n] below
    [2 ^ 52], the report is [n] seconds exactly, as [n / 60] minutes (when
    there are any) and [n mod 60] seconds.  (The quotient of a double by
    1000 is finite; the hypothesis is there for the values of [spec_float]
    that are no doubles.)  [updateProgressUI] writes this report to the
    page. *)
Theorem eta_reported (current total elapsedTime : spec_float) :
  let ms := etrMs current total elapsedTime in
  let quotient := div ms (of_Z 1000) in
  ms = mul (sub total current) (div elapsedTime current)
  ∧ (is_zero current = true → formatTime ms = [Lit "N/A"])
  ∧ (isFinite ms = false → formatTime ms = [Lit "N/A"])
  ∧ (ltb ms zero = true → formatTime ms = [Lit "N/A"])
  ∧ (is_zero ms = true → formatTime ms = [Num ms; Lit "s"])
  ∧ (isFinite ms = true → ltb zero ms = true →
     isFinite quotient = true → nearest (value quotient) < 2 ^ 52 →
     formatTime ms = shown (nearest (value quotient))
     ∧ 0 ≤ nearest (value quotient)
     ∧ (2 * inject_Z (nearest (value quotient)) - 1 <= 2 * value quotient)%Q
     ∧ (2 * value quotient < 2 * inject_Z (nearest (value quotient)) + 1)%Q)
  ∧ (∀ (processed totalIds : nat) (startTime now : Z) (st : State),
       last (ui (updateProgressUI processed totalIds startTime now st).1)
       = Some (etrText_textContent
                 (Lit "Est. time remaining: "
                  :: formatTime
                       (etrMs (of_Z (Z.of_nat processed))
                          (of_Z (Z.of_nat totalIds))
                          (sub (of_Z now) (of_Z startTime)))))).
Proof.
  intros ms quotient. split; [done|].
  split; [|split; [|split; [|split; [|split]]]].
  - intros Hzero. apply formatTime_unavailable.
    subst ms. rewrite etrMs_nothing_processed by done. apply orb_true_r.
  - intros Hinf. apply formatTime_unavailable. rewrite Hinf.
    apply orb_true_r.
  - intros Hneg. apply formatTime_unavailable. by rewrite Hneg.
  - intros Hzero. destruct ms as [[]| | |]; done.
  - intros Hfin Hpos Hq Hsmall.
    split; [by apply formatTime_shown|]. apply nearest_bounds.
    subst quotient. destruct ms as [|[]| |[] mx ex]; try done.
    apply div_1000_sign.
  - intros processed totalIds startTime now st.
    cbn [updateProgressUI]. unfold updateProgressUI, bind, write_ui, modify.
    cbn [fst ui]. by rewrite last_snoc.
Qed.

Lemma eta_reported_witness :
  formatTime (etrMs (of_Z 0) (of_Z 12) (of_Z 700)) = [Lit "N/A"]
  ∧ formatTime (etrMs (of_Z 5) (of_Z 12) (of_Z 65000))
    = [Num (of_Z 1); Lit "m "; Num (of_Z 31); Lit "s"]
  ∧ formatTime (etrMs (of_Z 1) (of_Z 2) (of_Z 1500)) = [Num (of_Z 2); Lit "s"].
Proof.
  split; [|split].
  - destruct (eta_reported (of_Z 0) (of_Z 12) (of_Z 700)) as (_ & Hzero & _).
    apply Hzero. reflexivity.
  - destruct (eta_reported (of_Z 5) (of_Z 12) (of_Z 65000))
      as (_ & _ & _ & _ & _ & Hshown & _).
    destruct Hshown as [Hshown _];
      [reflexivity | reflexivity | reflexivity | by vm_compute |].
    rewrite Hshown. by vm_compute.
  - destruct (eta_reported (of_Z 1) (of_Z 2) (of_Z 1500))
      as (_ & _ & _ & _ & _ & Hshown & _).
    destruct Hshown as [Hshown _];
      [reflexivity | reflexivity | reflexivity | by vm_compute |].
    rewrite Hshown. by vm_compute.
Defined.

End ProgressClaims.

(** ** Worked examples *)

Section WorkedExamples.
Import Js Http Number Partitioner Invalidator.

Example chunkArray_12_by_5 :
  chunkArray 12 (seq 1 12) 5
  = Some [[1; 2; 3; 4; 5]; [6; 7; 8; 9; 10]; [11; 12]]%nat.
Proof. reflexivity. Qed.

Example chunkArray_exact_multiple :
  chunkArray 4 ["a"; "b"; "c"; "d"] 2 = Some [["a"; "b"]; ["c"; "d"]].
Proof. reflexivity. Qed.

Example chunkArray_empty : chunkArray 0 ([] : list string) 5 = Some [].
Proof. reflexivity. Qed.

(** Twelve identifiers in batches of five; the second batch fails, the
    others succeed: 7 succeeded, 5 failed, 12 processed, three requests. *)
Example twelve_by_five_second_fails :
  let ids := ["1"; "2"; "3"; "4"; "5"; "6"; "7"; "8"; "9"; "10"; "11"; "12"] in
  let env :=
    {| tokenResponse := Resolves no_content; startTime := 0;
       round := λ i, {| isCancelled := false;
                        batchResponse :=
                          if (i =? 1)%nat then Resolves rate_limited
                          else Resolves no_content;
                        clock := 600 * Z.of_nat (S i) |};
       endTime := 2000 |} in
  match chunkArray 12 ids 5 with
  | Some chunks =>
      let st := (batchLoop (JStr "tok") "app" 3 12 env 0 chunks initial).1 in
      length <$> chunks = [5; 5; 2]%nat
      ∧ totalSuccessCount st = 7%nat
      ∧ totalFailCount st = 5%nat
      ∧ processedIdCount st = 12%nat
      ∧ length (requests st) = 3%nat
  | None => False
  end.
Proof. by vm_compute. Qed.

Example formatTime_minutes_and_seconds :
  formatTime (of_Z 90500)
  = [Num (of_Z 1); Lit "m "; Num (of_Z 31); Lit "s"]
  ∧ formatTime (of_Z 59000) = [Num (of_Z 59); Lit "s"]
  ∧ formatTime (S754_infinity false) = [Lit "N/A"]
  ∧ formatTime S754_nan = [Lit "N/A"].
Proof. by vm_compute. Qed.

(** Beyond the range of C6 the minutes can be off: here the nearest second
    is [60 * 2 ^ 50 + 56], and the report has one minute too many. *)
Example formatTime_beyond_range :
  let ms := of_Z ((60 * (2 ^ 50 + 1) - 4) * 1000) in
  nearest (value (div ms (of_Z 1000))) = 60 * 2 ^ 50 + 56
  ∧ formatTime ms
    = [Num (of_Z (2 ^ 50 + 1)); Lit "m "; Num (of_Z 56); Lit "s"].
Proof. by vm_compute. Qed.

Example Math_round_ties :
  Math_round (div (of_Z 5) (of_Z 2)) = of_Z 3
  ∧ Math_round (div (of_Z (-5)) (of_Z 2)) = of_Z (-2)
  ∧ Math_round (div (of_Z (-1)) (of_Z 2)) = S754_zero true
  ∧ Math_floor (div (of_Z (-1)) (of_Z 2)) = of_Z (-1)
  ∧ rem (of_Z 125) (of_Z 60) = of_Z 5.
Proof. by vm_compute. Qed.

End WorkedExamples.

(** * Further properties *)

(** ** The run as a whole *)

Section WholeRunFacts.
Import Js Http Number Partitioner Invalidator.

Lemma start_refused_false (appKey secretKey : string)
    (allOrderIds : list string) :
  start_refused appKey secretKey allOrderIds = false
  ↔ allOrderIds ≠ [] ∧ appKey ≠ "" ∧ secretKey ≠ "".
Proof.
  unfold start_refused. rewrite !orb_false_iff, Nat.eqb_neq, !String.eqb_neq.
  split.
  - intros [[Hids ?] ?]. repeat split; [|done..]. intros ->. by apply Hids.
  - intros (Hids & ? & ?). repeat split; [|done..].
    intros Hz. by apply nil_length_inv in Hz.
Qed.

(** A start that is refused. *)
Lemma startInvalidationProcess_refused (appKey secretKey : string)
    (allOrderIds : list string) (env : Env) (st : State) :
  start_refused appKey secretKey allOrderIds = true →
  startInvalidationProcess appKey secretKey allOrderIds env st
  = write_ui
      (alert (if (length allOrderIds =? 0)%nat
              then "Please paste or import at least one Order ID."
              else "Please provide both an App Key and a Secret Key.")) st.
Proof.
  unfold start_refused, startInvalidationProcess.
  destruct (length allOrderIds =? 0)%nat; [reflexivity|].
  cbn [orb]. intros ->. reflexivity.
Qed.

(** A run that is started, with its partition at hand. *)
Lemma startInvalidationProcess_run (appKey secretKey : string)
    (allOrderIds : list string) (orderIdChunks : list (list string))
    (env : Env) (st : State) :
  start_refused appKey secretKey allOrderIds = false →
  chunkArray (length allOrderIds) allOrderIds BATCH_SIZE = Some orderIdChunks →
  startInvalidationProcess appKey secretKey allOrderIds env st
  = (run_end appKey secretKey allOrderIds orderIdChunks env st, Normal tt).
Proof.
  intros Hstart Hchunks. unfold run_end.
  destruct (token_result (tokenResponse env)) as [e|uToken] eqn:Htoken.
  - apply start_refused_false in Hstart as (Hids & HappKey & Hsecret).
    by rewrite (startInvalidationProcess_aborted appKey secretKey allOrderIds
                  env st e Hids HappKey Hsecret Htoken).
  - unfold start_refused in Hstart.
    apply orb_false_iff in Hstart as [Hstart Hsecret].
    apply orb_false_iff in Hstart as [Hids HappKey].
    unfold startInvalidationProcess.
    rewrite Hids, HappKey, Hsecret. cbn [orb]. unfold bind at 1.
    pose proof (setupUIForProcessing_normal (length allOrderIds) st)
      as (Hc & _).
    destruct (setupUIForProcessing (length allOrderIds) st) as [st1 c].
    cbn [fst snd] in *. subst c.
    unfold try_finally, try_catch. unfold bind at 1.
    rewrite generateUToken_result, Htoken.
    rewrite (invalidateOrdersInBatches_run _ _ _ _ orderIdChunks _ Hchunks).
    reflexivity.
Qed.

Lemma finished_ui (st : State) :
  ui (finished st)
  = ui st ++ [invalidateBtn_textContent "Finished";
              invalidateBtn_disabled true].
Proof. cbn. by rewrite <-app_assoc. Qed.

Lemma loop_end_requests (uToken : JsValue) (appKey : string) (env : Env)
    (totalIds : nat) (chunks : list (list string)) (st : State) :
  requests (loop_end uToken appKey env totalIds chunks st)
  = requests st
    ++ (deleteRequest uToken appKey
          <$> take (rounds_run env 0 (length chunks)) chunks).
Proof.
  unfold loop_end.
  rewrite <-(after_rounds_requests uToken appKey (length chunks) totalIds
               env 0).
  by destruct (_ <? _)%nat.
Qed.

Lemma run_end_requests (appKey secretKey : string)
    (allOrderIds : list string) (orderIdChunks : list (list string))
    (env : Env) (st : State) :
  requests (run_end appKey secretKey allOrderIds orderIdChunks env st)
  = requests st
    ++ tokenRequest appKey secretKey
       :: match token_result (tokenResponse env) with
          | inl _ => []
          | inr uToken =>
              deleteRequest uToken appKey
                <$> take (rounds_run env 0 (length orderIdChunks))
                      orderIdChunks
          end.
Proof.
  unfold run_end. destruct (token_result (tokenResponse env)) as [e|uToken].
  - reflexivity.
  - change (requests (finished (summarised env ?s))) with (requests s).
    rewrite loop_end_requests. cbn [loop_start token_obtained
      token_requested logToScreen modify set_counters with_request requests
      fst].
    by rewrite <-app_assoc.
Qed.

Lemma token_result_truthy (outcome : FetchOutcome) (uToken : JsValue) :
  token_result outcome = inr uToken → truthy uToken = true.
Proof.
  unfold token_result. destruct outcome as [r|reason]; [|done].
  destruct (body r) as [data|reason]; [|done].
  destruct (negb (ok r));
    [destruct (nullish data); [done|]; by destruct (to_text _)|].
  destruct (nullish data); [done|].
  destruct (truthy (field data p_access_token)) eqn:Htruthy; [|done].
  by intros [= <-].
Qed.

End WholeRunFacts.

Section WholeRunProperties.
Import Js Http Number Partitioner Invalidator.

(** X1.  A start with an empty list of identifiers, or with an empty key or
    secret, is refused: the page shows one alert (the one about the
    identifiers when the list is empty), and nothing else happens; no
    request is sent, nothing is logged, the flag and the counters stay as
    they were. *)
Theorem refused_start_only_alerts (appKey secretKey : string)
    (allOrderIds : list string) (env : Env) (st : State) :
  allOrderIds = [] ∨ appKey = "" ∨ secretKey = "" →
  let final := startInvalidationProcess appKey secretKey allOrderIds env st in
  final.2 = Normal tt
  ∧ ui final.1
    = ui st
      ++ [alert (match allOrderIds with
                 | [] => "Please paste or import at least one Order ID."
                 | _ => "Please provide both an App Key and a Secret Key."
                 end)]
  ∧ requests final.1 = requests st
  ∧ logOutput final.1 = logOutput st
  ∧ console_error final.1 = console_error st
  ∧ isProcessing final.1 = isProcessing st
  ∧ totalSuccessCount final.1 = totalSuccessCount st
  ∧ totalFailCount final.1 = totalFailCount st
  ∧ processedIdCount final.1 = processedIdCount st.
Proof.
  intros Hrefused final. subst final. unfold startInvalidationProcess.
  destruct allOrderIds as [|id ids]; [done|]. cbn [length Nat.eqb].
  destruct Hrefused as [?|[-> | ->]]; [done|done|].
  by destruct (String.eqb appKey "").
Qed.

Lemma refused_start_only_alerts_witness :
  let final :=
    startInvalidationProcess "app" "" ["A-1001"] every_batch_rate_limited
      initial in
  final.2 = Normal tt
  ∧ ui final.1 = [alert "Please provide both an App Key and a Secret Key."]
  ∧ requests final.1 = [].
Proof.
  intros final.
  destruct (refused_start_only_alerts "app" "" ["A-1001"]
              every_batch_rate_limited initial)
    as (Hnormal & Hui & Hreq & _); [right; right; reflexivity|].
  split; [exact Hnormal|]. split; [exact Hui | exact Hreq].
Defined.

(** X2.  Whatever the fields hold and however the service answers each
    request, the run completes: no error leaves [startInvalidationProcess],
    and the partitioning comes to an end.
    A run that was started ends with [isProcessing] false and with the
    button set to "Finished" and disabled, after a failed exchange, after a
    cancellation and after a full run alike. *)
Theorem run_always_finishes (appKey secretKey : string)
    (allOrderIds : list string) (env : Env) (st : State) :
  let final := startInvalidationProcess appKey secretKey allOrderIds env st in
  final.2 = Normal tt
  ∧ (allOrderIds ≠ [] → appKey ≠ "" → secretKey ≠ "" →
     isProcessing final.1 = false
     ∧ ∃ earlier,
         ui final.1
         = earlier ++ [invalidateBtn_textContent "Finished";
                       invalidateBtn_disabled true]).
Proof.
  intros final. subst final.
  destruct (BATCH_SIZE_partition allOrderIds) as (chunks & Hchunks & _).
  destruct (start_refused appKey secretKey allOrderIds) eqn:Hstart.
  - split.
    + by rewrite startInvalidationProcess_refused.
    + intros Hids HappKey Hsecret.
      assert (start_refused appKey secretKey allOrderIds = false) as Hno
        by (by apply start_refused_false).
      congruence.
  - rewrite (startInvalidationProcess_run _ _ _ chunks _ _ Hstart Hchunks).
    cbn [fst snd]. split; [done|]. intros _ _ _. split; [done|].
    unfold run_end. rewrite finished_ui. eauto.
Qed.

Lemma run_always_finishes_witness :
  let final :=
    startInvalidationProcess "app" "secret" ["A-1001"; "A-1002"]
      every_request_fails initial in
  final.2 = Normal tt
  ∧ isProcessing final.1 = false
  ∧ ∃ earlier,
      ui final.1
      = earlier ++ [invalidateBtn_textContent "Finished";
                    invalidateBtn_disabled true].
Proof.
  intros final.
  destruct (run_always_finishes "app" "secret" ["A-1001"; "A-1002"]
              every_request_fails initial) as [Hnormal Hstarted].
  split; [exact Hnormal|]. apply Hstarted; discriminate.
Defined.

(** X3.  The requests of a run that was started: first the one for the
    token; then, if the exchange gave a token (which is then a value that
    counts as true), one DELETE request per round that ran, to the endpoint
    of the application, each with that token and with the identifiers of its
    batch, in the order of the batches; if the exchange failed, none. *)
Theorem requests_of_a_run (appKey secretKey : string)
    (allOrderIds : list string) (env : Env) (st : State) :
  allOrderIds ≠ [] → appKey ≠ "" → secretKey ≠ "" →
  let final := startInvalidationProcess appKey secretKey allOrderIds env st in
  ∃ orderIdChunks,
    chunkArray (length allOrderIds) allOrderIds BATCH_SIZE = Some orderIdChunks
    ∧ match (generateUToken appKey secretKey (tokenResponse env)
               (setupUIForProcessing (length allOrderIds) st).1).2 with
      | Normal uToken =>
          truthy uToken = true
          ∧ requests final.1
            = requests st
              ++ tokenRequest appKey secretKey
                 :: (deleteRequest uToken appKey
                       <$> take (rounds_run env 0 (length orderIdChunks))
                             orderIdChunks)
      | Throw _ =>
          requests final.1 = requests st ++ [tokenRequest appKey secretKey]
      | Hang => False
      end.
Proof.
  intros Hids HappKey Hsecret final. subst final.
  destruct (BATCH_SIZE_partition allOrderIds) as (chunks & Hchunks & _).
  exists chunks. split; [done|].
  assert (start_refused appKey secretKey allOrderIds = false) as Hstart
    by (by apply start_refused_false).
  rewrite (startInvalidationProcess_run _ _ _ chunks _ _ Hstart Hchunks).
  rewrite generateUToken_result. cbn [fst]. rewrite run_end_requests.
  destruct (token_result (tokenResponse env)) as [e|uToken] eqn:Htoken;
    cbn [snd]; [done|].
  split; [by eapply token_result_truthy | done].
Qed.

Lemma requests_of_a_run_witness :
  requests
    (startInvalidationProcess "app" "secret" ["A-1001"; "A-1002"]
       every_batch_rate_limited initial).1
  = [tokenRequest "app" "secret";
     deleteRequest (JStr "tok") "app" ["A-1001"; "A-1002"]].
Proof.
  destruct (requests_of_a_run "app" "secret" ["A-1001"; "A-1002"]
              every_batch_rate_limited initial)
    as (chunks & Hchunks & Hreq); [discriminate..|].
  injection Hchunks as <-. exact (proj2 Hreq).
Defined.

End WholeRunProperties.

(** ** More on the partitioner *)

Section PartitionerMore.
Import JsArray Partitioner.
Context {A : Type}.
Implicit Types (array l c : list A) (chunks cs : list (list A)).

(** More fuel than needed changes nothing. *)
Lemma chunkArray_loop_more_fuel (fuel fuel' : nat) array (size i : Z)
    chunks cs :
  chunkArray_loop fuel array size i chunks = Some cs →
  (fuel ≤ fuel')%nat →
  chunkArray_loop fuel' array size i chunks = Some cs.
Proof.
  revert fuel' i chunks.
  induction fuel as [|fuel IH]; intros fuel' i chunks; simpl.
  - destruct (i <? Z.of_nat (length array)) eqn:Hi; [done|].
    intros Hcs _. destruct fuel'; simpl; by rewrite Hi.
  - destruct (i <? Z.of_nat (length array)) eqn:Hi.
    + intros Hcs Hle. destruct fuel' as [|fuel']; [lia|]. simpl.
      rewrite Hi. apply IH; [done | lia].
    + intros Hcs _. destruct fuel'; simpl; by rewrite Hi.
Qed.

Lemma is_partition_bounds (B : Z) l cs :
  0 < B → is_partition B l cs →
  Forall (λ c, (0 < length c)%nat ∧ Z.of_nat (length c) ≤ B) cs.
Proof.
  intros HB (_ & _ & Hfull & Hlast). apply Forall_lookup.
  intros k c Hk.
  destruct (Nat.lt_ge_cases (S k) (length cs)) as [Hlt|Hge].
  - specialize (Hfull k c Hk Hlt). lia.
  - assert (last cs = Some c) as Hc.
    { rewrite last_lookup. apply lookup_lt_Some in Hk as Hlen.
      by replace (pred (length cs)) with k by lia. }
    specialize (Hlast c Hc).
    pose proof (Z.mod_pos_bound (Z.of_nat (length l)) B HB).
    destruct (Z.eqb_spec (Z.of_nat (length l) mod B) 0); lia.
Qed.

Lemma nonempty_batches_count cs :
  Forall (λ c, (0 < length c)%nat) cs → (length cs ≤ length (concat cs))%nat.
Proof.
  induction 1 as [|c cs Hc _ IH]; simpl; [done|].
  rewrite length_app. lia.
Qed.

End PartitionerMore.

Section PartitionerProperties.
Import JsArray Partitioner.

(** X4.  [chunkArray] returns exactly when the size is positive or the list
    is empty: with a size of zero or below it never returns on a list that
    has an element, and returns no batch at all on the empty list.  When it
    returns, what it returns does not depend on how long it was let run. *)
Theorem chunkArray_returns_iff {A} (array : list A) (size : Z) :
  ((∃ fuel chunks, chunkArray fuel array size = Some chunks)
   ↔ 0 < size ∨ array = [])
  ∧ (∀ fuel chunks, array = [] → chunkArray fuel array size = Some chunks →
       chunks = [])
  ∧ (∀ fuel fuel' chunks chunks',
       chunkArray fuel array size = Some chunks →
       chunkArray fuel' array size = Some chunks' → chunks = chunks').
Proof.
  split; [split|split].
  - intros (fuel & chunks & Hrun).
    destruct (Z.lt_ge_cases 0 size) as [?|Hs]; [by left|]. right.
    destruct array as [|a array]; [done|].
    unfold chunkArray in Hrun.
    rewrite chunkArray_loop_nonpositive in Hrun by (done || lia). done.
  - intros [Hs | ->].
    + destruct (chunkArray_returns (length array) array size Hs)
        as (chunks & Hrun & _); eauto.
    + exists 0%nat, []. reflexivity.
  - intros fuel chunks -> Hrun. unfold chunkArray in Hrun.
    destruct fuel; simpl in Hrun; congruence.
  - intros fuel fuel' chunks chunks' Hrun Hrun'.
    unfold chunkArray in *.
    apply (chunkArray_loop_more_fuel _ (max fuel fuel')) in Hrun; [|lia].
    apply (chunkArray_loop_more_fuel _ (max fuel fuel')) in Hrun'; [|lia].
    congruence.
Qed.

(** X5.  With a positive size, no batch that [chunkArray] returns is empty
    and none is longer than the size; so there are at most as many batches
    as elements. *)
Theorem chunkArray_batches_bounded {A} (array : list A) (size : Z)
    (fuel : nat) (chunks : list (list A)) :
  0 < size →
  chunkArray fuel array size = Some chunks →
  Forall (λ c, (0 < length c)%nat ∧ Z.of_nat (length c) ≤ size) chunks
  ∧ (length chunks ≤ length array)%nat.
Proof.
  intros Hs Hrun.
  destruct (chunkArray_returns (max fuel (length array)) array size Hs)
    as (chunks' & Hrun' & Hpart); [lia|].
  assert (chunks = chunks') as <-.
  { unfold chunkArray in *.
    apply (chunkArray_loop_more_fuel _ (max fuel (length array))) in Hrun;
      [congruence | lia]. }
  pose proof (is_partition_bounds size array chunks Hs Hpart) as Hbounds.
  split; [done|].
  destruct Hpart as (Hcat & _). rewrite <-Hcat.
  apply nonempty_batches_count.
  eapply Forall_impl; [exact Hbounds|]. by intros c [? _].
Qed.

Lemma chunkArray_batches_bounded_witness :
  Forall (λ c : list nat, (0 < length c)%nat ∧ Z.of_nat (length c) ≤ 5)
    [[1; 2; 3; 4; 5]; [6; 7; 8; 9; 10]; [11; 12]]%nat
  ∧ (3 ≤ 12)%nat.
Proof.
  apply (chunkArray_batches_bounded (seq 1 12) 5 12); [lia | reflexivity].
Defined.

End PartitionerProperties.

(** ** What goes out, and how far the run has come *)

Section SentFacts.
Import Js Http Number Partitioner Invalidator.

Lemma orders_of_deleteRequest (uToken : JsValue) (appKey : string)
    (batch : list string) :
  orders_of (deleteRequest uToken appKey batch) = batch.
Proof.
  unfold orders_of, deleteRequest. cbn. unfold ordersPayload.
  induction batch as [|id batch IH]; [done|]. cbn. by rewrite IH.
Qed.

Lemma orders_of_tokenRequest (appKey secretKey : string) :
  orders_of (tokenRequest appKey secretKey) = [].
Proof. reflexivity. Qed.

Lemma sent_ids_deleteRequests (uToken : JsValue) (appKey : string)
    (batches : list (list string)) :
  sent_ids (deleteRequest uToken appKey <$> batches) = concat batches.
Proof.
  unfold sent_ids. induction batches as [|batch batches IH]; [done|].
  rewrite !fmap_cons. cbn [concat].
  by rewrite orders_of_deleteRequest, IH.
Qed.

Lemma BATCH_SIZE_chunks (allOrderIds : list string)
    (orderIdChunks : list (list string)) :
  chunkArray (length allOrderIds) allOrderIds BATCH_SIZE = Some orderIdChunks →
  concat orderIdChunks = allOrderIds
  ∧ Forall (λ c, (0 < length c)%nat ∧ Z.of_nat (length c) ≤ BATCH_SIZE)
      orderIdChunks.
Proof.
  intros Hchunks.
  destruct (chunkArray_returns (length allOrderIds) allOrderIds BATCH_SIZE)
    as (chunks & Hrun & Hpart); [done | lia |].
  assert (chunks = orderIdChunks) as -> by congruence.
  split; [by destruct Hpart|].
  pose proof (is_partition_bounds BATCH_SIZE allOrderIds orderIdChunks
                ltac:(done) Hpart) as Hbounds.
  exact Hbounds.
Qed.

Lemma concat_take_prefix {A} (k : nat) (cs : list (list A)) :
  concat (take k cs) `prefix_of` concat cs.
Proof.
  exists (concat (drop k cs)). by rewrite <-concat_app, take_drop.
Qed.

Lemma rounds_run_all (env : Env) (i n : nat) :
  (∀ j, isCancelled (round env j) = false) → rounds_run env i n = n.
Proof.
  intros Hrun. revert i. induction n as [|n IH]; intros i; simpl; [done|].
  by rewrite Hrun, IH.
Qed.

End SentFacts.

Section SentProperties.
Import Js Http Number Partitioner Invalidator.

(** X6.  The identifiers that a run sends out, read back from the bodies of
    its requests in the order they were sent, are a prefix of the list the
    run was given: no identifier outside the list is ever sent, none is sent
    twice over, none is skipped before the point the run came to; no request
    carries more than 5000 of them or none at all besides the one for the
    token.  When the exchange gives a token and no round finds the flag set,
    they are the whole list. *)
Theorem sent_ids_are_the_input (appKey secretKey : string)
    (allOrderIds : list string) (env : Env) (st : State) :
  let final := startInvalidationProcess appKey secretKey allOrderIds env st in
  let new := drop (length (requests st)) (requests final.1) in
  requests final.1 = requests st ++ new
  ∧ sent_ids new `prefix_of` allOrderIds
  ∧ Forall (λ req, Z.of_nat (length (orders_of req)) ≤ BATCH_SIZE) new
  ∧ Forall (λ req, (0 < length (orders_of req))%nat) (tail new)
  ∧ (allOrderIds ≠ [] → appKey ≠ "" → secretKey ≠ "" →
     (∀ uToken st0,
        (generateUToken appKey secretKey (tokenResponse env) st0).2
        ≠ Normal uToken) →
     sent_ids new = [])
  ∧ (allOrderIds ≠ [] → appKey ≠ "" → secretKey ≠ "" →
     (∃ uToken,
        (generateUToken appKey secretKey (tokenResponse env) st).2
        = Normal uToken) →
     (∀ i, isCancelled (round env i) = false) →
     sent_ids new = allOrderIds).
Proof.
  intros final new. subst final new.
  destruct (BATCH_SIZE_partition allOrderIds) as (chunks & Hchunks & _).
  destruct (BATCH_SIZE_chunks allOrderIds chunks Hchunks) as [Hcat Hsizes].
  destruct (start_refused appKey secretKey allOrderIds) eqn:Hstart.
  - assert (requests
              (startInvalidationProcess appKey secretKey allOrderIds env st).1
            = requests st) as ->.
    { by rewrite startInvalidationProcess_refused. }
    rewrite drop_all, app_nil_r.
    split; [done|]. split; [apply prefix_nil|].
    split; [done|]. split; [done|].
    split; intros Hids HappKey Hsecret;
      assert (start_refused appKey secretKey allOrderIds = false)
        by (by apply start_refused_false); congruence.
  - rewrite (startInvalidationProcess_run _ _ _ chunks _ _ Hstart Hchunks).
    cbn [fst]. rewrite run_end_requests, drop_app_length.
    set (k := rounds_run env 0 (length chunks)).
    split; [done|].
    destruct (token_result (tokenResponse env)) as [e|uToken] eqn:Htoken.
    + split; [apply prefix_nil|].
      split; [constructor; [done | constructor]|].
      split; [constructor|]. split; [done|].
      intros _ _ _ [uToken Hok] _.
      rewrite generateUToken_result, Htoken in Hok. done.
    + assert (sent_ids
                (tokenRequest appKey secretKey
                 :: (deleteRequest uToken appKey <$> take k chunks))
              = concat (take k chunks)) as Hsent.
      { unfold sent_ids. rewrite fmap_cons. cbn [concat].
        rewrite orders_of_tokenRequest. apply sent_ids_deleteRequests. }
      rewrite Hsent.
      split; [rewrite <-Hcat; apply concat_take_prefix|].
      assert (Forall (λ req, (0 < length (orders_of req))%nat
                             ∧ Z.of_nat (length (orders_of req)) ≤ BATCH_SIZE)
                (deleteRequest uToken appKey <$> take k chunks)) as Hreqs.
      { apply Forall_fmap. eapply Forall_impl.
        - apply Forall_take, Hsizes.
        - intros c Hc. unfold compose.
          by rewrite orders_of_deleteRequest. }
      split.
      { constructor; [done|].
        eapply Forall_impl; [exact Hreqs|]. by intros req [_ ?]. }
      split.
      { cbn [tail]. eapply Forall_impl; [exact Hreqs|]. by intros req [? _]. }
      split.
      { intros _ _ _ Hnone. exfalso.
        apply (Hnone uToken st).
        by rewrite generateUToken_result, Htoken. }
      intros _ _ _ _ Hrun. subst k.
      by rewrite rounds_run_all, firstn_all.
Qed.

Lemma sent_ids_are_the_input_witness :
  let final :=
    startInvalidationProcess "app" "secret" ["A-1001"; "A-1002"; "A-1001"]
      every_batch_rate_limited initial in
  sent_ids (requests final.1) = ["A-1001"; "A-1002"; "A-1001"].
Proof.
  intros final.
  destruct (sent_ids_are_the_input "app" "secret"
              ["A-1001"; "A-1002"; "A-1001"] every_batch_rate_limited
              initial) as (_ & _ & _ & _ & _ & Hall).
  apply Hall; [discriminate.. | by eexists | done].
Defined.

(** X7.  In step 2, [processedIdCount] never passes the number of
    identifiers: it is at most that number at the top of every round and at
    the end, and so is the sum of the two other counters.  At the end it is
    that number exactly when every round ran, that is, when no round found
    the flag set. *)
Theorem processed_at_most_total (uToken : JsValue) (appKey : string)
    (allOrderIds : list string) (env : Env) (st : State) :
  ∃ chunks,
    chunkArray (length allOrderIds) allOrderIds BATCH_SIZE = Some chunks
    ∧ let k := rounds_run env 0 (length chunks) in
      let state_after j :=
        after_rounds uToken appKey (length chunks) (length allOrderIds) env 0
          (take j chunks) (loop_start allOrderIds st) in
      let final :=
        (invalidateOrdersInBatches uToken appKey allOrderIds env st).1 in
      (∀ j, (processedIdCount (state_after j) ≤ length allOrderIds)%nat)
      ∧ (processedIdCount final ≤ length allOrderIds)%nat
      ∧ (totalSuccessCount final + totalFailCount final
         ≤ length allOrderIds)%nat
      ∧ (processedIdCount final = length allOrderIds ↔ k = length chunks)
      ∧ (k = length chunks
         ↔ ∀ j, (j < length chunks)%nat → isCancelled (round env j) = false).
Proof.
  destruct (BATCH_SIZE_partition allOrderIds) as (chunks & Hchunks & _).
  destruct (BATCH_SIZE_chunks allOrderIds chunks Hchunks) as [Hcat Hsizes].
  exists chunks. split; [done|]. intros k state_after final.
  assert (∀ j, processedIdCount (state_after j)
               = length (concat (take j chunks))) as Hafter.
  { intros j. subst state_after. cbv beta.
    rewrite after_rounds_processed. cbn [loop_start set_counters
      processedIdCount]. by rewrite length_concat. }
  assert (∀ j, length (concat (take j chunks))
               + length (concat (drop j chunks)) = length allOrderIds)%nat
    as Hsplit.
  { intros j. by rewrite <-length_app, <-concat_app, take_drop, Hcat. }
  assert (processedIdCount final = processedIdCount (state_after k)
          ∧ totalSuccessCount final = totalSuccessCount (state_after k)
          ∧ totalFailCount final = totalFailCount (state_after k))
    as (Hproc & Hsucc & Hfail).
  { subst final.
    rewrite (invalidateOrdersInBatches_run _ _ _ _ chunks _ Hchunks).
    cbn [fst]. unfold loop_end. fold k.
    by destruct (k <? length chunks)%nat. }
  assert (counters_agree (state_after k)) as Hagree.
  { by apply after_rounds_counters_agree. }
  unfold counters_agree in Hagree.
  pose proof (rounds_run_le env 0 (length chunks)) as Hk. fold k in Hk.
  split; [|split; [|split; [|split]]].
  - intros j. rewrite Hafter. specialize (Hsplit j). lia.
  - rewrite Hproc, Hafter. specialize (Hsplit k). lia.
  - rewrite Hsucc, Hfail, <-Hagree, Hafter. specialize (Hsplit k). lia.
  - rewrite Hproc, Hafter. specialize (Hsplit k). split.
    + intros Hall.
      assert (length (concat (drop k chunks)) = 0)%nat as Hrest by lia.
      destruct (drop k chunks) as [|c rest] eqn:Hdrop.
      * apply (f_equal length) in Hdrop. rewrite length_drop in Hdrop.
        simpl in Hdrop. lia.
      * assert (0 < length c)%nat as Hc.
        { assert (Forall (λ c, (0 < length c)%nat
                               ∧ Z.of_nat (length c) ≤ BATCH_SIZE)
                    (drop k chunks)) as Hd by (by apply Forall_drop).
          rewrite Hdrop in Hd. by apply Forall_cons_1 in Hd as [[Hc _] _]. }
        cbn [concat] in Hrest. rewrite length_app in Hrest. lia.
    + intros ->. rewrite drop_all in Hsplit. simpl in Hsplit. lia.
  - split.
    + intros Hall j Hj. apply (rounds_run_before env 0 (length chunks)).
      fold k. lia.
    + intros Hrun.
      destruct (Nat.eq_dec k (length chunks)) as [|Hne]; [done|].
      pose proof (rounds_run_stop env 0 (length chunks)) as Hstop.
      fold k in Hstop. simpl in Hstop. rewrite Hrun in Hstop by lia.
      specialize (Hstop ltac:(lia)). done.
Qed.

End SentProperties.

(** ** The secret *)

Section SecretFacts.
Import Js Http Number Partitioner Invalidator.

Lemma with_requests_same (reqs : list Request) (st st' : State) :
  st = with_requests reqs st' →
  logOutput st = logOutput st'
  ∧ console_error st = console_error st'
  ∧ ui st = ui st'
  ∧ isProcessing st = isProcessing st'
  ∧ totalSuccessCount st = totalSuccessCount st'
  ∧ totalFailCount st = totalFailCount st'
  ∧ processedIdCount st = processedIdCount st'.
Proof. by intros ->. Qed.

Lemma blind_compose (f g : State → State) :
  blind_to_requests f → blind_to_requests g →
  blind_to_requests (λ st, g (f st)).
Proof.
  intros Hf Hg reqs st. destruct (Hf reqs st) as [reqs' ->].
  apply Hg.
Qed.

Lemma blind_logToScreen (message : Text) (isError : bool) :
  blind_to_requests (λ st, (logToScreen message isError st).1).
Proof. intros reqs st. by exists reqs. Qed.

Lemma blind_after_round (uToken : JsValue) (appKey : string)
    (nChunks totalIds : nat) (env : Env) (i : nat) (batch : list string) :
  blind_to_requests (after_round uToken appKey nChunks totalIds env i batch).
Proof.
  intros reqs st. by exists (reqs ++ [deleteRequest uToken appKey batch]).
Qed.

Lemma blind_after_rounds (uToken : JsValue) (appKey : string)
    (nChunks totalIds : nat) (env : Env) (i : nat)
    (ran : list (list string)) :
  blind_to_requests (after_rounds uToken appKey nChunks totalIds env i ran).
Proof.
  revert i. induction ran as [|batch ran IH]; intros i reqs st; simpl.
  - by exists reqs.
  - destruct (blind_after_round uToken appKey nChunks totalIds env i batch
                reqs st) as [reqs' ->].
    apply IH.
Qed.

Lemma blind_loop_end (uToken : JsValue) (appKey : string) (env : Env)
    (totalIds : nat) (chunks : list (list string)) :
  blind_to_requests (loop_end uToken appKey env totalIds chunks).
Proof.
  intros reqs st. unfold loop_end.
  destruct (blind_after_rounds uToken appKey (length chunks) totalIds env 0
              (take (rounds_run env 0 (length chunks)) chunks) reqs st)
    as [reqs' ->].
  exists reqs'. by destruct (_ <? _)%nat.
Qed.

Lemma blind_run_rest (appKey : string) (allOrderIds : list string)
    (orderIdChunks : list (list string)) (env : Env) :
  blind_to_requests
    (λ st1,
       finished
         match token_result (tokenResponse env) with
         | inl e => stopped e st1
         | inr uToken =>
             summarised env
               (loop_end uToken appKey env (length allOrderIds) orderIdChunks
                  (loop_start allOrderIds (token_obtained st1)))
         end).
Proof.
  intros reqs st. destruct (token_result (tokenResponse env)) as [e|uToken].
  - by exists reqs.
  - destruct (blind_loop_end uToken appKey env (length allOrderIds)
                orderIdChunks reqs
                (loop_start allOrderIds (token_obtained st))) as [reqs' Hend].
    exists reqs'.
    change (loop_start allOrderIds (token_obtained (with_requests reqs st)))
      with (with_requests reqs (loop_start allOrderIds (token_obtained st))).
    by rewrite Hend.
Qed.

Lemma token_requested_secret (appKey secret secret' : string) (st : State) :
  token_requested appKey secret st
  = with_requests (requests st ++ [tokenRequest appKey secret])
      (token_requested appKey secret' st).
Proof. reflexivity. Qed.

Lemma run_end_secret (appKey secret secret' : string)
    (allOrderIds : list string) (orderIdChunks : list (list string))
    (env : Env) (st : State) :
  ∃ reqs,
    run_end appKey secret allOrderIds orderIdChunks env st
    = with_requests reqs
        (run_end appKey secret' allOrderIds orderIdChunks env st).
Proof.
  unfold run_end.
  generalize (setupUIForProcessing (length allOrderIds) st).1. intros st1.
  rewrite (token_requested_secret appKey secret secret' st1).
  exact (blind_run_rest appKey allOrderIds orderIdChunks env _ _).
Qed.

End SecretFacts.

Section SecretProperties.
Import Js Http Number Partitioner Invalidator.

(** X8.  The secret goes into the request for the token and nowhere else:
    two runs that differ in the secret only, and get the same answers, write
    the same log, the same console output and the same page, end alike, and
    send the same requests after the one for the token. *)
Theorem secret_only_in_token_request (appKey secret secret' : string)
    (allOrderIds : list string) (env : Env) (st : State) :
  secret ≠ "" → secret' ≠ "" →
  let final := startInvalidationProcess appKey secret allOrderIds env st in
  let final' := startInvalidationProcess appKey secret' allOrderIds env st in
  final.2 = final'.2
  ∧ logOutput final.1 = logOutput final'.1
  ∧ console_error final.1 = console_error final'.1
  ∧ ui final.1 = ui final'.1
  ∧ isProcessing final.1 = isProcessing final'.1
  ∧ totalSuccessCount final.1 = totalSuccessCount final'.1
  ∧ totalFailCount final.1 = totalFailCount final'.1
  ∧ processedIdCount final.1 = processedIdCount final'.1
  ∧ drop (S (length (requests st))) (requests final.1)
    = drop (S (length (requests st))) (requests final'.1)
  ∧ (allOrderIds ≠ [] → appKey ≠ "" →
     requests final.1 !! length (requests st)
     = Some (tokenRequest appKey secret)).
Proof.
  intros Hsecret Hsecret' final final'. subst final final'.
  destruct (BATCH_SIZE_partition allOrderIds) as (chunks & Hchunks & _).
  destruct (start_refused appKey secret allOrderIds) eqn:Hstart.
  - assert (start_refused appKey secret' allOrderIds = true) as Hstart'.
    { unfold start_refused in *.
      apply String.eqb_neq in Hsecret, Hsecret'.
      by rewrite Hsecret, Hsecret' in *. }
    rewrite !startInvalidationProcess_refused by done.
    repeat (split; [reflexivity|]).
    intros Hids HappKey.
    assert (start_refused appKey secret allOrderIds = false)
      by (by apply start_refused_false).
    congruence.
  - assert (start_refused appKey secret' allOrderIds = false) as Hstart'.
    { apply start_refused_false in Hstart as (? & ? & _).
      by apply start_refused_false. }
    rewrite (startInvalidationProcess_run _ _ _ chunks _ _ Hstart Hchunks).
    rewrite (startInvalidationProcess_run _ _ _ chunks _ _ Hstart' Hchunks).
    cbn [fst snd].
    destruct (run_end_secret appKey secret secret' allOrderIds chunks env st)
      as [reqs Hrun].
    split; [reflexivity|].
    destruct (with_requests_same _ _ _ Hrun)
      as (Hlog & Hconsole & Hui & Hproc & Hsucc & Hfail & Hdone).
    clear Hrun.
    split; [exact Hlog|]. split; [exact Hconsole|]. split; [exact Hui|].
    split; [exact Hproc|]. split; [exact Hsucc|]. split; [exact Hfail|].
    split; [exact Hdone|].
    rewrite !run_end_requests.
    rewrite !(cons_middle (tokenRequest _ _)), !app_assoc.
    split.
    + by rewrite !drop_app_length'
        by (rewrite length_app; simpl; lia).
    + intros _ _. rewrite <-app_assoc.
      by rewrite lookup_app_r, Nat.sub_diag by lia.
Qed.

Lemma secret_only_in_token_request_witness :
  let final :=
    startInvalidationProcess "app" "secret" ["A-1001"; "A-1002"]
      every_batch_rate_limited initial in
  let final' :=
    startInvalidationProcess "app" "another secret" ["A-1001"; "A-1002"]
      every_batch_rate_limited initial in
  logOutput final.1 = logOutput final'.1
  ∧ console_error final.1 = console_error final'.1
  ∧ drop 1 (requests final.1) = drop 1 (requests final'.1).
Proof.
  intros final final'.
  destruct (secret_only_in_token_request "app" "secret" "another secret"
              ["A-1001"; "A-1002"] every_batch_rate_limited initial)
    as (_ & Hlog & Hconsole & _ & _ & _ & _ & _ & Hreq & _);
    [discriminate | discriminate |].
  split; [exact Hlog|]. split; [exact Hconsole | exact Hreq].
Defined.

End SecretProperties.

(** ** Strings *)

Section StringFacts.
Import JsString.
Implicit Types (s x y pre : list N) (pieces : list (list N)).

Lemma trimStart_white pre x :
  has_ink pre = false → trimStart (pre ++ x) = trimStart x.
Proof.
  induction pre as [|c pre IH]; [done|]. cbn.
  destruct (is_white_space c); cbn; [exact IH | done].
Qed.

Lemma trimStart_ink x y :
  has_ink x = true → trimStart (x ++ y) = trimStart x ++ y.
Proof.
  induction x as [|c x IH]; [done|]. cbn.
  destruct (is_white_space c); cbn; [exact IH | done].
Qed.

Lemma trimStart_has_ink s : has_ink (trimStart s) = has_ink s.
Proof.
  induction s as [|c s IH]; [done|]. cbn.
  destruct (is_white_space c) eqn:Hc; cbn; [exact IH | by rewrite Hc].
Qed.

Lemma trimStart_head s c :
  head (trimStart s) = Some c → is_white_space c = false.
Proof.
  induction s as [|c' s IH]; [done|]. cbn.
  destruct (is_white_space c') eqn:Hc; [exact IH|]. by intros [= <-].
Qed.

Lemma trimStart_fixed s :
  (∀ c, head s = Some c → is_white_space c = false) → trimStart s = s.
Proof.
  destruct s as [|c s]; [done|]. intros Hc. cbn. by rewrite (Hc c).
Qed.

Lemma trimStart_suffix s : trimStart s `suffix_of` s.
Proof.
  induction s as [|c s IH]; [done|]. cbn.
  destruct (is_white_space c); [by apply suffix_cons_r | done].
Qed.

Lemma trimStart_empty s : trimStart s = [] ↔ has_ink s = false.
Proof.
  induction s as [|c s IH]; [done|]. cbn.
  destruct (is_white_space c); cbn; [exact IH | done].
Qed.

Lemma has_ink_reverse s : has_ink (reverse s) = has_ink s.
Proof.
  unfold has_ink. apply eq_true_iff_eq.
  rewrite !existsb_exists. setoid_rewrite <-list_elem_of_In.
  by setoid_rewrite elem_of_reverse.
Qed.

Lemma has_ink_app x y : has_ink (x ++ y) = has_ink x || has_ink y.
Proof. apply existsb_app. Qed.

Lemma trimEnd_white x post :
  has_ink post = false → trimEnd (x ++ post) = trimEnd x.
Proof.
  intros Hpost. unfold trimEnd.
  by rewrite reverse_app, trimStart_white by (by rewrite has_ink_reverse).
Qed.

Lemma trimEnd_ink x y :
  has_ink y = true → trimEnd (x ++ y) = x ++ trimEnd y.
Proof.
  intros Hy. unfold trimEnd.
  rewrite reverse_app, trimStart_ink by (by rewrite has_ink_reverse).
  by rewrite reverse_app, reverse_involutive.
Qed.

Lemma trimEnd_has_ink s : has_ink (trimEnd s) = has_ink s.
Proof.
  unfold trimEnd. by rewrite has_ink_reverse, trimStart_has_ink,
    has_ink_reverse.
Qed.

Lemma trimEnd_last s c :
  last (trimEnd s) = Some c → is_white_space c = false.
Proof.
  unfold trimEnd. rewrite last_reverse. apply trimStart_head.
Qed.

Lemma trimEnd_fixed s :
  (∀ c, last s = Some c → is_white_space c = false) → trimEnd s = s.
Proof.
  intros Hc. unfold trimEnd. rewrite trimStart_fixed.
  - apply reverse_involutive.
  - intros c. rewrite head_reverse. apply Hc.
Qed.

Lemma trimEnd_prefix s : trimEnd s `prefix_of` s.
Proof.
  unfold trimEnd. rewrite <-(reverse_involutive s) at 2.
  apply suffix_prefix_reverse, trimStart_suffix.
Qed.

Lemma trimEnd_empty s : trimEnd s = [] ↔ has_ink s = false.
Proof.
  unfold trimEnd. rewrite <-has_ink_reverse, <-trimStart_empty.
  split; [|by intros ->].
  intros H. apply (f_equal reverse) in H.
  by rewrite reverse_involutive in H.
Qed.

Lemma trimEnd_head s c :
  has_ink s = true → head s = Some c → head (trimEnd s) = Some c.
Proof.
  intros Hink Hc. destruct s as [|c' s]; [done|]. injection Hc as ->.
  destruct (trimEnd (c :: s)) as [|c' s'] eqn:Hs.
  - apply trimEnd_empty in Hs. congruence.
  - destruct (trimEnd_prefix (c :: s)) as [rest Hrest].
    rewrite Hs in Hrest. by injection Hrest as -> _.
Qed.

Lemma trim_trimmed s : trimmed (trim s).
Proof.
  unfold trim. split; [|apply trimEnd_last].
  intros c Hc. destruct (has_ink (trimStart s)) eqn:Hink.
  - destruct (trimStart s) as [|c' s'] eqn:Hs; [done|].
    assert (head (trimEnd (c' :: s')) = Some c') as Hhead
      by (by apply trimEnd_head).
    assert (c = c') as -> by congruence.
    apply (trimStart_head s). by rewrite Hs.
  - apply trimEnd_empty in Hink. by rewrite Hink in Hc.
Qed.

Lemma trim_fixed s : trimmed s → trim s = s.
Proof.
  intros [Hstart Hend]. unfold trim.
  by rewrite trimStart_fixed, trimEnd_fixed.
Qed.

Lemma trim_has_ink s : has_ink (trim s) = has_ink s.
Proof. unfold trim. by rewrite trimEnd_has_ink, trimStart_has_ink. Qed.

Lemma trim_empty s : trim s = [] ↔ has_ink s = false.
Proof. unfold trim. by rewrite trimEnd_empty, trimStart_has_ink. Qed.

Lemma nonempty_trim s : Fields.nonempty (trim s) = has_ink s.
Proof.
  destruct (has_ink s) eqn:Hink.
  - destruct (trim s) eqn:Hs; [|done].
    apply trim_empty in Hs. congruence.
  - apply trim_empty in Hink. by rewrite Hink.
Qed.

Lemma trim_trimStart s : trim (trimStart s) = trim s.
Proof.
  unfold trim. f_equal. apply trimStart_fixed, trimStart_head.
Qed.

Lemma trimStart_split s :
  ∃ pre, s = pre ++ trimStart s ∧ has_ink pre = false.
Proof.
  induction s as [|c s (pre & Hs & Hpre)]; [by exists []|]. cbn.
  destruct (is_white_space c) eqn:Hc.
  - exists (c :: pre). cbn. rewrite Hc. cbn. split; [by f_equal | done].
  - by exists [].
Qed.

Lemma trimStart_trimEnd s : trimStart (trimEnd s) = trimEnd (trimStart s).
Proof.
  destruct (has_ink s) eqn:Hink.
  - destruct (trimStart_split s) as (pre & Hs & Hpre).
    assert (has_ink (trimStart s) = true) as Hink'
      by (by rewrite trimStart_has_ink).
    rewrite Hs at 1. rewrite trimEnd_ink, trimStart_white by done.
    apply trimStart_fixed. intros c Hc.
    destruct (trimStart s) as [|c' t] eqn:Ht; [done|].
    rewrite (trimEnd_head (c' :: t) c') in Hc by done.
    injection Hc as <-. apply (trimStart_head s). by rewrite Ht.
  - assert (trimEnd s = []) as -> by (by apply trimEnd_empty).
    assert (trimStart s = []) as -> by (by apply trimStart_empty).
    done.
Qed.

Lemma trim_trimEnd s : trim (trimEnd s) = trim s.
Proof.
  unfold trim. rewrite trimStart_trimEnd.
  apply trimEnd_fixed, trimEnd_last.
Qed.

Lemma trim_trim s : trim (trim s) = trim s.
Proof. apply trim_fixed, trim_trimmed. Qed.

(** *** Splitting and joining *)

Lemma split_nonempty (sep : N) s : split sep s ≠ [].
Proof.
  induction s as [|c s IH]; [done|]. cbn.
  destruct (c =? sep)%N; [done|]. by destruct (split sep s).
Qed.

Lemma split_no_sep (sep : N) s : Forall (λ piece, sep ∉ piece) (split sep s).
Proof.
  induction s as [|c s IH]; cbn.
  - constructor; [|done]. by intros ?%elem_of_nil.
  - destruct (N.eqb_spec c sep) as [->|Hne].
    + constructor; [|done]. by intros ?%elem_of_nil.
    + pose proof (split_nonempty sep s) as Hnil.
      destruct (split sep s) as [|piece pieces]; [done|].
      apply Forall_cons_1 in IH as [Hpiece Hpieces].
      constructor; [|done].
      intros [?|?]%elem_of_cons; [congruence | done].
Qed.

Lemma split_clean (sep : N) x : sep ∉ x → split sep x = [x].
Proof.
  induction x as [|c x IH]; [done|]. intros Hx. cbn.
  destruct (N.eqb_spec c sep) as [->|Hne].
  - exfalso. apply Hx. by left.
  - rewrite IH; [done|]. intros ?. apply Hx. by right.
Qed.

Lemma split_app (sep : N) x y :
  sep ∉ x → split sep (x ++ sep :: y) = x :: split sep y.
Proof.
  induction x as [|c x IH]; intros Hx; cbn.
  - by rewrite N.eqb_refl.
  - destruct (N.eqb_spec c sep) as [->|Hne].
    + exfalso. apply Hx. by left.
    + rewrite IH; [done|]. intros ?. apply Hx. by right.
Qed.

Lemma join_cons (sep : list N) piece pieces :
  pieces ≠ [] → join sep (piece :: pieces) = piece ++ sep ++ join sep pieces.
Proof. by destruct pieces. Qed.

Lemma split_join (sep : N) pieces :
  pieces ≠ [] → Forall (λ piece, sep ∉ piece) pieces →
  split sep (join [sep] pieces) = pieces.
Proof.
  induction pieces as [|piece pieces IH]; [done|]. intros _ Hclean.
  apply Forall_cons_1 in Hclean as [Hpiece Hpieces].
  destruct pieces as [|piece' pieces].
  - by apply split_clean.
  - rewrite join_cons by done. cbn [app].
    rewrite split_app by done. by rewrite IH.
Qed.

Lemma join_split (sep : N) s : join [sep] (split sep s) = s.
Proof.
  induction s as [|c s IH]; [done|]. cbn.
  pose proof (split_nonempty sep s) as Hne.
  destruct (N.eqb_spec c sep) as [->|Hc].
  - rewrite join_cons by done. cbn. by rewrite IH.
  - destruct (split sep s) as [|piece pieces]; [done|].
    destruct pieces as [|piece' pieces]; cbn in *; by rewrite <-IH.
Qed.

Lemma has_ink_join (sep : list N) pieces :
  Exists (λ piece, has_ink piece = true) pieces →
  has_ink (join sep pieces) = true.
Proof.
  induction pieces as [|piece pieces IH]; intros Hex.
  - by apply Exists_nil in Hex.
  - destruct pieces as [|piece' pieces].
    + apply Exists_cons in Hex as [?|Hex]; [done|].
      by apply Exists_nil in Hex.
    + rewrite join_cons by done. rewrite !has_ink_app.
      apply Exists_cons in Hex as [->|Hex]; [done|].
      rewrite IH by done. by rewrite !orb_true_r.
Qed.

End StringFacts.

(** ** The identifiers in the text field *)

Section FieldFacts.
Import JsString Fields.
Implicit Types (s x y : list N) (ids pieces : list (list N)).

Lemma filter_all {A} (P : A → Prop) `{∀ a, Decision (P a)} (l : list A) :
  Forall P l → filter P l = l.
Proof.
  induction 1 as [|a l Ha _ IH]; [done|].
  by rewrite filter_cons_True, IH.
Qed.

Lemma nonempty_true s : nonempty s = true ↔ s ≠ [].
Proof. by destruct s. Qed.

Lemma elem_of_trim (c : N) s : c ∈ trim s → c ∈ s.
Proof.
  unfold trim. intros Hc.
  destruct (trimEnd_prefix (trimStart s)) as [post Hpost].
  destruct (trimStart_suffix s) as [pre Hpre].
  rewrite Hpre, Hpost, !elem_of_app. auto.
Qed.

Lemma elem_of_trimStart (c : N) s : c ∈ trimStart s → c ∈ s.
Proof.
  intros Hc. destruct (trimStart_suffix s) as [pre Hpre].
  rewrite Hpre, elem_of_app. auto.
Qed.

Lemma elem_of_trimEnd (c : N) s : c ∈ trimEnd s → c ∈ s.
Proof.
  intros Hc. destruct (trimEnd_prefix s) as [post Hpost].
  rewrite Hpost, elem_of_app. auto.
Qed.

Lemma has_ink_LF : has_ink [LF] = false.
Proof. reflexivity. Qed.

(** The lines of a text that ends in ink, each trimmed, are the trimmed
    pieces it was joined from. *)
Lemma lines_of_trimEnd_join ids :
  ids ≠ [] → Forall (λ id, (LF ∉ id) ∧ has_ink id = true) ids →
  trim <$> split LF (trimEnd (join [LF] ids)) = trim <$> ids.
Proof.
  induction ids as [|id ids IH]; [done|]. intros _ Hids.
  apply Forall_cons_1 in Hids as [[Hid Hink] Hids].
  destruct ids as [|id' ids].
  - cbn [join]. rewrite split_clean.
    + cbn. by rewrite trim_trimEnd.
    + intros ?%elem_of_trimEnd. done.
  - rewrite join_cons by done.
    assert (has_ink (join [LF] (id' :: ids)) = true) as Hrest.
    { apply has_ink_join. apply Forall_cons_1 in Hids as [[_ ?] _].
      by left. }
    rewrite trimEnd_ink by (by rewrite has_ink_app, Hrest, orb_true_r).
    rewrite trimEnd_ink by done. cbn [app].
    rewrite split_app by done. rewrite fmap_cons, IH by done. done.
Qed.

Lemma allOrderIds_join ids :
  Forall (λ id, (LF ∉ id) ∧ has_ink id = true) ids →
  allOrderIds (join [LF] ids) = trim <$> ids.
Proof.
  intros Hids. unfold allOrderIds.
  destruct ids as [|id ids]; [done|].
  apply Forall_cons_1 in Hids as [[Hid Hink] Hids].
  assert (trimStart (join [LF] (id :: ids)) = join [LF] (trimStart id :: ids))
    as Hstart.
  { destruct ids as [|id' ids]; [done|].
    rewrite !join_cons by done. by apply trimStart_ink. }
  unfold trim at 2. rewrite Hstart, lines_of_trimEnd_join.
  - rewrite fmap_cons, trim_trimStart. apply filter_all.
    apply Forall_fmap. constructor.
    + cbn. by rewrite nonempty_trim, Hink.
    + eapply Forall_impl; [exact Hids|]. intros id' [_ Hink']. cbn.
      by rewrite nonempty_trim, Hink'.
  - done.
  - constructor; [|done]. split.
    + intros ?%elem_of_trimStart. done.
    + by rewrite trimStart_has_ink.
Qed.

Lemma has_ink_join_inv pieces :
  has_ink (join [LF] pieces) = true →
  Exists (λ piece, has_ink piece = true) pieces.
Proof.
  induction pieces as [|piece pieces IH]; [done|].
  destruct pieces as [|piece' pieces].
  - cbn. by left.
  - rewrite join_cons by done. rewrite !has_ink_app, has_ink_LF.
    cbn [orb]. intros [?|?]%orb_true_iff; [by left | right; by apply IH].
Qed.


End FieldFacts.

Section FieldProperties.
Import JsString Fields.

(** X9.  Every identifier that [startInvalidationProcess] reads from the
    text field is a line of the field without the white space around it: it
    is not empty, it holds no newline, and it neither starts nor ends with
    white space. *)
Theorem allOrderIds_are_clean (orderIdsInput_value : list N) :
  Forall (λ id, id ≠ [] ∧ (LF ∉ id) ∧ trimmed id ∧ trim id = id)
    (allOrderIds orderIdsInput_value).
Proof.
  unfold allOrderIds. apply Forall_forall. intros id Hid.
  apply list_elem_of_filter in Hid as [Hne Hid].
  apply list_elem_of_fmap in Hid as (line & -> & Hline).
  pose proof (split_no_sep LF (trim orderIdsInput_value)) as Hclean.
  rewrite Forall_forall in Hclean. specialize (Hclean line Hline).
  split; [by apply nonempty_true, Is_true_eq_true|].
  split; [intros ?%elem_of_trim; done|].
  split; [apply trim_trimmed | apply trim_trim].
Qed.

(** X10.  The list of identifiers is empty exactly when the text field holds
    nothing but white space (spaces, tabs, newlines and the like): such a
    field is the same as an empty one, and anything else in it gives at
    least one identifier. *)
Theorem allOrderIds_empty_iff (orderIdsInput_value : list N) :
  allOrderIds orderIdsInput_value = []
  ↔ Forall (λ c, is_white_space c = true) orderIdsInput_value.
Proof.
  assert (has_ink orderIdsInput_value = false
          ↔ Forall (λ c, is_white_space c = true) orderIdsInput_value) as <-.
  { unfold has_ink. induction orderIdsInput_value as [|c s IH]; [done|].
    cbn. rewrite Forall_cons, <-IH, orb_false_iff, negb_false_iff. done. }
  unfold allOrderIds. split.
  - intros Hnone. destruct (has_ink orderIdsInput_value) eqn:Hink; [|done].
    exfalso. rewrite <-trim_has_ink in Hink.
    rewrite <-(join_split LF (trim orderIdsInput_value)) in Hink.
    apply has_ink_join_inv, Exists_exists in Hink as (line & Hline & Hink).
    assert (trim line ∈ filter (λ id, nonempty id)
              (trim <$> split LF (trim orderIdsInput_value))) as Hin.
    { apply list_elem_of_filter. split.
      - by rewrite nonempty_trim, Hink.
      - by apply list_elem_of_fmap_2. }
    rewrite Hnone in Hin. by apply elem_of_nil in Hin.
  - intros Hink. apply trim_empty in Hink. by rewrite Hink.
Qed.

(** X11.  The text field keeps a list of identifiers: a list of clean
    identifiers (not empty, no line break inside, no white space around)
    that is joined with newlines and read back is the same list; and
    reading a text, joining what was read and reading again changes
    nothing. *)
Theorem allOrderIds_round_trip (ids : list (list N))
    (orderIdsInput_value : list N) :
  (Forall (λ id, id ≠ [] ∧ (LF ∉ id) ∧ (CR ∉ id) ∧ trimmed id) ids →
   allOrderIds (join [LF] ids) = ids)
  ∧ allOrderIds (join [LF] (allOrderIds orderIdsInput_value))
    = allOrderIds orderIdsInput_value.
Proof.
  assert (∀ l, Forall (λ id, id ≠ [] ∧ (LF ∉ id) ∧ trimmed id) l →
               allOrderIds (join [LF] l) = l) as Hclean.
  { intros l Hl. rewrite allOrderIds_join.
    - rewrite <-(list_fmap_id l) at 2. apply Forall_fmap_ext.
      eapply Forall_impl; [exact Hl|]. intros id (_ & _ & Hid).
      by apply trim_fixed.
    - eapply Forall_impl; [exact Hl|]. intros id (Hne & Hid & Htrim).
      split; [done|]. rewrite <-nonempty_trim, trim_fixed by done.
      by apply nonempty_true. }
  split.
  - intros Hids. apply Hclean. eapply Forall_impl; [exact Hids|].
    intros id (? & ? & _ & ?). done.
  - apply Hclean. eapply Forall_impl; [apply allOrderIds_are_clean|].
    intros id (? & ? & ? & _). done.
Qed.

Lemma allOrderIds_round_trip_witness :
  allOrderIds (join [LF] [[65; 45; 49]; [66; 32; 50]]%N)
  = [[65; 45; 49]; [66; 32; 50]]%N.
Proof.
  apply (allOrderIds_round_trip [[65; 45; 49]; [66; 32; 50]]%N []).
  repeat constructor; try done;
    try (intros Hin; repeat (apply elem_of_cons in Hin as [Hin|Hin];
                             [discriminate|]); by apply elem_of_nil in Hin);
    cbn; intros c [= <-]; reflexivity.
Defined.



End FieldProperties.

(** * The date cleaner: properties *)

Section ClassFacts.
Import JsString DateCleaner.
Implicit Types (c : N) (s : list N).

Lemma is_white_space_spec c :
  is_white_space c = true
  ↔ (c = 9 ∨ c = 10 ∨ c = 11 ∨ c = 12 ∨ c = 13 ∨ c = 32 ∨ c = 160
     ∨ c = 5760 ∨ c = 8232 ∨ c = 8233 ∨ c = 8239 ∨ c = 8287 ∨ c = 12288
     ∨ c = 65279 ∨ 8192 ≤ c ≤ 8202)%N.
Proof.
  unfold is_white_space. cbn [existsb].
  rewrite !orb_true_iff, andb_true_iff, !N.eqb_eq, !N.leb_le. intuition lia.
Qed.

Lemma digit_in_class c (k : Class) :
  is_digit c = true →
  in_class k c = match k with Word | Digit => true | _ => false end.
Proof.
  unfold is_digit. rewrite andb_true_iff, !N.leb_le. intros Hc.
  destruct (is_white_space c) eqn:Hw.
  { apply is_white_space_spec in Hw. lia. }
  destruct k; cbn [in_class]; unfold is_digit, is_upper, is_lower;
    rewrite ?Hw;
    rewrite ?orb_true_iff, ?orb_false_iff, ?andb_true_iff, ?andb_false_iff,
      ?N.eqb_eq, ?N.eqb_neq, ?N.leb_le, ?N.leb_gt; lia.
Qed.

Lemma letter_in_class c (k : Class) :
  is_upper c || is_lower c = true →
  in_class k c = match k with Word => true | _ => false end.
Proof.
  unfold is_upper, is_lower.
  rewrite orb_true_iff, !andb_true_iff, !N.leb_le. intros Hc.
  destruct (is_white_space c) eqn:Hw.
  { apply is_white_space_spec in Hw. lia. }
  destruct k; cbn [in_class]; unfold is_digit, is_upper, is_lower;
    rewrite ?Hw;
    rewrite ?orb_true_iff, ?orb_false_iff, ?andb_true_iff, ?andb_false_iff,
      ?N.eqb_eq, ?N.eqb_neq, ?N.leb_le, ?N.leb_gt; lia.
Qed.

Lemma white_space_in_class c (k : Class) :
  is_white_space c = true →
  in_class k c = match k with Space | DashOrSpace => true | _ => false end.
Proof.
  intros Hw. pose proof Hw as Hc. apply is_white_space_spec in Hc.
  destruct k; cbn [in_class]; unfold is_digit, is_upper, is_lower;
    rewrite ?Hw;
    rewrite ?orb_true_iff, ?orb_false_iff, ?andb_true_iff, ?andb_false_iff,
      ?N.eqb_eq, ?N.eqb_neq, ?N.leb_le, ?N.leb_gt; lia.
Qed.

Lemma digit_classes c : is_digit c = true → same_classes c 48.
Proof.
  intros Hc k. rewrite (digit_in_class c k Hc).
  symmetry. by apply digit_in_class.
Qed.

Lemma letter_classes c : is_upper c || is_lower c = true → same_classes c 97.
Proof.
  intros Hc k. rewrite (letter_in_class c k Hc).
  symmetry. by apply letter_in_class.
Qed.

Lemma white_space_classes c : is_white_space c = true → same_classes c 32.
Proof.
  intros Hc k. rewrite (white_space_in_class c k Hc).
  symmetry. by apply white_space_in_class.
Qed.

Lemma same_classes_refl c : same_classes c c.
Proof. by intros k. Qed.

End ClassFacts.

Section MatcherFacts.
Import JsString DateCleaner.
Implicit Types (c : N) (s u pre post : list N) (a : Atom)
  (atoms : list Atom).

Lemma backtrack_unfold {R} (least : nat) (continue : nat → option R) n :
  backtrack least continue n
  = if (n <? least)%nat then None
    else match continue n with
         | Some r => Some r
         | None => match n with
                   | O => None
                   | S n' => backtrack least continue n'
                   end
         end.
Proof. by destruct n. Qed.


Lemma backtrack_some {R} (least : nat) (continue : nat → option R) n r :
  backtrack least continue n = Some r →
  ∃ m, (least ≤ m ≤ n)%nat ∧ continue m = Some r.
Proof.
  induction n as [|n IH]; rewrite backtrack_unfold.
  - destruct (Nat.ltb_spec 0 least); [done|].
    destruct (continue 0%nat) eqn:Hc; [|done].
    intros [= ->]. exists 0%nat. split; [lia|done].
  - destruct (Nat.ltb_spec (S n) least); [done|].
    destruct (continue (S n)) eqn:Hc.
    + intros [= ->]. exists (S n). split; [lia|done].
    + intros Hb. destruct (IH Hb) as (m & Hm & Hr).
      exists m. split; [lia|done].
Qed.

Lemma backtrack_ext {R} (least : nat) (continue continue' : nat → option R)
    n :
  (∀ m, continue m = continue' m) →
  backtrack least continue n = backtrack least continue' n.
Proof.
  intros Hext.
  induction n as [|n IH];
    rewrite (backtrack_unfold _ continue), (backtrack_unfold _ continue'),
      Hext; [done|].
  by rewrite IH.
Qed.

Lemma run_le_length (k : Class) most s : (run k most s ≤ length s)%nat.
Proof.
  revert most. induction s as [|c s IH]; intros most.
  - by destruct most as [[|m]|].
  - destruct most as [[|m]|]; cbn; [lia| |];
      (destruct (in_class k c); [|lia]); cbn.
    + pose proof (IH (Some m)). lia.
    + pose proof (IH None). lia.
Qed.

Lemma run_le_most (k : Class) (m : nat) s : (run k (Some m) s ≤ m)%nat.
Proof.
  revert m. induction s as [|c s IH]; intros [|m]; cbn; try lia.
  destruct (in_class k c); [|lia]. cbn. pose proof (IH m). lia.
Qed.

Lemma run_in_class (k : Class) most s n :
  (n ≤ run k most s)%nat → Forall (λ c, in_class k c = true) (take n s).
Proof.
  revert most n. induction s as [|c s IH]; intros most n Hn.
  - by rewrite take_nil.
  - destruct n as [|n]; [constructor|].
    destruct most as [[|m]|]; cbn in Hn; [lia| |];
      (destruct (in_class k c) eqn:Hc; [|lia]); cbn in Hn;
      cbn; constructor; try done; eapply IH; apply Nat.succ_le_mono, Hn.
Qed.


Lemma run_same (k : Class) most s s' :
  Forall2 same_classes s s' → run k most s = run k most s'.
Proof.
  intros Hs. revert most. induction Hs as [|c c' s s' Hc _ IH]; intros most.
  - done.
  - destruct most as [[|m]|]; cbn; [done| |]; rewrite (Hc k);
      destruct (in_class k c'); by rewrite ?IH.
Qed.

Lemma matches_same atoms s s' i :
  Forall2 same_classes s s' → matches atoms s i = matches atoms s' i.
Proof.
  intros Hs. revert i. induction atoms as [|a rest IH]; intros i; [done|].
  cbn. rewrite (run_same _ _ (drop i s) (drop i s'))
    by by apply Forall2_drop.
  apply backtrack_ext. intros m. by rewrite IH.
Qed.

Lemma exec_from_same atoms s s' starts :
  Forall2 same_classes s s' →
  exec_from atoms s starts = exec_from atoms s' starts.
Proof.
  intros Hs. induction starts as [|i later IH]; [done|].
  cbn. by rewrite (matches_same atoms s s' i Hs), IH.
Qed.

(** What [exec] gives on [s] is read off a text that the expressions cannot
    tell from [s]. *)
Lemma exec_same atoms s s' :
  Forall2 same_classes s s' →
  exec atoms s
  = match exec_from atoms s' (seq 0 (S (length s'))) with
    | Some groups => Some (span s <$> groups)
    | None => None
    end.
Proof.
  intros Hs. unfold exec.
  by rewrite (Forall2_length _ _ _ Hs), (exec_from_same atoms s s' _ Hs).
Qed.

(** The groups of a match are text of the string that their atoms take. *)
Lemma matches_fit atoms s i e groups :
  (i ≤ length s)%nat →
  matches atoms s i = Some (e, groups) →
  (i ≤ e ≤ length s)%nat ∧ groups_fit atoms s groups.
Proof.
  revert i e groups. induction atoms as [|a rest IH]; intros i e groups Hi.
  - cbn. intros [= <- <-]. split; [lia|done].
  - cbn [matches]. intros Hb. apply backtrack_some in Hb as (n & Hn & Hc).
    destruct (matches rest s (i + n)) as [[e' groups']|] eqn:Hrest; [|done].
    injection Hc as <- <-.
    pose proof (run_le_length (class a) (at_most a) (drop i s)) as Hlen.
    rewrite length_drop in Hlen.
    apply IH in Hrest as [He Hfit]; [|lia].
    split; [lia|]. cbn [groups_fit]. destruct (captured a); [|done].
    split; [|done]. unfold fits, span. cbn [fst snd].
    split; [lia|]. split; [|split].
    + intros m Hm. rewrite Hm in Hn.
      pose proof (run_le_most (class a) m (drop i s)). lia.
    + lia.
    + eapply run_in_class. apply Hn.
Qed.

Lemma exec_from_fit atoms s starts groups :
  Forall (λ i, i ≤ length s)%nat starts →
  exec_from atoms s starts = Some groups →
  ∃ whole groups', groups = whole :: groups' ∧ groups_fit atoms s groups'.
Proof.
  induction 1 as [|i later Hi _ IH]; [done|]. cbn.
  destruct (matches atoms s i) as [[e groups']|] eqn:Hm; [|done].
  intros [= <-]. apply matches_fit in Hm as [_ Hfit]; eauto.
Qed.

Lemma exec_fit atoms s match_ :
  exec atoms s = Some match_ →
  ∃ whole groups,
    match_ = whole :: (span s <$> groups) ∧ groups_fit atoms s groups.
Proof.
  unfold exec.
  destruct (exec_from atoms s _) as [groups|] eqn:He; [|done].
  intros [= <-].
  apply exec_from_fit in He as (whole & groups' & -> & Hfit).
  2: { apply Forall_forall. intros i Hi. apply elem_of_seq in Hi. lia. }
  exists (span s whole), groups'. by rewrite fmap_cons.
Qed.




End MatcherFacts.

Section DateFacts.
Import JsString DateCleaner.
Implicit Types (c : N) (s u y m d pre post : list N) (p : Pattern).

Lemma fits_length (a : Atom) s g : fits a s g → length (span s g) = g.2.
Proof.
  intros (_ & _ & Hlen & _). unfold span.
  rewrite length_take, length_drop. lia.
Qed.

Lemma property_elem (o : list (list N * list N)) key v :
  property o key = Some v → (key, v) ∈ o.
Proof.
  induction o as [|[k v'] o IH]; [done|]. cbn.
  destruct (decide (k = key)) as [->|_].
  - intros [= ->]. by left.
  - intros Hv. right. by apply IH.
Qed.

Lemma getMonthNumber_some name number :
  getMonthNumber name = Some number →
  ∃ text, name = Some text
    ∧ (toLowerCase (take 3 text), number) ∈ monthMap.
Proof.
  destruct name as [[|c text]|]; [done| |done]. unfold getMonthNumber.
  destruct (property monthMap _) as [v|] eqn:Hv; [|done].
  destruct (truthy (Some v)); [|done]. intros [= <-].
  exists (c :: text). split; [done|]. by apply property_elem.
Qed.

Lemma monthMap_numbers :
  Forall (λ kv, length kv.1 = 3%nat ∧ length kv.2 = 2%nat
                ∧ forallb is_lower kv.1 = true
                ∧ forallb is_digit kv.2 = true) monthMap.
Proof. repeat constructor. Qed.

Lemma getMonthNumber_digits name number :
  getMonthNumber name = Some number → length number = 2%nat ∧ digits number.
Proof.
  intros Hn. apply getMonthNumber_some in Hn as (text & _ & Hin).
  pose proof monthMap_numbers as Hall. rewrite Forall_forall in Hall.
  destruct (Hall _ Hin) as (_ & Hlen & _ & Hdig). cbn in *.
  split; [done|]. unfold digits. apply Forall_forall. intros c Hc.
  rewrite forallb_forall in Hdig. apply Hdig. by apply list_elem_of_In.
Qed.

(** No month starts with a digit. *)
Lemma getMonthNumber_digit c text :
  is_digit c = true → getMonthNumber (Some (c :: text)) = None.
Proof.
  intros Hc. destruct (getMonthNumber _) as [number|] eqn:Hn; [|done].
  apply getMonthNumber_some in Hn as (text' & [= <-] & Hin).
  pose proof monthMap_numbers as Hall. rewrite Forall_forall in Hall.
  destruct (Hall _ Hin) as (_ & _ & Hlow & _).
  cbn [fst take toLowerCase fmap list_fmap forallb] in Hlow.
  apply andb_true_iff in Hlow as [Hlow _].
  unfold is_digit, is_upper, is_lower in *.
  destruct ((65 <=? c)%N && (c <=? 90)%N) eqn:Hup;
    rewrite ?andb_true_iff, ?andb_false_iff, ?N.leb_le, ?N.leb_gt in *; lia.
Qed.

Lemma padStart_digits d :
  digits d → (1 ≤ length d ≤ 2)%nat →
  length (padStart 2 48 d) = 2%nat ∧ digits (padStart 2 48 d).
Proof.
  intros Hd Hlen. destruct d as [|d1 [|d2 [|]]]; cbn in Hlen; try lia.
  - split; [done|]. by constructor.
  - done.
Qed.

Lemma iso_date_intro y m d :
  digits y → digits m → digits d →
  length y = 4%nat → length m = 2%nat → length d = 2%nat →
  iso_date (y ++ [45%N] ++ m ++ [45%N] ++ d) = true.
Proof.
  intros Hy Hm Hd Hly Hlm Hld.
  destruct y as [|y1 [|y2 [|y3 [|y4 [|]]]]]; try done.
  destruct m as [|m1 [|m2 [|]]]; try done.
  destruct d as [|d1 [|d2 [|]]]; try done.
  unfold digits in *.
  repeat match goal with
         | H : Forall _ (_ :: _) |- _ => apply Forall_cons_1 in H as [? H]
         end.
  cbn [app iso_date forallb].
  repeat match goal with H : is_digit _ = true |- _ => rewrite H; clear H end.
  done.
Qed.

(** What [exec] hands to the loop for an expression with three groups. *)
Lemma exec_three a1 a2 a3 atoms s match_ :
  filter (λ a, captured a = true) atoms = [a1; a2; a3] →
  exec atoms s = Some match_ →
  ∃ whole g1 g2 g3,
    match_ = [whole; span s g1; span s g2; span s g3]
    ∧ fits a1 s g1 ∧ fits a2 s g2 ∧ fits a3 s g3.
Proof.
  intros Hatoms Hexec.
  apply exec_fit in Hexec as (whole & groups & -> & Hfit).
  assert (∀ atoms' groups' (l : list Atom),
            filter (λ a, captured a = true) atoms' = l →
            groups_fit atoms' s groups' →
            Forall2 (λ a g, fits a s g) l groups') as Hall.
  { clear. induction atoms' as [|a atoms' IH]; intros groups' l.
    - intros <- ->. constructor.
    - rewrite filter_cons. cbn [groups_fit].
      destruct (captured a) eqn:Ha.
      + rewrite decide_True by done. intros <-.
        destruct groups' as [|g groups']; [done|]. intros [Hg Hrest].
        constructor; [done|]. by apply IH.
      + rewrite decide_False by done. apply IH. }
  specialize (Hall _ _ _ Hatoms Hfit).
  apply Forall2_cons_inv_l in Hall as (g1 & l1 & H1 & Hall & ->).
  apply Forall2_cons_inv_l in Hall as (g2 & l2 & H2 & Hall & ->).
  apply Forall2_cons_inv_l in Hall as (g3 & l3 & H3 & Hall & ->).
  apply Forall2_nil_inv_l in Hall as ->.
  by exists whole, g1, g2, g3.
Qed.

Lemma fits_digits (lo hi : nat) s g :
  fits (between Digit lo hi true) s g →
  digits (span s g) ∧ (lo ≤ length (span s g) ≤ hi)%nat.
Proof.
  intros Hfit. pose proof (fits_length _ _ _ Hfit) as Hlen.
  destruct Hfit as (Hlo & Hhi & _ & Hall). cbn in *.
  specialize (Hhi hi eq_refl). split; [done|lia].
Qed.

(** One round of the loop of [formatSingleDate]. *)
Lemma loop_cons p later s date :
  formatSingleDate_loop (p :: later) s = Some date →
  formatSingleDate_loop later s = Some date
  ∨ ∃ match_ year month,
      exec (regex p) s = Some match_
      ∧ match_ !! yearIndex p = Some year
      ∧ (if isMonthName p
         then getMonthNumber (match_ !! monthIndex p) = Some month
         else month = padStart 2 48 (String_ (match_ !! monthIndex p)))
      ∧ date = year ++ [45%N] ++ month ++ [45%N]
                 ++ padStart 2 48 (String_ (match_ !! dayIndex p)).
Proof.
  cbn [formatSingleDate_loop].
  destruct (exec (regex p) s) as [match_|]; [|by left].
  destruct (match_ !! yearIndex p) as [year|] eqn:Hy; [|by left].
  destruct (isMonthName p).
  - destruct (getMonthNumber _) as [month|] eqn:Hm.
    + destruct (_ && _); [|by left]. intros [= <-]. right.
      by exists match_, year, month.
    + rewrite andb_false_r. by left.
  - destruct (_ && _); [|by left]. intros [= <-]. right.
    by eexists match_, year, _.
Qed.

Lemma loop_iso_date s date :
  formatSingleDate_loop patterns s = Some date → iso_date date = true.
Proof.
  unfold patterns. intros Hloop.
  repeat (apply loop_cons in Hloop
            as [Hloop|(match_ & year & month & Hexec & Hy & Hm & ->)]);
    [done|..];
    cbn -[getMonthNumber padStart span] in Hexec, Hy, Hm;
    (eapply exec_three in Hexec
       as (whole & g1 & g2 & g3 & -> & H1 & H2 & H3); [|reflexivity]);
    cbn -[getMonthNumber padStart span iso_date] in Hy, Hm |- *;
    injection Hy as <-;
    try apply getMonthNumber_digits in Hm as [Hlm Hm]; try subst month;
    try apply fits_digits in H1 as [H1 H1'];
    try apply fits_digits in H2 as [H2 H2'];
    try apply fits_digits in H3 as [H3 H3'];
    apply iso_date_intro; try done; try lia; by apply padStart_digits.
Qed.

End DateFacts.


Section ShapeFacts.
Import JsString DateCleaner.
Implicit Types (c : N) (s u y m d pre post : list N) (p : Pattern).

Lemma trim_around pre s post :
  has_ink pre = false → has_ink post = false →
  trim (pre ++ s ++ post) = trim s.
Proof.
  intros Hpre Hpost. unfold trim.
  rewrite trimStart_white by done.
  rewrite <-!trimStart_trimEnd. by rewrite trimEnd_white.
Qed.

Lemma formatSingleDate_recognised pre s post date :
  has_ink pre = false → has_ink post = false →
  trimmed s → s ≠ [] →
  formatSingleDate_loop patterns s = Some date →
  formatSingleDate (pre ++ s ++ post) = date.
Proof.
  intros Hpre Hpost Hs Hne Hloop. unfold formatSingleDate.
  rewrite trim_around, trim_fixed by done.
  destruct s; [done|]. by rewrite Hloop.
Qed.

(** One round of the loop, with the spans read off a text that the
    expressions cannot tell from [s]. *)
Lemma loop_same p later s s' :
  Forall2 same_classes s s' →
  formatSingleDate_loop (p :: later) s
  = match exec_from (regex p) s' (seq 0 (S (length s'))) with
    | Some groups =>
        let match_ := span s <$> groups in
        let year := match_ !! yearIndex p in
        let day := Some (padStart 2 48 (String_ (match_ !! dayIndex p))) in
        let month :=
          if isMonthName p
          then getMonthNumber (match_ !! monthIndex p)
          else Some (padStart 2 48 (String_ (match_ !! monthIndex p))) in
        if truthy year && truthy month && truthy day
        then Some (String_ year ++ [45%N] ++ String_ month
                     ++ [45%N] ++ String_ day)
        else formatSingleDate_loop later s
    | None => formatSingleDate_loop later s
    end.
Proof.
  intros Hs. cbn [formatSingleDate_loop]. rewrite (exec_same _ s s' Hs).
  by destruct (exec_from _ _ _).
Qed.

Lemma digits_trimmed_ends c s c' :
  is_digit c = true → last (c :: s) = Some c' → is_digit c' = true →
  trimmed (c :: s).
Proof.
  intros Hc Hlast Hc'. split.
  - intros ? [= <-]. by rewrite <-(digit_in_class c Space Hc).
  - intros c'' Hc''. rewrite Hlast in Hc''. injection Hc'' as <-.
    by rewrite <-(digit_in_class c' Space Hc').
Qed.

Lemma iso_date_chars d c :
  iso_date d = true → c ∈ d → is_digit c = true ∨ c = 45%N.
Proof.
  destruct d as [|y1 [|y2 [|y3 [|y4 [|h1 [|m1 [|m2 [|h2 [|d1 [|d2 [|]]]]]]]]]]];
    try done.
  cbn [iso_date forallb]. rewrite !andb_true_iff, !N.eqb_eq.
  intros ((Hdigits & ->) & ->) Hc.
  repeat (apply elem_of_cons in Hc as [->|Hc]; [intuition|]).
  by apply elem_of_nil in Hc.
Qed.

Lemma iso_date_no_LF d : iso_date d = true → LF ∉ d.
Proof.
  intros Hd Hin. by destruct (iso_date_chars d LF Hd Hin).
Qed.

Lemma formatSingleDate_cases s :
  match trim s with
  | [] => formatSingleDate s = []
  | _ :: _ =>
      iso_date (formatSingleDate s) = true
      ∨ formatSingleDate s = trim s ++ units " -> Invalid Format"
  end.
Proof.
  unfold formatSingleDate. destruct (trim s) as [|c t]; [done|].
  destruct (formatSingleDate_loop patterns (c :: t)) as [date|] eqn:Hloop.
  - left. by apply loop_iso_date in Hloop.
  - by right.
Qed.

Lemma formatSingleDate_no_LF s : LF ∉ s → LF ∉ formatSingleDate s.
Proof.
  intros Hs. pose proof (formatSingleDate_cases s) as Hcases.
  destruct (trim s) as [|c t] eqn:Htrim.
  - rewrite Hcases. apply not_elem_of_nil.
  - destruct Hcases as [Hiso| ->]; [by apply iso_date_no_LF|].
    rewrite elem_of_app. intros [Hin|Hin].
    + apply Hs, elem_of_trim. by rewrite Htrim.
    + vm_compute in Hin.
      repeat (apply elem_of_cons in Hin as [Hin|Hin]; [done|]).
      by apply elem_of_nil in Hin.
Qed.

End ShapeFacts.

Ltac explicit_digits H :=
  repeat match type of H with
         | Forall _ (_ :: _) => apply Forall_cons_1 in H as [? H]
         end.

(** A text of the same classes as [s], read off the hypotheses. *)
Ltac rep_of s :=
  lazymatch s with
  | @nil _ => constr:(@nil N)
  | ?c :: ?s' =>
      let r := rep_of s' in
      let c' :=
        lazymatch goal with
        | _ : DateCleaner.is_digit c = true |- _ => constr:(48%N)
        | _ : DateCleaner.is_upper c || DateCleaner.is_lower c = true |- _ =>
            constr:(97%N)
        | _ : JsString.is_white_space c = true |- _ => constr:(32%N)
        | _ => c
        end in
      constr:(c' :: r)
  end.

(** One round of the loop of [formatSingleDate] on a text whose code units
    are known by their classes. *)
Ltac step :=
  lazymatch goal with
  | |- DateCleaner.formatSingleDate_loop (_ :: _) ?s = _ =>
      let r := rep_of s in
      rewrite (loop_same _ _ _ r)
        by (repeat constructor;
            first [by apply digit_classes | by apply letter_classes
                  | by apply white_space_classes | apply same_classes_refl]);
      match goal with
      | |- context [DateCleaner.exec_from ?a ?r' ?st] =>
          let v := eval vm_compute in (DateCleaner.exec_from a r' st) in
          replace (DateCleaner.exec_from a r' st) with v
            by (vm_compute; reflexivity)
      end;
      cbn -[DateCleaner.getMonthNumber DateCleaner.padStart
            DateCleaner.formatSingleDate_loop];
      rewrite ?getMonthNumber_digit by done;
      repeat match goal with
             | H : DateCleaner.getMonthNumber _ = Some _ |- _ =>
                 rewrite H
             end;
      cbn -[DateCleaner.getMonthNumber DateCleaner.padStart
            DateCleaner.formatSingleDate_loop]
  end.

Section DateShapes.
Import JsString DateCleaner.
Implicit Types (c : N) (s u y m d pre post : list N).

(** A date that is written [yyyy-mm-dd] already is left as it is. *)
Lemma iso_date_fixed d : iso_date d = true → formatSingleDate d = d.
Proof.
  destruct d as [|y1 [|y2 [|y3 [|y4 [|h1 [|m1 [|m2 [|h2 [|d1 [|d2 [|]]]]]]]]]]];
    try done.
  cbn [iso_date forallb]. rewrite !andb_true_iff, !N.eqb_eq.
  intros (((Hy1 & Hy2 & Hy3 & Hy4 & Hm1 & Hm2 & Hd1 & Hd2 & _) & ->) & ->).
  change [y1; y2; y3; y4; 45%N; m1; m2; 45%N; d1; d2]
    with ([] ++ [y1; y2; y3; y4; 45%N; m1; m2; 45%N; d1; d2] ++ []) at 1.
  apply formatSingleDate_recognised;
    [done | done | by eapply digits_trimmed_ends | done |].
  unfold patterns. repeat step. reflexivity.
Qed.






End DateShapes.

Section DateProperties.
Import JsString DateCleaner.

(** X13.  What [formatSingleDate] returns is one of three things: nothing,
    for a line of white space only and for no other line; a date written
    [yyyy-mm-dd], four digits, two digits and two digits; or the line
    without the white space around it, followed by [" -> Invalid Format"],
    which is never taken for a date. *)
Theorem formatSingleDate_outcomes (dateString : list N) :
  (formatSingleDate dateString = [] ↔ has_ink dateString = false)
  ∧ (has_ink dateString = true →
     iso_date (formatSingleDate dateString) = true
     ∨ formatSingleDate dateString
       = trim dateString ++ units " -> Invalid Format")
  ∧ (iso_date (formatSingleDate dateString) = true →
     formatSingleDate dateString
     ≠ trim dateString ++ units " -> Invalid Format").
Proof.
  pose proof (formatSingleDate_cases dateString) as Hcases.
  pose proof (trim_empty dateString) as Hempty.
  destruct (trim dateString) as [|c t] eqn:Htrim.
  - assert (has_ink dateString = false) as Hink by by apply Hempty.
    rewrite Hcases, Hink. split; [done|]. split; done.
  - assert (has_ink dateString = true) as Hink.
    { destruct (has_ink dateString); [done|].
      by destruct Hempty as [_ Hnil]; specialize (Hnil eq_refl). }
    split; [|split].
    + rewrite Hink. split; [|done].
      destruct Hcases as [Hiso| ->]; [|done].
      intros Hnil. by rewrite Hnil in Hiso.
    + done.
    + intros Hiso Heq. rewrite Heq in Hiso.
      assert (10 < length ((c :: t) ++ units " -> Invalid Format"))%nat
        as Hlong by (rewrite length_app; cbn; lia).
      destruct ((c :: t) ++ units " -> Invalid Format")
        as [|? [|? [|? [|? [|? [|? [|? [|? [|? [|? [|]]]]]]]]]]];
        cbn in Hlong; try lia; done.
Qed.

(** X14.  A date with the year first, [yyyy-m-d] or [yyyy/m/d], is written
    with month and day filled up to two digits; white space around it is
    dropped.  The numbers are not checked: a month of 13 or a day of 99
    goes through. *)
Theorem year_first_dates (y m d pre post : list N) (sep sep' : N) :
  digits y → length y = 4%nat →
  digits m → (1 ≤ length m ≤ 2)%nat →
  digits d → (1 ≤ length d ≤ 2)%nat →
  in_class SlashOrDash sep = true → in_class SlashOrDash sep' = true →
  has_ink pre = false → has_ink post = false →
  formatSingleDate (pre ++ (y ++ [sep] ++ m ++ [sep'] ++ d) ++ post)
  = y ++ [45%N] ++ padStart 2 48 m ++ [45%N] ++ padStart 2 48 d.
Proof.
  intros Hy Hly Hm Hlm Hd Hld Hsep Hsep' Hpre Hpost.
  destruct y as [|y1 [|y2 [|y3 [|y4 [|]]]]]; try done.
  destruct m as [|m1 [|m2 [|]]]; cbn in Hlm; try lia;
    destruct d as [|d1 [|d2 [|]]]; cbn in Hld; try lia;
    unfold digits in *; explicit_digits Hy; explicit_digits Hm;
    explicit_digits Hd;
    cbn [in_class] in Hsep, Hsep';
    apply orb_true_iff in Hsep as [Hsep|Hsep];
    apply orb_true_iff in Hsep' as [Hsep'|Hsep'];
    apply N.eqb_eq in Hsep as ->; apply N.eqb_eq in Hsep' as ->;
    (apply formatSingleDate_recognised;
     [done | done | by eapply digits_trimmed_ends | done |]);
    unfold patterns; cbn [app]; repeat step; reflexivity.
Qed.

Lemma year_first_dates_witness :
  formatSingleDate (units "  2024/1/5 ") = units "2024-01-05"
  ∧ formatSingleDate (units "2024-13-99") = units "2024-13-99".
Proof.
  split.
  - apply (year_first_dates (units "2024") (units "1") (units "5")
             (units "  ") (units " ") 47%N 47%N);
      try done; try (cbn; lia); by repeat constructor.
  - apply (year_first_dates (units "2024") (units "13") (units "99") [] []
             45%N 45%N);
      try done; try (cbn; lia); by repeat constructor.
Defined.

(** X15.  A date of numbers with the year last is read with the month
    first: [m/d/yyyy] and [m-d-yyyy] become [yyyy-mm-dd], so that a date
    written day first comes out with day and month exchanged (25/12/2024 as
    2024-25-12). *)
Theorem month_first_dates (y m d pre post : list N) (sep sep' : N) :
  digits m → (1 ≤ length m ≤ 2)%nat →
  digits d → (1 ≤ length d ≤ 2)%nat →
  digits y → length y = 4%nat →
  in_class SlashOrDash sep = true → in_class SlashOrDash sep' = true →
  has_ink pre = false → has_ink post = false →
  formatSingleDate (pre ++ (m ++ [sep] ++ d ++ [sep'] ++ y) ++ post)
  = y ++ [45%N] ++ padStart 2 48 m ++ [45%N] ++ padStart 2 48 d.
Proof.
  intros Hm Hlm Hd Hld Hy Hly Hsep Hsep' Hpre Hpost.
  destruct y as [|y1 [|y2 [|y3 [|y4 [|]]]]]; try done.
  destruct m as [|m1 [|m2 [|]]]; cbn in Hlm; try lia;
    destruct d as [|d1 [|d2 [|]]]; cbn in Hld; try lia;
    unfold digits in *; explicit_digits Hy; explicit_digits Hm;
    explicit_digits Hd;
    cbn [in_class] in Hsep, Hsep';
    apply orb_true_iff in Hsep as [Hsep|Hsep];
    apply orb_true_iff in Hsep' as [Hsep'|Hsep'];
    apply N.eqb_eq in Hsep as ->; apply N.eqb_eq in Hsep' as ->;
    (apply formatSingleDate_recognised;
     [done | done | by eapply digits_trimmed_ends | done |]);
    unfold patterns; cbn [app]; repeat step; reflexivity.
Qed.

Lemma month_first_dates_witness :
  formatSingleDate (units "25/12/2024") = units "2024-25-12"
  ∧ formatSingleDate (units "1-5-2024") = units "2024-01-05".
Proof.
  split.
  - apply (month_first_dates (units "2024") (units "25") (units "12") [] []
             47%N 47%N);
      try done; try (cbn; lia); by repeat constructor.
  - apply (month_first_dates (units "2024") (units "1") (units "5") [] []
             45%N 45%N);
      try done; try (cbn; lia); by repeat constructor.
Defined.

(** X16.  [cleanDates] works line by line: the lines of what it writes are
    the lines of the input, each as [formatSingleDate] makes it, one for
    one and in their order; there are as many lines after as before, and
    an empty line stays an empty line. *)
Theorem cleanDates_line_by_line (inputText_value : list N) :
  split LF (cleanDates inputText_value)
  = formatSingleDate <$> split LF inputText_value
  ∧ length (split LF (cleanDates inputText_value))
    = length (split LF inputText_value)
  ∧ ∀ i, split LF inputText_value !! i = Some [] →
         split LF (cleanDates inputText_value) !! i = Some [].
Proof.
  assert (split LF (cleanDates inputText_value)
          = formatSingleDate <$> split LF inputText_value) as Hlines.
  { unfold cleanDates. apply split_join.
    - pose proof (split_nonempty LF inputText_value).
      by destruct (split LF inputText_value).
    - apply Forall_fmap. eapply Forall_impl; [apply split_no_sep|].
      intros line Hline. by apply formatSingleDate_no_LF. }
  split; [done|]. rewrite Hlines. split; [by rewrite length_fmap|].
  intros i Hi. by rewrite list_lookup_fmap, Hi.
Qed.

(** X17.  Cleaning once is enough where the dates were recognised: a line
    that came out as a date, or as nothing, comes out the same when it is
    cleaned again; so a text of which every line was recognised is not
    changed by a second cleaning. *)
Theorem cleaning_twice (dateString inputText_value : list N) :
  (iso_date (formatSingleDate dateString) = true
   ∨ formatSingleDate dateString = [] →
   formatSingleDate (formatSingleDate dateString)
   = formatSingleDate dateString)
  ∧ (Forall (λ line, iso_date (formatSingleDate line) = true
                     ∨ formatSingleDate line = [])
       (split LF inputText_value) →
     cleanDates (cleanDates inputText_value) = cleanDates inputText_value).
Proof.
  assert (∀ s, iso_date (formatSingleDate s) = true ∨ formatSingleDate s = [] →
               formatSingleDate (formatSingleDate s) = formatSingleDate s)
    as Hline.
  { intros s [Hiso| ->]; [by apply iso_date_fixed | done]. }
  split; [apply Hline|]. intros Hall.
  unfold cleanDates at 1.
  assert (split LF (cleanDates inputText_value)
          = formatSingleDate <$> split LF inputText_value) as ->.
  { unfold cleanDates. apply split_join.
    - pose proof (split_nonempty LF inputText_value).
      by destruct (split LF inputText_value).
    - apply Forall_fmap. eapply Forall_impl; [apply split_no_sep|].
      intros line Hl. by apply formatSingleDate_no_LF. }
  unfold cleanDates. f_equal. rewrite <-list_fmap_compose.
  apply Forall_fmap_ext_1. eapply Forall_impl; [exact Hall|].
  intros line Hl. by apply Hline.
Qed.

Lemma cleaning_twice_witness :
  let text := units "Sep 5, 2024" ++ [LF] ++ units "3/4/2021" ++ [LF; LF] in
  cleanDates (cleanDates text) = cleanDates text.
Proof.
  intros text. apply (cleaning_twice [] text).
  repeat constructor; by vm_compute; auto.
Defined.





End DateProperties.
